(** * linear.hpp: the open-addressing kernel of [linear::unordered_set] and
    [linear::unordered_map]

    A shallow embedding of [linear::detail::kernel] (src/linear.hpp) and the
    properties of its probing, resizing and deletion code.

    Conventions of the embedding.
    - [size_t] is a 64-bit unsigned integer: a [Z] with the wrap-around
      written out ([wrap64]).
    - The bucket vector is a [list bucket_type]; [buckets_[i]] out of range
      is undefined behaviour in C++ and [None] here.
    - A bucket is the source's pair of an occupancy flag and raw storage.
      The storage is [Some v] while a constructed [value_type] lives in it
      and [None] otherwise; reading an entry out of dead storage is [None].
    - Every operation returns an [option]: [None] stands for undefined
      behaviour or for a loop or recursion that does not come back.  The
      probe loops are cut off after one turn around the bucket vector;
      the recursion of the private [insert] through [rehash] takes a
      [fuel] argument.
    - Entries are mathematical values: moving an entry is copying it.
    - [kernel_new], [rehash] and what is built on them take the bucket
      vector they ask for as built.  [kernel_new_alloc], [rehash_alloc]
      and [insert_impl_alloc] ask the environment, through [allocates],
      and throw where it refuses. *)

From Stdlib Require Import ZArith Lia Bool.
From stdpp Require Import base option list.

Local Open Scope Z_scope.

(** ** Machine arithmetic *)

Definition wrap64 (x : Z) : Z := x mod 2 ^ 64.

Definition INT_MAX : Z := 2 ^ 31 - 1.

(** [upper_power_of_two] (linear.hpp:516): the bit trick on a [size_t]. *)
Definition upper_power_of_two (x : Z) : Z :=
  let x := wrap64 (x - 1) in
  let x := Z.lor x (Z.shiftr x 1) in
  let x := Z.lor x (Z.shiftr x 2) in
  let x := Z.lor x (Z.shiftr x 4) in
  let x := Z.lor x (Z.shiftr x 8) in
  let x := Z.lor x (Z.shiftr x 16) in
  let x := Z.lor x (Z.shiftr x 32) in
  wrap64 (x + 1).

(** ** Load limits

    [min_load_] and [max_load_] are the binary32 values nearest to 0.3 and
    0.7, that is 10066330 / 2^25 and 11744051 / 2^24.  The bucket count is
    0 or a power of two, so the binary32 product [bucket_count_ * load] is
    exact and its conversion to [size_t] is the floor below. *)

Definition min_load_num : Z := 10066330.
Definition min_load_den : Z := 2 ^ 25.
Definition max_load_num : Z := 11744051.
Definition max_load_den : Z := 2 ^ 24.

Definition min_size_of (bucket_count : Z) : Z :=
  (min_load_num * bucket_count) / min_load_den.

Definition max_size_of (bucket_count : Z) : Z :=
  (max_load_num * bucket_count) / max_load_den.

(** ** The binary32 arithmetic of [reserve]

    [binary32_round p q] is the binary32 value nearest to the positive
    rational [p / q], ties to even, as a mantissa below [2^24] (or equal
    to it after a carry) and an exponent. *)
Definition binary32_round (p q : Z) : Z * Z :=
  let k0 := Z.log2 p - Z.log2 q in
  let above :=
    if 0 <=? k0 then q * 2 ^ k0 <=? p else q <=? p * 2 ^ (- k0) in
  let k := if above then k0 else k0 - 1 in
  let e := k - 23 in
  let num := if 0 <=? e then p else p * 2 ^ (- e) in
  let den := if 0 <=? e then q * 2 ^ e else q in
  let m := num / den in
  let r := num mod den in
  let m :=
    if (den <? 2 * r) || ((den =? 2 * r) && Z.odd m) then m + 1 else m in
  (m, e).

(** [std::ceil((float)count / max_load_factor())] converted to [size_t]
    (linear.hpp:372); a value out of the range of [size_t] is undefined. *)
Definition reserve_count (count : Z) : option Z :=
  if count =? 0 then Some 0
  else
    let '(m1, e1) := binary32_round count 1 in
    let cf := if 0 <=? e1 then m1 * 2 ^ e1 else m1 / 2 ^ (- e1) in
    let '(m, e) := binary32_round (cf * max_load_den) max_load_num in
    let c := if 0 <=? e then m * 2 ^ e else - ((- m) / 2 ^ (- e)) in
    if c <? 2 ^ 64 then Some c else None.

(** ** Calls that can throw

    A call that allocates a bucket vector either returns or throws; the
    exception leaves behind the state [s] it found. *)
Inductive outcome (A S : Type) : Type :=
  | Returned (a : A)
  | Thrown (s : S).

Arguments Returned {A S} a.
Arguments Thrown {A S} s.

(** ** The kernel *)

Section kernel.
Context {Key Value Mapped : Type}.
Variable hash_ : Key -> Z.
Variable equal_ : Key -> Key -> bool.
Variable extract_ : Value -> Key.
Variable mapped_extract_ : Value -> Mapped.

(** [bucket_type] (linear.hpp:392). *)
Record bucket_type : Type := Bucket {
  has_value : bool;
  memory : option Value
}.

(** The data members (linear.hpp:498-512); the functors are the section
    variables and the two load factors are the constants above. *)
Record kernel : Type := Kernel {
  buckets_ : list bucket_type;
  bucket_count_ : Z;
  size_ : Z;
  min_size_ : Z;
  max_size_ : Z
}.

(** A value-initialised bucket: flag false, storage dead. *)
Definition empty_bucket : bucket_type := Bucket false None.

Definition new_buckets (n : Z) : list bucket_type :=
  replicate (Z.to_nat n) empty_bucket.

(** Default constructor (linear.hpp:62). *)
Definition kernel_new (bucket_count : Z) : kernel :=
  let c := upper_power_of_two bucket_count in
  {| buckets_ := new_buckets c;
     bucket_count_ := c;
     size_ := 0;
     min_size_ := min_size_of c;
     max_size_ := max_size_of c |}.

(** [buckets_[index]]. *)
Definition bucket_at (t : kernel) (index : Z) : option bucket_type :=
  if index <? 0 then None else buckets_ t !! Z.to_nat index.

(** A write through [buckets_[index]] to one field of the bucket. *)
Definition alter_bucket (f : bucket_type -> bucket_type) (t : kernel)
    (index : Z) : kernel :=
  {| buckets_ := alter f (Z.to_nat index) (buckets_ t);
     bucket_count_ := bucket_count_ t;
     size_ := size_ t;
     min_size_ := min_size_ t;
     max_size_ := max_size_ t |}.

(** Placement new into the storage, [~value_type()] on the storage, and
    the assignment to [has_value]. *)
Definition construct_at (value : Value) (b : bucket_type) : bucket_type :=
  Bucket (has_value b) (Some value).

Definition destroy_at (b : bucket_type) : bucket_type :=
  Bucket (has_value b) None.

Definition set_has_value (flag : bool) (b : bucket_type) : bucket_type :=
  Bucket flag (memory b).

Definition set_size (t : kernel) (s : Z) : kernel :=
  {| buckets_ := buckets_ t;
     bucket_count_ := bucket_count_ t;
     size_ := s;
     min_size_ := min_size_ t;
     max_size_ := max_size_ t |}.

(** Index helpers (linear.hpp:533-547). *)
Definition index_from_key (t : kernel) (key : Key) : Z :=
  Z.land (wrap64 (hash_ key)) (wrap64 (bucket_count_ t - 1)).

Definition index_from_value (t : kernel) (value : Value) : Z :=
  index_from_key t (extract_ value).

Definition index_add (t : kernel) (index x : Z) : Z :=
  Z.land (wrap64 (index + x)) (wrap64 (bucket_count_ t - 1)).

(** [index_sub] (linear.hpp:549); the subtraction wraps as [size_t]. *)
Definition index_sub (t : kernel) (index x : Z) : Z :=
  Z.land (wrap64 (index - x)) (wrap64 (bucket_count_ t - 1)).

(** A probe loop advances one slot per iteration over a vector whose
    length is the bucket count, so a loop that has not stopped after
    visiting every slot is cut off. *)
Definition probe_fuel (t : kernel) : nat := S (length (buckets_ t)).

(** *** find (linear.hpp:637) *)

Fixpoint find_loop (fuel : nat) (t : kernel) (key : Key)
    (virtual_index : Z) : option Z :=
  match fuel with
  | O => None
  | S fuel =>
      bucket ← bucket_at t virtual_index;
      if has_value bucket then
        value ← memory bucket;
        if equal_ key (extract_ value) then Some virtual_index
        else find_loop fuel t key (index_add t virtual_index 1)
      else Some (bucket_count_ t)
  end.

Definition find_impl (t : kernel) (key : Key) (virtual_index : Z)
    : option Z :=
  find_loop (probe_fuel t) t key virtual_index.

(** The public [find] (linear.hpp:293): the index held by the returned
    iterator. *)
Definition find (t : kernel) (key : Key) : option Z :=
  find_impl t key (index_from_key t key).

(** The terminal position [end()] (linear.hpp:170, 568). *)
Definition buckets_end (t : kernel) : Z := Z.of_nat (length (buckets_ t)).

(** *** operator[] (linear.hpp:281)

    The result records the container after the call, the index handed
    to [buckets_[...]] and the mapped view read there. *)
Record access : Type := Access {
  access_state : kernel;
  access_index : Z;
  access_mapped : option Mapped
}.

Definition subscript (t : kernel) (key : Key) : option access :=
  index ← find_impl t key (index_from_key t key);
  Some {| access_state := t;
          access_index := index;
          access_mapped :=
            bucket ← bucket_at t index;
            value ← memory bucket;
            Some (mapped_extract_ value) |}.

(** *** insert (linear.hpp:583, 608) and rehash (linear.hpp:343) *)

Fixpoint free_loop (fuel : nat) (t : kernel) (free_index : Z)
    : option Z :=
  match fuel with
  | O => None
  | S fuel =>
      bucket ← bucket_at t free_index;
      if has_value bucket then free_loop fuel t (index_add t free_index 1)
      else Some free_index
  end.

(** The tail of the private [insert]: construct in place, set the flag,
    count. *)
Definition place (t : kernel) (free_index : Z) (value : Value) : kernel :=
  let t := alter_bucket (construct_at value) t free_index in
  let t := alter_bucket (set_has_value true) t free_index in
  set_size t (wrap64 (size_ t + 1)).

(** The sweep of [rehash] over the old bucket vector; [ins] is the
    private [insert].  The call passes the moved entry and the index
    computed from the same storage; C++ leaves the order of the two
    unspecified, and the embedding takes the index of the entry as it
    was before the move. *)
Fixpoint rehash_sweep (ins : kernel -> Value -> Z -> option kernel)
    (count : Z) (old_buckets : list bucket_type) (t : kernel)
    : option kernel :=
  match old_buckets with
  | [] => Some t
  | bucket :: rest =>
      if has_value bucket then
        value ← memory bucket;
        t ← ins t value (index_from_value t value);
        (* Detect recursive rehash and break. *)
        if bucket_count_ t =? count then rehash_sweep ins count rest t
        else Some t
      else rehash_sweep ins count rest t
  end.

Definition rehash_with (ins : kernel -> Value -> Z -> option kernel)
    (t : kernel) (count : Z) : option kernel :=
  let c := upper_power_of_two count in
  rehash_sweep ins count (buckets_ t)
    {| buckets_ := new_buckets c;
       bucket_count_ := c;
       size_ := 0;
       min_size_ := min_size_of c;
       max_size_ := max_size_of c |}.

(** The private [insert]; [fuel] bounds the depth of the recursion
    through [rehash]. It returns the container and the index of the
    iterator. *)
Fixpoint insert_impl (fuel : nat) (t : kernel) (value : Value)
    (virtual_index : Z) : option (kernel * Z) :=
  match fuel with
  | O => None
  | S fuel =>
      if size_ t =? max_size_ t then
        t ← rehash_with (fun t v i => fst <$> insert_impl fuel t v i)
              t (wrap64 (bucket_count_ t * 2));
        insert_impl fuel t value (index_from_value t value)
      else
        free_index ← free_loop (probe_fuel t) t virtual_index;
        Some (place t free_index value, free_index)
  end.

Definition rehash (fuel : nat) (t : kernel) (count : Z) : option kernel :=
  rehash_with (fun t v i => fst <$> insert_impl fuel t v i) t count.

(** [reserve] (linear.hpp:370). *)
Definition reserve (fuel : nat) (t : kernel) (count : Z) : option kernel :=
  n ← reserve_count count;
  rehash fuel t n.

(** The public [insert]: container, iterator index, inserted flag. *)
Definition insert (fuel : nat) (t : kernel) (value : Value)
    : option (kernel * Z * bool) :=
  let index := index_from_value t value in
  res ← find_impl t (extract_ value) index;
  if res =? buckets_end t then
    '(t, pos) ← insert_impl fuel t value index;
    Some (t, pos, true)
  else Some (t, res, false).

(** *** erase (linear.hpp:207) *)

(** State of the first loop on exit: the container, [erased_index]
    ([None] while it is uninitialised), [erased_count] and [index]. *)
Fixpoint erase_probe (fuel : nat) (t : kernel) (key : Key) (index : Z)
    : option (kernel * option Z * Z * Z) :=
  match fuel with
  | O => None
  | S fuel =>
      bucket ← bucket_at t index;
      if has_value bucket then
        value ← memory bucket;
        if equal_ key (extract_ value) then
          let t := alter_bucket destroy_at t index in
          let t := alter_bucket (set_has_value false) t index in
          let t := set_size t (wrap64 (size_ t - 1)) in
          Some (t, Some index, 1, index_add t index 1)
        else erase_probe fuel t key (index_add t index 1)
      else Some (t, None, 0, index)
  end.

(** The test of the repair loop (linear.hpp:233-236). *)
Definition shift_cond (erased_index index hash : Z) : bool :=
  ((erased_index <? index) &&
     ((hash <=? erased_index) || (index <? hash)))
  || ((index <? erased_index) &&
     ((hash <=? erased_index) && (index <? hash))).

(** Move the entry of [index] into the free bucket [erased_index]. *)
Definition shift_entry (t : kernel) (erased_index index : Z)
    (value : Value) : kernel :=
  let t := alter_bucket (construct_at value) t erased_index in
  let t := alter_bucket destroy_at t index in
  let t := alter_bucket (set_has_value false) t index in
  alter_bucket (set_has_value true) t erased_index.

Fixpoint erase_shift (fuel : nat) (t : kernel) (erased_index : option Z)
    (index : Z) : option kernel :=
  match fuel with
  | O => None
  | S fuel =>
      bucket ← bucket_at t index;
      if has_value bucket then
        value ← memory bucket;
        let hash := index_from_key t (extract_ value) in
        g ← erased_index;
        if shift_cond g index hash then
          _ ← bucket_at t g;
          erase_shift fuel (shift_entry t g index value) (Some index)
            (index_add t index 1)
        else erase_shift fuel t (Some g) (index_add t index 1)
      else Some t
  end.

Definition erase (fuel : nat) (t : kernel) (key : Key)
    : option (kernel * Z) :=
  '(t, erased_index, erased_count, index) ←
    erase_probe (probe_fuel t) t key (index_from_key t key);
  t ← erase_shift (probe_fuel t) t erased_index index;
  t ← (if (size_ t <? min_size_ t) && (16 <? size_ t)
       then rehash fuel t (bucket_count_ t / 2) else Some t);
  Some (t, erased_count).

(** *** count (linear.hpp:261)

    [count] has no embedding: its body assigns to the [const] local
    [virtual_index], tests a [bucket_type] where a [bool] is needed and
    returns the identifier [count] instead of the local [result], so the
    member function cannot be instantiated. *)

(** *** clear (linear.hpp:194)

    The loop runs the destructor on the storage of every index below
    [bucket_count_]; the trace records each call with the occupancy flag
    of the bucket it ran on. The loop counter is an [int]. *)
Inductive event : Type :=
  | Destroy (index : Z) (flag : bool).

Fixpoint clear_loop (n : nat) (t : kernel) (index : Z)
    : option (list event) :=
  match n with
  | O => Some []
  | S n =>
      bucket ← bucket_at t index;
      trace ← clear_loop n t (index + 1);
      Some (Destroy index (has_value bucket) :: trace)
  end.

Definition clear (t : kernel) : option (kernel * list event) :=
  if INT_MAX <? bucket_count_ t then None
  else
    trace ← clear_loop (Z.to_nat (bucket_count_ t)) t 0;
    Some ({| buckets_ := [];
             bucket_count_ := bucket_count_ t;
             size_ := 0;
             min_size_ := min_size_ t;
             max_size_ := max_size_ t |}, trace).

(** *** Capacity and iteration (linear.hpp:158-190, 442-481, 557-570) *)

(** [empty] (linear.hpp:184). *)
Definition empty (t : kernel) : bool := size_ t =? 0.

(** The scan of [buckets_begin] (linear.hpp:562-564): the vector
    iterator steps until it stands on a flagged bucket; it is
    dereferenced without a test against the end of the vector. *)
Fixpoint first_value (buckets : list bucket_type) (index : Z)
    : option Z :=
  match buckets with
  | [] => None
  | bucket :: rest =>
      if has_value bucket then Some index
      else first_value rest (index + 1)
  end.

(** [buckets_begin] (linear.hpp:557): the index held by [begin()]. *)
Definition buckets_begin (t : kernel) : option Z :=
  if empty t then Some (buckets_end t)
  else first_value (buckets_ t) 0.

(** [iterator_template::operator++] (linear.hpp:458): a do-while, so
    the index moves before the first test. *)
Fixpoint advance (fuel : nat) (t : kernel) (index_ : Z) : option Z :=
  match fuel with
  | O => None
  | S fuel =>
      let index_ := wrap64 (index_ + 1) in
      if index_ =? buckets_end t then Some index_
      else
        bucket ← bucket_at t index_;
        if has_value bucket then Some index_
        else advance fuel t index_
  end.

Definition iterator_next (t : kernel) (index_ : Z) : option Z :=
  advance (probe_fuel t) t index_.

(** [iterator_template::operator*] (linear.hpp:442): the storage of the
    bucket is read whatever its flag. *)
Definition iterator_deref (t : kernel) (index_ : Z) : option Value :=
  bucket ← bucket_at t index_;
  memory bucket.

(** The loop [for (it = begin(); it != end(); ++it)] over one
    container, collecting [*it]; both iterators point at the same
    vector, so [operator!=] (linear.hpp:479) compares the indices. *)
Fixpoint traverse_from (fuel : nat) (t : kernel) (index_ : Z)
    : option (list Value) :=
  match fuel with
  | O => None
  | S fuel =>
      if index_ =? buckets_end t then Some []
      else
        value ← iterator_deref t index_;
        next ← iterator_next t index_;
        rest ← traverse_from fuel t next;
        Some (value :: rest)
  end.

Definition traverse (t : kernel) : option (list Value) :=
  first ← buckets_begin t;
  traverse_from (probe_fuel t) t first.

(** *** Allocation of the bucket vector (linear.hpp:84, 348)

    [buckets_.resize(bucket_count_)] in the constructor and
    [bucket_vector old_buckets(bucket_count_)] in [rehash] throw when
    the vector cannot be built: [length_error] above [max_size()],
    [bad_alloc] when the memory is not there.  [kernel_new] and
    [rehash] above take the vector as built.  The definitions below ask
    the environment instead: [allocates c] tells whether a vector of [c]
    buckets can be built. *)

(** The constructor: the bucket count is computed by the member
    initialisers, the vector is sized in the body; an exception leaves
    no container. *)
Definition kernel_new_alloc (allocates : Z -> bool) (bucket_count : Z)
    : outcome kernel unit :=
  if allocates (upper_power_of_two bucket_count)
  then Returned (kernel_new bucket_count)
  else Thrown tt.

(** The assignment [bucket_count_ = upper_power_of_two(count)], which
    [rehash] makes before it builds the new vector. *)
Definition set_bucket_count (t : kernel) (c : Z) : kernel :=
  {| buckets_ := buckets_ t;
     bucket_count_ := c;
     size_ := size_ t;
     min_size_ := min_size_ t;
     max_size_ := max_size_ t |}.

(** The sweep of [rehash] when the private [insert] can throw: the
    exception leaves the loop and the function. *)
Fixpoint rehash_sweep_alloc
    (ins : kernel -> Value -> Z -> option (outcome kernel kernel))
    (count : Z) (old_buckets : list bucket_type) (t : kernel)
    : option (outcome kernel kernel) :=
  match old_buckets with
  | [] => Some (Returned t)
  | bucket :: rest =>
      if has_value bucket then
        value ← memory bucket;
        r ← ins t value (index_from_value t value);
        match r with
        | Returned t =>
            (* Detect recursive rehash and break. *)
            if bucket_count_ t =? count
            then rehash_sweep_alloc ins count rest t
            else Some (Returned t)
        | Thrown s => Some (Thrown s)
        end
      else rehash_sweep_alloc ins count rest t
  end.

(** [rehash]: when the new vector cannot be built the exception finds
    the bucket count already overwritten and the old vector in place. *)
Definition rehash_with_alloc (allocates : Z -> bool)
    (ins : kernel -> Value -> Z -> option (outcome kernel kernel))
    (t : kernel) (count : Z) : option (outcome kernel kernel) :=
  let c := upper_power_of_two count in
  if allocates c then
    rehash_sweep_alloc ins count (buckets_ t)
      {| buckets_ := new_buckets c;
         bucket_count_ := c;
         size_ := 0;
         min_size_ := min_size_of c;
         max_size_ := max_size_of c |}
  else Some (Thrown (set_bucket_count t c)).

(** [rehash] discards the iterator the private [insert] returns. *)
Definition drop_position (r : outcome (kernel * Z) kernel)
    : outcome kernel kernel :=
  match r with
  | Returned (t, _) => Returned t
  | Thrown s => Thrown s
  end.

(** The private [insert] when the [rehash] it calls can throw. *)
Fixpoint insert_impl_alloc (allocates : Z -> bool) (fuel : nat)
    (t : kernel) (value : Value) (virtual_index : Z)
    : option (outcome (kernel * Z) kernel) :=
  match fuel with
  | O => None
  | S fuel =>
      if size_ t =? max_size_ t then
        r ← rehash_with_alloc allocates
              (fun t v i =>
                 drop_position <$> insert_impl_alloc allocates fuel t v i)
              t (wrap64 (bucket_count_ t * 2));
        match r with
        | Returned t =>
            insert_impl_alloc allocates fuel t value
              (index_from_value t value)
        | Thrown s => Some (Thrown s)
        end
      else
        free_index ← free_loop (probe_fuel t) t virtual_index;
        Some (Returned (place t free_index value, free_index))
  end.

Definition rehash_alloc (allocates : Z -> bool) (fuel : nat) (t : kernel)
    (count : Z) : option (outcome kernel kernel) :=
  rehash_with_alloc allocates
    (fun t v i => drop_position <$> insert_impl_alloc allocates fuel t v i)
    t count.

Definition reserve_alloc (allocates : Z -> bool) (fuel : nat) (t : kernel)
    (count : Z) : option (outcome kernel kernel) :=
  n ← reserve_count count;
  rehash_alloc allocates fuel t n.

End kernel.

Arguments bucket_type : clear implicits.
Arguments kernel : clear implicits.
Arguments event : clear implicits.

(** * Definitions for the proofs *)

(** ** The smear of [upper_power_of_two] and circular arithmetic *)

(** The six shift-or lines of [upper_power_of_two] taken alone. *)
Definition smear (y : Z) : Z :=
  let x := y in
  let x := Z.lor x (Z.shiftr x 1) in
  let x := Z.lor x (Z.shiftr x 2) in
  let x := Z.lor x (Z.shiftr x 4) in
  let x := Z.lor x (Z.shiftr x 8) in
  let x := Z.lor x (Z.shiftr x 16) in
  Z.lor x (Z.shiftr x 32).

(** On the circle of [n] slots: the slot [d] steps after [a], and the
    number of steps from [a] forward to [b]. *)
Definition cadd (n a d : Z) : Z := (a + d) mod n.
Definition cdist (n a b : Z) : Z := (b - a) mod n.

(** ** The table invariant *)

Section invariants.
Context {Key Value : Type}.
Variable hash_ : Key -> Z.
Variable equal_ : Key -> Key -> bool.
Variable extract_ : Value -> Key.

Abbreviation bucket := (bucket_type Value).
Abbreviation table := (kernel Value).
Abbreviation ideal := (index_from_value hash_ extract_).

(** The equality functor is an equivalence and the hasher respects it. *)
Record key_equivalence : Prop := {
  equal_refl : forall a, equal_ a a = true;
  equal_sym : forall a b, equal_ a b = true -> equal_ b a = true;
  equal_trans :
    forall a b c, equal_ a b = true -> equal_ b c = true ->
      equal_ a c = true;
  hash_equal : forall a b, equal_ a b = true -> hash_ a = hash_ b
}.

(** The entry of a bucket, when its flag says there is one. *)
Definition live (b : bucket) : option Value :=
  if has_value b then memory b else None.

(** The entry in slot [i], if the slot exists and is occupied. *)
Definition slot (t : table) (i : Z) : option Value :=
  bucket_at t i ≫= live.

(** The number of occupied slots. *)
Fixpoint live_count (l : list bucket) : nat :=
  match l with
  | [] => O
  | b :: l => ((if has_value b then 1 else 0) + live_count l)%nat
  end.

(** Some live entry has a key view equivalent to [key]. *)
Definition present (t : table) (key : Key) : Prop :=
  exists i v, slot t i = Some v /\ equal_ key (extract_ v) = true.

(** The storage of a flagged bucket holds an entry. *)
Definition flag_ok (b : bucket) : Prop :=
  has_value b = true -> is_Some (memory b).

(** The bucket count is a power of two that a [size_t] holds, the vector
    has that many buckets, and the flags agree with the storage. *)
Record shape (t : table) : Prop := {
  shape_cap : exists k, 0 <= k <= 63 /\ bucket_count_ t = 2 ^ k;
  shape_len : Z.of_nat (length (buckets_ t)) = bucket_count_ t;
  shape_flags : Forall flag_ok (buckets_ t)
}.

(** The probe-run invariant: the circular scan from the ideal index of
    a live entry to its slot meets occupied slots only. *)
Definition probe_run (t : table) : Prop :=
  forall i v, slot t i = Some v ->
    forall d, 0 <= d <= cdist (bucket_count_ t) (ideal t v) i ->
      slot t (cadd (bucket_count_ t) (ideal t v) d) <> None.

(** No two live entries have equivalent key views. *)
Definition unique_keys (t : table) : Prop :=
  forall i j v w, slot t i = Some v -> slot t j = Some w ->
    equal_ (extract_ v) (extract_ w) = true -> i = j.

(** The invariant of the container between two operations. *)
Record wf (t : table) : Prop := {
  wf_shape : shape t;
  wf_size : size_ t = Z.of_nat (live_count (buckets_ t));
  wf_min : min_size_ t = min_size_of (bucket_count_ t);
  wf_max : max_size_ t = max_size_of (bucket_count_ t);
  wf_band : size_ t <= max_size_ t;
  wf_probe : probe_run t;
  wf_unique : unique_keys t
}.

(** The first loop of [erase] on a match: destroy in place, clear the
    flag, count down. *)
Definition removed (t : table) (g : Z) : table :=
  let t := alter_bucket destroy_at t g in
  let t := alter_bucket (set_has_value false) t g in
  set_size t (wrap64 (size_ t - 1)).

(** Some slot is empty. *)
Definition has_free (t : table) : Prop :=
  exists e, 0 <= e < bucket_count_ t /\ slot t e = None.

(** The three probe loops of the source share one walk: forward from
    [index], one slot at a time, until an empty slot or an entry that
    satisfies [p]. *)
Fixpoint scan (fuel : nat) (t : table) (p : Value -> bool) (index : Z)
    : option (Z * option Value) :=
  match fuel with
  | O => None
  | S fuel =>
      match slot t index with
      | Some v =>
          if p v then Some (index, Some v)
          else scan fuel t p (index_add t index 1)
      | None => Some (index, None)
      end
  end.

(** The slots at distance less than [d] from [h] are occupied by entries
    that fail [p]. *)
Definition probe_path (t : table) (p : Value -> bool) (h d : Z) : Prop :=
  forall d', 0 <= d' < d ->
    exists v, slot t (cadd (bucket_count_ t) h d') = Some v /\ p v = false.

(** Where a walk from [h] stops: at the first free slot, or at the first
    entry that satisfies [p]. *)
Inductive scan_result (t : table) (p : Value -> bool) (h : Z)
    : option (Z * option Value) -> Prop :=
  | scan_free d :
      0 <= d < bucket_count_ t ->
      probe_path t p h d ->
      slot t (cadd (bucket_count_ t) h d) = None ->
      scan_result t p h (Some (cadd (bucket_count_ t) h d, None))
  | scan_hit d v :
      0 <= d < bucket_count_ t ->
      probe_path t p h d ->
      slot t (cadd (bucket_count_ t) h d) = Some v ->
      p v = true ->
      scan_result t p h (Some (cadd (bucket_count_ t) h d, Some v)).

(** The test [equal_(key, extract_(value))] of the probe loops. *)
Definition matches (key : Key) (v : Value) : bool :=
  equal_ key (extract_ v).

(** The state the constructor ends in and [rehash] sweeps into: [c]
    value-initialised buckets and the limits of [c]. *)
Definition fresh (c : Z) : table :=
  {| buckets_ := new_buckets c;
     bucket_count_ := c;
     size_ := 0;
     min_size_ := min_size_of c;
     max_size_ := max_size_of c |}.

(** [holds t w]: the entry [w] lives in some slot of [t]. *)
Definition holds (t : table) (w : Value) : Prop :=
  exists i, slot t i = Some w.

(** The live entries of a bucket list have pairwise different keys. *)
Fixpoint distinct_buckets (l : list bucket) : Prop :=
  match l with
  | [] => True
  | b :: l =>
      (forall v b' w, live b = Some v -> b' ∈ l -> live b' = Some w ->
         equal_ (extract_ v) (extract_ w) = false) /\
      distinct_buckets l
  end.

(** The private [insert] as [rehash] calls it, the iterator dropped. *)
Definition ins (fuel : nat) : table -> Value -> Z -> option table :=
  fun t v i => fst <$> insert_impl hash_ extract_ fuel t v i.

(** The same for the [insert] that can throw. *)
Definition ins_alloc (allocates : Z -> bool) (fuel : nat)
    : table -> Value -> Z -> option (outcome table table) :=
  fun t v i =>
    drop_position <$> insert_impl_alloc hash_ extract_ allocates fuel t v i.

(** The state the first loop leaves behind: the slot [g] has just been
    emptied, the run after it is occupied up to distance [e], where the
    first free slot is, and every probe run is intact except where it
    crosses [g]. *)
Record gap_state (T0 : table) (g e : Z) : Prop := {
  gs_shape : shape T0;
  gs_g : 0 <= g < bucket_count_ T0;
  gs_e : 0 < e < bucket_count_ T0;
  gs_gap : slot T0 g = None;
  gs_run :
    forall j, 0 <= j < bucket_count_ T0 ->
      0 < cdist (bucket_count_ T0) g j < e -> slot T0 j <> None;
  gs_end :
    forall j, 0 <= j < bucket_count_ T0 ->
      cdist (bucket_count_ T0) g j = e -> slot T0 j = None;
  gs_paths :
    forall j w x, slot T0 j = Some w -> 0 <= x < bucket_count_ T0 ->
      cdist (bucket_count_ T0) (ideal T0 w) x
        <= cdist (bucket_count_ T0) (ideal T0 w) j ->
      x <> g -> slot T0 x <> None;
  gs_unique : unique_keys T0
}.

(** What the repair pass achieves. *)
Record repaired (T0 t : table) : Prop := {
  rp_shape : shape t;
  rp_count : bucket_count_ t = bucket_count_ T0;
  rp_size : size_ t = size_ T0;
  rp_min : min_size_ t = min_size_ T0;
  rp_max : max_size_ t = max_size_ T0;
  rp_live : live_count (buckets_ t) = live_count (buckets_ T0);
  rp_probe : probe_run t;
  rp_unique : unique_keys t;
  rp_holds : forall w, holds t w <-> holds T0 w
}.

(** The shrink test at the end of [erase]. *)
Definition shrinks (t : table) : bool :=
  (size_ t <? min_size_ t) && (16 <? size_ t).

(** A run of public [insert] calls. *)
Fixpoint insert_all (fuel : nat) (t : table) (values : list Value)
    : option table :=
  match values with
  | [] => Some t
  | v :: values =>
      match insert hash_ equal_ extract_ fuel t v with
      | Some (t', _, _) => insert_all fuel t' values
      | None => None
      end
  end.

(** The entries of a bucket vector, in slot order. *)
Definition entries (l : list bucket) : list Value := omap live l.

(** The ideal index [h] lies in the circular arc from just after [g] up
    to and including [i]. *)
Definition in_arc (n g h i : Z) : Prop :=
  0 < cdist n g h <= cdist n g i.

Section repair_state.
Variable T0 : table.
Variables g e : Z.

Abbreviation n0 := (bucket_count_ T0).
Abbreviation P := (cdist (bucket_count_ T0) g).
Abbreviation idl := (index_from_value hash_ extract_ T0).

(** The loop invariant, with the free bucket at [gap] and the loop at
    [i]: the slots from [i] on are untouched, the slots before [i]
    other than [gap] are occupied, and each of their entries sits on a
    run that does not cross [gap]. *)
Record repair_inv (t : table) (gap i : Z) : Prop := {
  ri_shape : shape t;
  ri_count : bucket_count_ t = n0;
  ri_size : size_ t = size_ T0;
  ri_min : min_size_ t = min_size_ T0;
  ri_max : max_size_ t = max_size_ T0;
  ri_live : live_count (buckets_ t) = live_count (buckets_ T0);
  ri_gap_range : 0 <= gap < n0;
  ri_index_range : 0 <= i < n0;
  ri_order : P gap < P i <= e;
  ri_gap : slot t gap = None;
  ri_rest : forall j, 0 <= j < n0 -> P i <= P j -> slot t j = slot T0 j;
  ri_done :
    forall j, 0 <= j < n0 -> P j < P i -> j <> gap ->
      exists w, slot t j = Some w /\
        ((P (idl w) <= P j /\ (P gap < P j -> P gap < P (idl w))) \/
         (e < P (idl w) /\ P j < P gap /\
          forall x, 0 <= x < n0 -> P (idl w) <= P x ->
            slot T0 x <> None));
  ri_unique : unique_keys t;
  ri_holds : forall w, holds t w <-> holds T0 w
}.

End repair_state.

End invariants.

(** ** The kernel as a set of integers with the identity hash *)

(** [std::hash] on integers and [extract::identity]. *)
Definition int_hash (k : Z) : Z := k.
Definition int_key (v : Z) : Z := v.

(** The container constructed with [bucket_count] buckets after the
    inserts of [values]. *)
Definition table_of (bucket_count : Z) (values : list Z) : kernel Z :=
  default (kernel_new bucket_count)
    (insert_all int_hash Z.eqb int_key 2 (kernel_new bucket_count) values).

(** Four keys in 16 buckets; 1, 17 and 33 have the ideal index 1. *)
Definition sample : kernel Z :=
  Eval vm_compute in table_of 16 [1; 17; 2; 33].

(** Eleven keys in 16 buckets: the size is at [max_size]. *)
Definition loaded : kernel Z :=
  Eval vm_compute in table_of 16 [1; 2; 3; 4; 5; 6; 7; 8; 9; 10; 11].

(** Seventeen keys in 64 buckets: the size is below [min_size] and above
    16. *)
Definition sparse : kernel Z :=
  Eval vm_compute in
    table_of 64 [0; 1; 2; 3; 4; 5; 6; 7; 8; 9; 10; 11; 12; 13; 14; 15; 16].

(** Two keys in 16 buckets, and four keys in 8 buckets. *)
Definition pair_table : kernel Z := Eval vm_compute in table_of 16 [1; 2].
Definition quad_table : kernel Z :=
  Eval vm_compute in table_of 8 [0; 1; 2; 3].

(** Eighteen keys in 64 buckets: one erase brings the size below
    [min_size] while it stays above 16. *)
Definition thin : kernel Z :=
  Eval vm_compute in
    table_of 64
      [0; 1; 2; 3; 4; 5; 6; 7; 8; 9; 10; 11; 12; 13; 14; 15; 16; 17].

(** An environment that builds vectors of up to [2^20] buckets. *)
Definition small_memory (c : Z) : bool := c <=? 2 ^ 20.

(** ** The kernel as a map from integers to integers

    [unordered_map] (linear.hpp:677) instantiates the kernel with pairs:
    the key view of an entry is its first component and the mapped view
    its second. *)
Definition extract_first (v : Z * Z) : Z := fst v.
Definition extract_second (v : Z * Z) : Z := snd v.

(** Three pairs in 16 buckets; the keys 1 and 17 have the ideal
    index 1. *)
Definition map_sample : kernel (Z * Z) :=
  Eval vm_compute in
    default (kernel_new 16)
      (insert_all int_hash Z.eqb extract_first 2 (kernel_new 16)
         [(1, 10); (17, 20); (2, 30)]).

(** * Arithmetic of the index helpers *)

Section arithmetic.

Lemma wrap64_small x : 0 <= x < 2 ^ 64 -> wrap64 x = x.
Proof. intros H. unfold wrap64. now apply Z.mod_small. Qed.

Lemma wrap64_range x : 0 <= wrap64 x < 2 ^ 64.
Proof. unfold wrap64. apply Z.mod_pos_bound. lia. Qed.

(** One doubling step of the smear: if [a] has bit [i] exactly when [y]
    has a bit in the window [i, i+m), then [a | a >> m] has bit [i]
    exactly when [y] has a bit in [i, i+2m). *)
Lemma smear_step y a m :
  0 <= m ->
  (forall i, 0 <= i ->
     Z.testbit a i = true <->
     exists j, i <= j < i + m /\ Z.testbit y j = true) ->
  forall i, 0 <= i ->
    Z.testbit (Z.lor a (Z.shiftr a m)) i = true <->
    exists j, i <= j < i + 2 * m /\ Z.testbit y j = true.
Proof.
  intros Hm Ha i Hi.
  rewrite Z.lor_spec, Z.shiftr_spec, orb_true_iff by lia.
  rewrite !Ha by lia. split.
  - intros [(j & Hj & Hb) | (j & Hj & Hb)]; exists j; split; auto; lia.
  - intros (j & Hj & Hb). destruct (Z_lt_dec j (i + m)).
    + left. exists j. split; auto; lia.
    + right. exists j. split; auto; lia.
Qed.

Lemma smear_testbit y i :
  0 <= i ->
  Z.testbit (smear y) i = true <->
  exists j, i <= j < i + 64 /\ Z.testbit y j = true.
Proof.
  revert i. unfold smear. cbv zeta.
  change 64 with (2 * 32). apply smear_step; [lia|].
  change 32 with (2 * 16). apply smear_step; [lia|].
  change 16 with (2 * 8). apply smear_step; [lia|].
  change 8 with (2 * 4). apply smear_step; [lia|].
  change 4 with (2 * 2). apply smear_step; [lia|].
  change 2 with (2 * 1). apply smear_step; [lia|].
  intros i Hi. split.
  - intros Hb. exists i. split; auto; lia.
  - intros (j & Hj & Hb). now replace i with j by lia.
Qed.

Lemma smear_ones y :
  0 < y < 2 ^ 64 -> smear y = Z.ones (Z.succ (Z.log2 y)).
Proof.
  intros Hy.
  assert (Hlog : 0 <= Z.log2 y < 64).
  { split; [apply Z.log2_nonneg|]. apply Z.log2_lt_pow2; lia. }
  apply Z.bits_inj'. intros i Hi.
  destruct (Z_le_dec i (Z.log2 y)) as [Hle | Hgt].
  - rewrite Z.ones_spec_low by lia.
    apply smear_testbit; [lia|]. exists (Z.log2 y). split; [lia|].
    apply Z.bit_log2. lia.
  - rewrite Z.ones_spec_high by lia.
    destruct (Z.testbit (smear y) i) eqn:Hb; [|reflexivity].
    apply smear_testbit in Hb as (j & Hj & Hb); [|lia].
    rewrite Z.bits_above_log2 in Hb by lia. discriminate.
Qed.

Lemma upper_power_of_two_smear x :
  upper_power_of_two x = wrap64 (smear (wrap64 (x - 1)) + 1).
Proof. reflexivity. Qed.

(** On [1 .. 2^63] the bit trick computes the least power of two that is
    not below its argument. *)
Lemma upper_power_of_two_log2_up x :
  1 <= x <= 2 ^ 63 -> upper_power_of_two x = 2 ^ Z.log2_up x.
Proof.
  intros Hx. rewrite upper_power_of_two_smear.
  destruct (Z.eq_dec x 1) as [-> | Hne]; [reflexivity|].
  rewrite (wrap64_small (x - 1)) by lia.
  rewrite smear_ones by lia.
  rewrite Z.ones_equiv, Z.log2_up_eqn by lia.
  replace (x - 1) with (Z.pred x) by lia.
  replace (Z.pred (2 ^ Z.succ (Z.log2 (Z.pred x))) + 1)
    with (2 ^ Z.succ (Z.log2 (Z.pred x))) by lia.
  apply wrap64_small.
  assert (Z.log2 (Z.pred x) < 63) by (apply Z.log2_lt_pow2; lia).
  pose proof (Z.log2_nonneg (Z.pred x)).
  split; [apply Z.pow_nonneg; lia|].
  apply Z.pow_lt_mono_r; lia.
Qed.

Lemma upper_power_of_two_least x :
  1 <= x <= 2 ^ 63 ->
  x <= upper_power_of_two x /\
  forall k, 0 <= k -> x <= 2 ^ k -> upper_power_of_two x <= 2 ^ k.
Proof.
  intros Hx. rewrite upper_power_of_two_log2_up by assumption.
  destruct (Z.eq_dec x 1) as [-> | Hne].
  - change (Z.log2_up 1) with 0. split; [reflexivity|].
    intros k Hk _. change (2 ^ 0) with 1.
    pose proof (Z.pow_pos_nonneg 2 k). lia.
  - split; [apply Z.log2_up_spec; lia|].
    intros k Hk Hle. apply Z.pow_le_mono_r; [lia|].
    apply Z.log2_up_le_pow2; lia.
Qed.

Lemma upper_power_of_two_pow2 k :
  0 <= k <= 63 -> upper_power_of_two (2 ^ k) = 2 ^ k.
Proof.
  intros Hk. rewrite upper_power_of_two_log2_up.
  - now rewrite Z.log2_up_pow2.
  - split.
    + pose proof (Z.pow_pos_nonneg 2 k). lia.
    + apply Z.pow_le_mono_r; lia.
Qed.

(** The masks of [index_from_key] and [index_add] are remainders when
    the bucket count is a power of two. *)
Lemma mask_mod a k :
  0 <= k <= 63 ->
  Z.land (wrap64 a) (wrap64 (2 ^ k - 1)) = a mod 2 ^ k.
Proof.
  intros Hk.
  assert (H0 : 0 < 2 ^ k) by (apply Z.pow_pos_nonneg; lia).
  assert (H1 : 2 ^ k <= 2 ^ 63) by (apply Z.pow_le_mono_r; lia).
  rewrite (wrap64_small (2 ^ k - 1)) by lia.
  replace (2 ^ k - 1) with (Z.ones k) by (rewrite Z.ones_equiv; lia).
  rewrite Z.land_ones by lia. unfold wrap64.
  apply Z.mod_mod_divide.
  exists (2 ^ (64 - k)). rewrite <- Z.pow_add_r by lia. f_equal. lia.
Qed.

End arithmetic.

(** X1: [upper_power_of_two] on every [size_t] argument.  From 1 up to
    [2^63] the result is the least power of two that is not below the
    argument, so it is less than twice the argument; for 0 and above
    [2^63] the result is 0.  The function is idempotent. *)
Theorem upper_power_of_two_rounds_up x :
  0 <= x < 2 ^ 64 ->
  (1 <= x <= 2 ^ 63 ->
     x <= upper_power_of_two x < 2 * x /\
     (exists k, 0 <= k <= 63 /\ upper_power_of_two x = 2 ^ k) /\
     (forall k, 0 <= k -> x <= 2 ^ k -> upper_power_of_two x <= 2 ^ k)) /\
  (x = 0 \/ 2 ^ 63 < x -> upper_power_of_two x = 0) /\
  upper_power_of_two (upper_power_of_two x) = upper_power_of_two x.
Proof.
  intros Hx.
  assert (Hzero : x = 0 \/ 2 ^ 63 < x -> upper_power_of_two x = 0).
  { intros [->|Hbig]; [reflexivity|].
    rewrite upper_power_of_two_smear, (wrap64_small (x - 1)) by lia.
    rewrite smear_ones by lia.
    assert (Hlog : Z.log2 (x - 1) = 63).
    { apply Z.log2_unique; [lia|]. change (Z.succ 63) with 64. lia. }
    rewrite Hlog. reflexivity. }
  assert (Hlog : 1 <= x <= 2 ^ 63 -> 0 <= Z.log2_up x <= 63).
  { intros Hr. split; [apply Z.log2_up_nonneg|].
    apply Z.log2_up_le_pow2; lia. }
  split; [|split; [exact Hzero|]].
  - intros Hr. destruct (upper_power_of_two_least x Hr) as [Hge Hleast].
    split; [split; [exact Hge|]|].
    + rewrite (upper_power_of_two_log2_up x Hr).
      destruct (Z.eq_dec x 1) as [->|Hne]; [reflexivity|].
      destruct (Z.log2_up_spec x) as [Hlow _]; [lia|].
      assert (0 < Z.log2_up x) by (apply Z.log2_up_pos; lia).
      replace (Z.log2_up x) with (Z.succ (Z.pred (Z.log2_up x))) at 1 by lia.
      rewrite Z.pow_succ_r by lia. lia.
    + split; [|exact Hleast].
      exists (Z.log2_up x). split; [now apply Hlog|].
      now apply upper_power_of_two_log2_up.
  - destruct (Z.eq_dec x 0) as [->|Hne]; [reflexivity|].
    destruct (Z_le_gt_dec x (2 ^ 63)) as [Hle|Hgt].
    + rewrite (upper_power_of_two_log2_up x) by lia.
      apply upper_power_of_two_pow2, Hlog. lia.
    + rewrite Hzero by (right; lia). reflexivity.
Qed.

(** ** Circular arithmetic on [0, n) *)

Section circular.
Variable n : Z.
Hypothesis n_pos : 0 < n.

Lemma cadd_spec a d :
  0 <= a < n -> 0 <= d < n ->
  (a + d < n /\ cadd n a d = a + d) \/
  (n <= a + d /\ cadd n a d = a + d - n).
Proof.
  intros Ha Hd. unfold cadd. destruct (Z_lt_dec (a + d) n).
  - left. split; [lia|]. apply Z.mod_small. lia.
  - right. split; [lia|]. symmetry.
    apply (Z.mod_unique_pos _ _ 1); lia.
Qed.

Lemma cdist_spec a b :
  0 <= a < n -> 0 <= b < n ->
  (a <= b /\ cdist n a b = b - a) \/
  (b < a /\ cdist n a b = b - a + n).
Proof.
  intros Ha Hb. unfold cdist. destruct (Z_le_dec a b).
  - left. split; [lia|]. apply Z.mod_small. lia.
  - right. split; [lia|]. symmetry.
    apply (Z.mod_unique_pos _ _ (-1)); lia.
Qed.

Lemma cadd_range a d : 0 <= cadd n a d < n.
Proof. unfold cadd. apply Z.mod_pos_bound. lia. Qed.

Lemma cdist_range a b : 0 <= cdist n a b < n.
Proof. unfold cdist. apply Z.mod_pos_bound. lia. Qed.

Lemma cadd_0 a : 0 <= a < n -> cadd n a 0 = a.
Proof. intros Ha. unfold cadd. rewrite Z.add_0_r. now apply Z.mod_small. Qed.

Lemma cadd_full a : 0 <= a < n -> cadd n a n = a.
Proof.
  intros Ha. unfold cadd. symmetry. apply (Z.mod_unique_pos _ _ 1); lia.
Qed.

Lemma cadd_cadd a d e : cadd n (cadd n a d) e = cadd n a (d + e).
Proof.
  unfold cadd. rewrite Zplus_mod_idemp_l. f_equal. lia.
Qed.

Lemma cadd_cdist a b : 0 <= b < n -> cadd n a (cdist n a b) = b.
Proof.
  intros Hb. unfold cadd, cdist. rewrite Zplus_mod_idemp_r.
  replace (a + (b - a)) with b by lia. now apply Z.mod_small.
Qed.

Lemma cdist_cadd a d : 0 <= d < n -> cdist n a (cadd n a d) = d.
Proof.
  intros Hd. unfold cadd, cdist. rewrite Zminus_mod_idemp_l.
  replace (a + d - a) with d by lia. now apply Z.mod_small.
Qed.

Lemma cdist_self a : 0 <= a < n -> cdist n a a = 0.
Proof. intros Ha. unfold cdist. rewrite Z.sub_diag. now apply Z.mod_small. Qed.

Lemma cdist_inj g a b :
  0 <= g < n -> 0 <= a < n -> 0 <= b < n ->
  cdist n g a = cdist n g b -> a = b.
Proof.
  intros Hg Ha Hb.
  pose proof (cdist_spec g a Hg Ha).
  pose proof (cdist_spec g b Hg Hb). lia.
Qed.

Lemma cdist_next g i :
  0 <= g < n -> 0 <= i < n -> cdist n g i + 1 < n ->
  cdist n g (cadd n i 1) = cdist n g i + 1.
Proof.
  intros Hg Hi Hlt.
  pose proof (cdist_range g i).
  assert (H1 : 0 <= 1 < n) by lia.
  pose proof (cadd_spec i 1 Hi H1).
  pose proof (cadd_range i 1).
  pose proof (cdist_spec g i Hg Hi).
  pose proof (cdist_spec g (cadd n i 1) Hg ltac:(assumption)). lia.
Qed.

(** The slots the scan from [h] to [j] passes, by their distance from a
    reference slot [g]. *)
Lemma in_path_pos g h j x :
  0 <= g < n -> 0 <= h < n -> 0 <= j < n -> 0 <= x < n ->
  cdist n h x <= cdist n h j <->
  (cdist n g h <= cdist n g j /\
     cdist n g h <= cdist n g x <= cdist n g j) \/
  (cdist n g j < cdist n g h /\
     (cdist n g h <= cdist n g x \/ cdist n g x <= cdist n g j)).
Proof.
  intros Hg Hh Hj Hx.
  pose proof (cdist_spec g h Hg Hh).
  pose proof (cdist_spec g j Hg Hj).
  pose proof (cdist_spec g x Hg Hx).
  pose proof (cdist_spec h x Hh Hx).
  pose proof (cdist_spec h j Hh Hj). lia.
Qed.

(** The test of the repair loop says that [h] is not in the arc from
    just after [g] up to [i], distances being taken from any slot [o]
    that sees [g] before [i]. *)
Lemma shift_cond_pos o g i h :
  0 <= o < n -> 0 <= g < n -> 0 <= i < n -> 0 <= h < n ->
  cdist n o g < cdist n o i ->
  shift_cond g i h = true <->
  ~ (cdist n o g < cdist n o h <= cdist n o i).
Proof.
  intros Ho Hg Hi Hh Hlt. unfold shift_cond.
  rewrite orb_true_iff, !andb_true_iff, orb_true_iff.
  rewrite !Z.ltb_lt, !Z.leb_le.
  pose proof (cdist_spec o g Ho Hg).
  pose proof (cdist_spec o i Ho Hi).
  pose proof (cdist_spec o h Ho Hh). lia.
Qed.

End circular.

(** ** The load limits on powers of two *)

Section limits.

Lemma max_size_of_nonneg c : 0 <= c -> 0 <= max_size_of c.
Proof.
  intros Hc. unfold max_size_of, max_load_num, max_load_den.
  apply Z.div_pos; lia.
Qed.

Lemma max_size_of_lt c : 0 < c -> max_size_of c < c.
Proof.
  intros Hc. unfold max_size_of, max_load_num, max_load_den.
  apply Z.div_lt_upper_bound; lia.
Qed.

Lemma max_size_of_double c : 1 <= c -> max_size_of c < max_size_of (c * 2).
Proof.
  intros Hc. unfold max_size_of, max_load_num, max_load_den.
  apply Z.div_lt_upper_bound; [lia|].
  pose proof (Z.mul_div_le (11744051 * (c * 2)) (2 ^ 24)).
  pose proof (Z.mod_pos_bound (11744051 * (c * 2)) (2 ^ 24)).
  pose proof (Z.div_mod (11744051 * (c * 2)) (2 ^ 24)).
  lia.
Qed.

Lemma min_size_of_half c :
  0 <= c -> min_size_of (2 * c) <= max_size_of c.
Proof.
  intros Hc. unfold min_size_of, max_size_of.
  unfold min_load_num, min_load_den, max_load_num, max_load_den.
  replace (10066330 * (2 * c)) with ((10066330 * c) * 2) by lia.
  change (2 ^ 25) with (2 ^ 24 * 2).
  rewrite Z.div_mul_cancel_r by lia.
  apply Z.div_le_mono; lia.
Qed.

End limits.

(** * The table invariant *)

Section table.
Context {Key Value : Type}.
Variable hash_ : Key -> Z.
Variable equal_ : Key -> Key -> bool.
Variable extract_ : Value -> Key.

Abbreviation bucket := (bucket_type Value).
Abbreviation table := (kernel Value).
Abbreviation ideal := (index_from_value hash_ extract_).

(** Inside this section the definitions of the invariant are read at the
    functors of the section. *)
Abbreviation key_equivalence := (key_equivalence hash_ equal_).
Abbreviation equal_refl := (equal_refl hash_ equal_).
Abbreviation equal_sym := (equal_sym hash_ equal_).
Abbreviation equal_trans := (equal_trans hash_ equal_).
Abbreviation hash_equal := (hash_equal hash_ equal_).
Abbreviation fresh := (fresh (Value := Value)).
Abbreviation present := (present equal_ extract_).
Abbreviation unique_keys := (unique_keys equal_ extract_).
Abbreviation matches := (matches equal_ extract_).
Abbreviation distinct_buckets := (distinct_buckets equal_ extract_).
Abbreviation probe_run := (probe_run hash_ extract_).
Abbreviation ins := (ins hash_ extract_).
Abbreviation ins_alloc := (ins_alloc hash_ extract_).
Abbreviation wf := (wf hash_ equal_ extract_).
Abbreviation wf_shape := (wf_shape hash_ equal_ extract_).
Abbreviation wf_size := (wf_size hash_ equal_ extract_).
Abbreviation wf_min := (wf_min hash_ equal_ extract_).
Abbreviation wf_max := (wf_max hash_ equal_ extract_).
Abbreviation wf_band := (wf_band hash_ equal_ extract_).
Abbreviation wf_probe := (wf_probe hash_ equal_ extract_).
Abbreviation wf_unique := (wf_unique hash_ equal_ extract_).
Abbreviation gap_state := (gap_state hash_ equal_ extract_).
Abbreviation gs_shape := (gs_shape hash_ equal_ extract_).
Abbreviation gs_g := (gs_g hash_ equal_ extract_).
Abbreviation gs_e := (gs_e hash_ equal_ extract_).
Abbreviation gs_gap := (gs_gap hash_ equal_ extract_).
Abbreviation gs_run := (gs_run hash_ equal_ extract_).
Abbreviation gs_end := (gs_end hash_ equal_ extract_).
Abbreviation gs_paths := (gs_paths hash_ equal_ extract_).
Abbreviation gs_unique := (gs_unique hash_ equal_ extract_).
Abbreviation repaired := (repaired hash_ equal_ extract_).
Abbreviation rp_shape := (rp_shape hash_ equal_ extract_).
Abbreviation rp_count := (rp_count hash_ equal_ extract_).
Abbreviation rp_size := (rp_size hash_ equal_ extract_).
Abbreviation rp_min := (rp_min hash_ equal_ extract_).
Abbreviation rp_max := (rp_max hash_ equal_ extract_).
Abbreviation rp_live := (rp_live hash_ equal_ extract_).
Abbreviation rp_probe := (rp_probe hash_ equal_ extract_).
Abbreviation rp_unique := (rp_unique hash_ equal_ extract_).
Abbreviation rp_holds := (rp_holds hash_ equal_ extract_).
Abbreviation insert_all := (insert_all hash_ equal_ extract_).

(** ** Counting flags *)

Lemma live_count_le (l : list bucket) : (live_count l <= length l)%nat.
Proof. induction l as [|b l IH]; simpl; [lia|]. destruct (has_value b); lia. Qed.

Lemma live_count_free (l : list bucket) :
  (live_count l < length l)%nat ->
  exists i b, l !! i = Some b /\ has_value b = false.
Proof.
  induction l as [|b l IH]; simpl; [lia|].
  destruct (has_value b) eqn:Hb.
  - intros H. destruct IH as (i & b' & Hi & Hb'); [lia|].
    now exists (S i), b'.
  - intros _. now exists O, b.
Qed.

Lemma live_count_alter f (l : list bucket) i b :
  l !! i = Some b ->
  (live_count (alter f i l) + (if has_value b then 1 else 0) =
   live_count l + (if has_value (f b) then 1 else 0))%nat.
Proof.
  revert i. induction l as [|a l IH]; intros [|i] H; simpl in *;
    try discriminate.
  - injection H as ->. destruct (has_value b), (has_value (f b)); lia.
  - specialize (IH i H). unfold alter in IH.
    destruct (has_value a), (has_value b), (has_value (f b)); lia.
Qed.

Lemma live_count_replicate m :
  live_count (replicate m (empty_bucket (Value := Value))) = O.
Proof. induction m; simpl; auto. Qed.

Lemma live_count_none (l : list bucket) :
  live_count l = O -> forall i b, l !! i = Some b -> has_value b = false.
Proof.
  induction l as [|a l IH]; intros H [|i] b Hb; simpl in *;
    try discriminate.
  - injection Hb as ->. destruct (has_value b); [discriminate | reflexivity].
  - apply Nat.eq_add_0 in H as [_ H]. apply (IH H i b Hb).
Qed.

(** ** Reading and writing buckets *)

Lemma bucket_at_Some (t : table) i b :
  bucket_at t i = Some b -> 0 <= i < Z.of_nat (length (buckets_ t)).
Proof.
  unfold bucket_at. destruct (Z.ltb_spec i 0) as [Hneg | Hpos];
    [discriminate|].
  intros Hb%lookup_lt_Some. lia.
Qed.

Lemma bucket_at_lookup (t : table) i :
  0 <= i -> bucket_at t i = buckets_ t !! Z.to_nat i.
Proof.
  intros Hi. unfold bucket_at.
  destruct (Z.ltb_spec i 0); [lia | reflexivity].
Qed.

Lemma bucket_at_in_range (t : table) i :
  0 <= i < Z.of_nat (length (buckets_ t)) ->
  exists b, bucket_at t i = Some b.
Proof.
  intros H. rewrite bucket_at_lookup by lia.
  destruct (lookup_lt_is_Some_2 (buckets_ t) (Z.to_nat i)) as [b Hb]; [lia|].
  now exists b.
Qed.

Lemma bucket_at_alter f (t : table) i j :
  0 <= i ->
  bucket_at (alter_bucket f t i) j =
  if decide (j = i) then f <$> bucket_at t j else bucket_at t j.
Proof.
  intros Hi. unfold bucket_at, alter_bucket. simpl.
  destruct (Z.ltb_spec j 0).
  - destruct (decide (j = i)); [lia | reflexivity].
  - destruct (decide (j = i)) as [-> | Hne].
    + apply list_lookup_alter_eq.
    + apply list_lookup_alter_ne. lia.
Qed.

Lemma bucket_at_set_size (t : table) s i : bucket_at (set_size t s) i = bucket_at t i.
Proof. reflexivity. Qed.

Lemma slot_Some_range (t : table) i v :
  slot t i = Some v -> 0 <= i < Z.of_nat (length (buckets_ t)).
Proof.
  unfold slot. destruct (bucket_at t i) as [b|] eqn:Hb; [|discriminate].
  intros _. eapply bucket_at_Some; eauto.
Qed.

(** What a read of bucket [i] sees, in terms of [slot]. *)
Lemma bucket_view (t : table) i :
  shape t -> 0 <= i < bucket_count_ t ->
  exists b, bucket_at t i = Some b /\
    match slot t i with
    | Some v => has_value b = true /\ memory b = Some v
    | None => has_value b = false
    end.
Proof.
  intros [_ Hlen Hflags] Hi.
  destruct (bucket_at_in_range t i) as [b Hb]; [lia|].
  exists b. split; [assumption|].
  unfold slot. rewrite Hb. simpl. unfold live.
  rewrite bucket_at_lookup in Hb by lia.
  pose proof (Forall_lookup_1 _ _ _ _ Hflags Hb) as Hok.
  destruct (has_value b) eqn:Hf; [|reflexivity].
  destruct (Hok Hf) as [v Hv]. rewrite Hv. auto.
Qed.

Section with_shape.
Variable t : table.
Hypothesis Hshape : shape t.

Lemma shape_pos : 0 < bucket_count_ t.
Proof.
  destruct (shape_cap t Hshape) as (k & Hk & ->).
  apply Z.pow_pos_nonneg; lia.
Qed.

Lemma shape_le : bucket_count_ t <= 2 ^ 63.
Proof.
  destruct (shape_cap t Hshape) as (k & Hk & ->).
  apply Z.pow_le_mono_r; lia.
Qed.

Lemma index_from_key_mod key :
  index_from_key hash_ t key = hash_ key mod bucket_count_ t.
Proof.
  unfold index_from_key.
  destruct (shape_cap t Hshape) as (k & Hk & ->).
  now apply mask_mod.
Qed.

Lemma index_from_key_range key :
  0 <= index_from_key hash_ t key < bucket_count_ t.
Proof.
  rewrite index_from_key_mod. apply Z.mod_pos_bound, shape_pos.
Qed.

Lemma ideal_range v : 0 <= ideal t v < bucket_count_ t.
Proof. apply index_from_key_range. Qed.

Lemma index_add_cadd i x :
  index_add t i x = cadd (bucket_count_ t) i x.
Proof.
  unfold index_add, cadd.
  destruct (shape_cap t Hshape) as (k & Hk & ->).
  now apply mask_mod.
Qed.

Lemma slot_range i v : slot t i = Some v -> 0 <= i < bucket_count_ t.
Proof.
  intros H%slot_Some_range. now rewrite (shape_len t Hshape) in H.
Qed.

Lemma slot_outside i : ~ 0 <= i < bucket_count_ t -> slot t i = None.
Proof.
  intros H. destruct (slot t i) as [v|] eqn:Hs; [|reflexivity].
  apply slot_range in Hs. lia.
Qed.

End with_shape.

(** ** The three writes of the kernel, seen through [bucket_at] *)

Lemma bucket_at_place (t : table) f v j :
  0 <= f ->
  bucket_at (place t f v) j =
  if decide (j = f) then (fun _ => Bucket true (Some v)) <$> bucket_at t j
  else bucket_at t j.
Proof.
  intros Hf. unfold place. rewrite bucket_at_set_size.
  rewrite !bucket_at_alter by lia.
  destruct (decide (j = f)); [|reflexivity].
  now destruct (bucket_at t j).
Qed.

Lemma bucket_at_removed (t : table) g j :
  0 <= g ->
  bucket_at (removed t g) j =
  if decide (j = g) then (fun _ => Bucket false None) <$> bucket_at t j
  else bucket_at t j.
Proof.
  intros Hg. unfold removed. rewrite bucket_at_set_size.
  rewrite !bucket_at_alter by lia.
  destruct (decide (j = g)); [|reflexivity].
  now destruct (bucket_at t j).
Qed.

Lemma bucket_at_shift_entry (t : table) g i v j :
  0 <= g -> 0 <= i -> g <> i ->
  bucket_at (shift_entry t g i v) j =
  if decide (j = g) then (fun _ => Bucket true (Some v)) <$> bucket_at t j
  else if decide (j = i)
    then (fun _ => Bucket false None) <$> bucket_at t j
    else bucket_at t j.
Proof.
  intros Hg Hi Hgi. unfold shift_entry.
  rewrite !bucket_at_alter by lia.
  destruct (decide (j = g)), (decide (j = i)); try lia;
    try reflexivity; now destruct (bucket_at t j).
Qed.

Lemma slot_place (t : table) f v j :
  0 <= f < Z.of_nat (length (buckets_ t)) ->
  slot (place t f v) j = if decide (j = f) then Some v else slot t j.
Proof.
  intros Hf. unfold slot. rewrite bucket_at_place by lia.
  destruct (decide (j = f)) as [-> | Hne]; [|reflexivity].
  destruct (bucket_at_in_range t f Hf) as [b ->]. reflexivity.
Qed.

Lemma slot_removed (t : table) g j :
  0 <= g ->
  slot (removed t g) j = if decide (j = g) then None else slot t j.
Proof.
  intros Hg. unfold slot. rewrite bucket_at_removed by lia.
  destruct (decide (j = g)) as [-> | Hne]; [|reflexivity].
  now destruct (bucket_at t g).
Qed.

Lemma slot_shift_entry (t : table) g i v j :
  0 <= g < Z.of_nat (length (buckets_ t)) -> 0 <= i -> g <> i ->
  slot (shift_entry t g i v) j =
  if decide (j = g) then Some v
  else if decide (j = i) then None else slot t j.
Proof.
  intros Hg Hi Hgi. unfold slot. rewrite bucket_at_shift_entry by lia.
  destruct (decide (j = g)) as [-> | Hne].
  - destruct (bucket_at_in_range t g Hg) as [b ->]. reflexivity.
  - destruct (decide (j = i)) as [-> | Hne']; [|reflexivity].
    now destruct (bucket_at t i).
Qed.

(** Shape is a matter of the bucket count, the length and the buckets
    read. *)
Lemma shape_update (t t' : table) :
  shape t ->
  bucket_count_ t' = bucket_count_ t ->
  length (buckets_ t') = length (buckets_ t) ->
  (forall j b, bucket_at t' j = Some b -> flag_ok b) ->
  shape t'.
Proof.
  intros [Hcap Hlen Hflags] Hc Hl Hb. split.
  - now rewrite Hc.
  - now rewrite Hc, Hl.
  - apply Forall_lookup_2. intros i b Hi. apply (Hb (Z.of_nat i)).
    rewrite bucket_at_lookup by lia. now rewrite Nat2Z.id.
Qed.

Lemma shape_flag_ok (t : table) j b :
  shape t -> bucket_at t j = Some b -> flag_ok b.
Proof.
  intros [_ _ Hflags] Hb.
  pose proof (bucket_at_Some t j b Hb) as Hj.
  rewrite bucket_at_lookup in Hb by lia.
  apply (Forall_lookup_1 _ _ _ _ Hflags Hb).
Qed.

Lemma length_place (t : table) f v :
  length (buckets_ (place t f v)) = length (buckets_ t).
Proof. unfold place. simpl. now rewrite !length_alter. Qed.

Lemma length_removed (t : table) g :
  length (buckets_ (removed t g)) = length (buckets_ t).
Proof. unfold removed. simpl. now rewrite !length_alter. Qed.

Lemma length_shift_entry (t : table) g i v :
  length (buckets_ (shift_entry t g i v)) = length (buckets_ t).
Proof. unfold shift_entry. simpl. now rewrite !length_alter. Qed.

Lemma shape_place (t : table) f v : shape t -> 0 <= f -> shape (place t f v).
Proof.
  intros Hs Hf. apply (shape_update t); auto using length_place.
  intros j b. rewrite bucket_at_place by lia.
  destruct (decide (j = f)).
  - destruct (bucket_at t j); [|discriminate].
    intros [= <-]. intros _. now exists v.
  - apply shape_flag_ok, Hs.
Qed.

Lemma shape_removed (t : table) g : shape t -> 0 <= g -> shape (removed t g).
Proof.
  intros Hs Hg. apply (shape_update t); auto using length_removed.
  intros j b. rewrite bucket_at_removed by lia.
  destruct (decide (j = g)).
  - destruct (bucket_at t j); [|discriminate].
    intros [= <-]. intros [=].
  - apply shape_flag_ok, Hs.
Qed.

Lemma shape_shift_entry (t : table) g i v :
  shape t -> 0 <= g -> 0 <= i -> g <> i -> shape (shift_entry t g i v).
Proof.
  intros Hs Hg Hi Hgi.
  apply (shape_update t); auto using length_shift_entry.
  intros j b. rewrite bucket_at_shift_entry by lia.
  destruct (decide (j = g)); [|destruct (decide (j = i))].
  - destruct (bucket_at t j); [|discriminate].
    intros [= <-]. intros _. now exists v.
  - destruct (bucket_at t j); [|discriminate].
    intros [= <-]. intros [=].
  - apply shape_flag_ok, Hs.
Qed.

(** ** Counting through the writes *)

Lemma live_count_alter_keep f (l : list bucket) i :
  (forall b, has_value (f b) = has_value b) ->
  live_count (alter f i l) = live_count l.
Proof.
  intros Hf. revert i.
  induction l as [|a l IH]; intros [|i]; simpl; try reflexivity.
  - now rewrite Hf.
  - f_equal. apply IH.
Qed.

Lemma live_count_alter_flag c (l : list bucket) i b :
  l !! i = Some b ->
  (live_count (alter (set_has_value c) i l)
     + (if has_value b then 1 else 0) =
   live_count l + (if c then 1 else 0))%nat.
Proof. intros Hb. apply (live_count_alter (set_has_value c) _ _ _ Hb). Qed.

Lemma live_count_place (t : table) f v b :
  bucket_at t f = Some b -> has_value b = false ->
  live_count (buckets_ (place t f v)) = S (live_count (buckets_ t)).
Proof.
  intros Hb Hf. pose proof (bucket_at_Some t f b Hb) as Hr.
  rewrite bucket_at_lookup in Hb by lia.
  unfold place. simpl.
  pose proof (live_count_alter_flag true
                (alter (construct_at v) (Z.to_nat f) (buckets_ t))
                (Z.to_nat f) (construct_at v b)) as H.
  rewrite list_lookup_alter_eq, Hb in H. specialize (H eq_refl).
  rewrite (live_count_alter_keep (construct_at v)) in H by reflexivity.
  simpl in H. rewrite Hf in H. lia.
Qed.

Lemma live_count_removed (t : table) g b :
  bucket_at t g = Some b -> has_value b = true ->
  S (live_count (buckets_ (removed t g))) = live_count (buckets_ t).
Proof.
  intros Hb Hf. pose proof (bucket_at_Some t g b Hb) as Hr.
  rewrite bucket_at_lookup in Hb by lia.
  unfold removed. simpl.
  pose proof (live_count_alter_flag false
                (alter destroy_at (Z.to_nat g) (buckets_ t))
                (Z.to_nat g) (destroy_at b)) as H.
  rewrite list_lookup_alter_eq, Hb in H. specialize (H eq_refl).
  rewrite (live_count_alter_keep destroy_at) in H by reflexivity.
  simpl in H. rewrite Hf in H. lia.
Qed.

Lemma live_count_shift_entry (t : table) g i v bg bi :
  0 <= g -> 0 <= i -> g <> i ->
  bucket_at t g = Some bg -> has_value bg = false ->
  bucket_at t i = Some bi -> has_value bi = true ->
  live_count (buckets_ (shift_entry t g i v)) = live_count (buckets_ t).
Proof.
  intros Hg Hi Hgi Hbg Hfg Hbi Hfi.
  rewrite bucket_at_lookup in Hbg, Hbi by lia.
  unfold shift_entry. simpl.
  set (l0 := buckets_ t) in *.
  set (l1 := alter (construct_at v) (Z.to_nat g) l0).
  set (l2 := alter destroy_at (Z.to_nat i) l1).
  set (l3 := alter (set_has_value false) (Z.to_nat i) l2).
  assert (H1 : live_count l1 = live_count l0)
    by now apply live_count_alter_keep.
  assert (H2 : live_count l2 = live_count l1)
    by now apply live_count_alter_keep.
  assert (Hne : Z.to_nat g <> Z.to_nat i) by lia.
  pose proof (live_count_alter_flag false l2 (Z.to_nat i) (destroy_at bi))
    as H3.
  unfold l2 at 1, l1 in H3.
  rewrite list_lookup_alter_eq, list_lookup_alter_ne, Hbi in H3 by lia.
  specialize (H3 eq_refl). fold l1 l2 l3 in H3.
  pose proof (live_count_alter_flag true l3 (Z.to_nat g) (construct_at v bg))
    as H4.
  unfold l3 at 1, l2, l1 in H4.
  rewrite !list_lookup_alter_ne, list_lookup_alter_eq, Hbg in H4 by lia.
  specialize (H4 eq_refl). fold l1 l2 l3 in H4.
  simpl in H3, H4. rewrite Hfi in H3. rewrite Hfg in H4. lia.
Qed.

(** ** Probing *)

Lemma count_has_free (t : table) :
  shape t ->
  Z.of_nat (live_count (buckets_ t)) < bucket_count_ t ->
  has_free t.
Proof.
  intros Hs Hlt. pose proof (shape_len t Hs) as Hlen.
  destruct (live_count_free (buckets_ t)) as (i & b & Hi & Hb); [lia|].
  pose proof (lookup_lt_Some _ _ _ Hi) as Hr.
  exists (Z.of_nat i). split; [lia|].
  unfold slot. rewrite bucket_at_lookup, Nat2Z.id, Hi by lia.
  simpl. unfold live. now rewrite Hb.
Qed.

Lemma wf_has_free (t : table) : wf t -> has_free t.
Proof.
  intros H. apply count_has_free; [apply H|].
  rewrite <- (wf_size t H).
  pose proof (wf_band t H). rewrite (wf_max t H) in *.
  pose proof (max_size_of_lt (bucket_count_ t) (shape_pos t (wf_shape t H))).
  lia.
Qed.

Lemma scan_stops (t : table) p :
  shape t ->
  forall (m : nat) h fuel,
    0 <= h < bucket_count_ t ->
    Z.of_nat m < bucket_count_ t ->
    slot t (cadd (bucket_count_ t) h (Z.of_nat m)) = None ->
    (m < fuel)%nat ->
    scan_result t p h (scan fuel t p h).
Proof.
  intros Hs. pose proof (shape_pos t Hs) as Hn.
  induction m as [|m IH]; intros h fuel Hh Hm Hfree Hfuel;
    (destruct fuel as [|fuel]; [lia|]); simpl scan.
  - rewrite cadd_0 in Hfree by lia. rewrite Hfree.
    rewrite <- (cadd_0 (bucket_count_ t) h) at 2 by lia.
    apply scan_free; [lia | intros d' Hd'; lia |].
    now rewrite cadd_0 by lia.
  - destruct (slot t h) as [v|] eqn:Hv.
    + destruct (p v) eqn:Hp.
      * rewrite <- (cadd_0 (bucket_count_ t) h) at 2 by lia.
        apply scan_hit with (d := 0); [lia | intros d' Hd'; lia | | auto].
        now rewrite cadd_0 by lia.
      * rewrite index_add_cadd by assumption.
        assert (Hstep : forall d, cadd (bucket_count_ t)
                   (cadd (bucket_count_ t) h 1) d =
                   cadd (bucket_count_ t) h (d + 1)).
        { intros d. rewrite cadd_cadd. f_equal. lia. }
        specialize (IH (cadd (bucket_count_ t) h 1) fuel).
        destruct IH as [d Hd Hpath Hnone | d w Hd Hpath Hw Hpw].
        -- apply cadd_range, Hn.
        -- lia.
        -- rewrite Hstep.
           now replace (Z.of_nat m + 1) with (Z.of_nat (S m)) by lia.
        -- lia.
        -- rewrite Hstep in *.
           assert (d + 1 < bucket_count_ t).
           { destruct (Z.eq_dec (d + 1) (bucket_count_ t)) as [E|]; [|lia].
             rewrite E, cadd_full in Hnone by lia. congruence. }
           apply scan_free; [lia | | assumption].
           intros d' Hd'. destruct (Z.eq_dec d' 0) as [-> | Hne].
           ++ exists v. now rewrite cadd_0 by lia.
           ++ destruct (Hpath (d' - 1)) as (u & Hu & Hpu); [lia|].
              exists u. rewrite Hstep in Hu.
              now replace (d' - 1 + 1) with d' in Hu by lia.
        -- rewrite Hstep in *.
           assert (d + 1 < bucket_count_ t).
           { destruct (Z.eq_dec (d + 1) (bucket_count_ t)) as [E|]; [|lia].
             rewrite E, cadd_full in Hw by lia. congruence. }
           apply scan_hit; [lia | | assumption | assumption].
           intros d' Hd'. destruct (Z.eq_dec d' 0) as [-> | Hne].
           ++ exists v. now rewrite cadd_0 by lia.
           ++ destruct (Hpath (d' - 1)) as (u & Hu & Hpu); [lia|].
              exists u. rewrite Hstep in Hu.
              now replace (d' - 1 + 1) with d' in Hu by lia.
    + rewrite <- (cadd_0 (bucket_count_ t) h) at 2 by lia.
      apply scan_free; [lia | intros d' Hd'; lia |].
      now rewrite cadd_0 by lia.
Qed.

(** With a free slot somewhere, a probe stops within one turn. *)
Lemma scan_total (t : table) p h :
  shape t -> has_free t -> 0 <= h < bucket_count_ t ->
  scan_result t p h (scan (probe_fuel t) t p h).
Proof.
  intros Hs (e & He & Hfree) Hh.
  pose proof (shape_pos t Hs) as Hn.
  pose proof (cdist_range (bucket_count_ t) Hn h e) as Hd.
  apply (scan_stops t p Hs (Z.to_nat (cdist (bucket_count_ t) h e))).
  - assumption.
  - lia.
  - rewrite Z2Nat.id by lia. now rewrite cadd_cdist by lia.
  - unfold probe_fuel. pose proof (shape_len t Hs). lia.
Qed.

(** ** The loops of the source are instances of the walk *)

Lemma index_add_range (t : table) i x :
  shape t -> 0 <= index_add t i x < bucket_count_ t.
Proof.
  intros Hs. rewrite index_add_cadd by assumption.
  apply cadd_range, shape_pos, Hs.
Qed.

Lemma find_loop_scan (t : table) key :
  shape t ->
  forall fuel h, 0 <= h < bucket_count_ t ->
    find_loop equal_ extract_ fuel t key h =
    match scan fuel t (matches key) h with
    | Some (i, Some _) => Some i
    | Some (_, None) => Some (bucket_count_ t)
    | None => None
    end.
Proof.
  intros Hs. induction fuel as [|fuel IH]; intros h Hh; simpl;
    [reflexivity|].
  destruct (bucket_view t h Hs Hh) as (b & Hb & Hview). rewrite Hb. simpl.
  destruct (slot t h) as [v|].
  - destruct Hview as [-> ->]. simpl. unfold matches.
    destruct (equal_ key (extract_ v)); [reflexivity|].
    apply IH, index_add_range, Hs.
  - now rewrite Hview.
Qed.

Lemma free_loop_scan (t : table) :
  shape t ->
  forall fuel h, 0 <= h < bucket_count_ t ->
    free_loop fuel t h =
    match scan fuel t (fun _ => false) h with
    | Some (i, _) => Some i
    | None => None
    end.
Proof.
  intros Hs. induction fuel as [|fuel IH]; intros h Hh; simpl;
    [reflexivity|].
  destruct (bucket_view t h Hs Hh) as (b & Hb & Hview). rewrite Hb. simpl.
  destruct (slot t h) as [v|].
  - destruct Hview as [-> _]. apply IH, index_add_range, Hs.
  - now rewrite Hview.
Qed.

Lemma erase_probe_scan (t : table) key :
  shape t ->
  forall fuel h, 0 <= h < bucket_count_ t ->
    erase_probe equal_ extract_ fuel t key h =
    match scan fuel t (matches key) h with
    | Some (i, Some _) => Some (removed t i, Some i, 1, index_add t i 1)
    | Some (i, None) => Some (t, None, 0, i)
    | None => None
    end.
Proof.
  intros Hs. induction fuel as [|fuel IH]; intros h Hh; simpl;
    [reflexivity|].
  destruct (bucket_view t h Hs Hh) as (b & Hb & Hview). rewrite Hb. simpl.
  destruct (slot t h) as [v|].
  - destruct Hview as [-> ->]. simpl. unfold matches.
    destruct (equal_ key (extract_ v)); [reflexivity|].
    apply IH, index_add_range, Hs.
  - now rewrite Hview.
Qed.

(** ** What a probe for a key finds *)

Hypothesis Hkeys : key_equivalence.

Lemma index_from_key_equal (t : table) a b :
  equal_ a b = true -> index_from_key hash_ t a = index_from_key hash_ t b.
Proof.
  intros H. unfold index_from_key. now rewrite (hash_equal Hkeys a b H).
Qed.

(** A probe for [key] that reaches a free slot proves the key absent. *)
Lemma probe_absent (t : table) key d :
  shape t -> probe_run t ->
  0 <= d < bucket_count_ t ->
  probe_path t (matches key) (index_from_key hash_ t key) d ->
  slot t (cadd (bucket_count_ t) (index_from_key hash_ t key) d) = None ->
  ~ present t key.
Proof.
  intros Hs Hrun Hd Hpath Hfree (j & w & Hw & Hm).
  pose proof (shape_pos t Hs) as Hn.
  pose proof (slot_range t Hs j w Hw) as Hj.
  pose proof (Hrun j w Hw) as Hr.
  unfold index_from_value in Hr.
  rewrite <- (index_from_key_equal t key (extract_ w) Hm) in Hr.
  set (h := index_from_key hash_ t key) in *.
  pose proof (cdist_range (bucket_count_ t) Hn h j) as Hdj.
  destruct (Z_lt_dec (cdist (bucket_count_ t) h j) d) as [Hlt | Hge].
  - destruct (Hpath (cdist (bucket_count_ t) h j)) as (u & Hu & Hpu);
      [lia|].
    rewrite cadd_cdist in Hu by lia. unfold matches in Hpu. congruence.
  - apply (Hr d); [lia | assumption].
Qed.

Lemma find_spec (t : table) key :
  shape t -> has_free t -> probe_run t ->
  (exists i v, find hash_ equal_ extract_ t key = Some i /\
     slot t i = Some v /\ matches key v = true) \/
  (find hash_ equal_ extract_ t key = Some (bucket_count_ t) /\
   ~ present t key).
Proof.
  intros Hs Hfree Hrun.
  pose proof (index_from_key_range t Hs key) as Hh.
  unfold find, find_impl. rewrite find_loop_scan by assumption.
  destruct (scan_total t (matches key) _ Hs Hfree Hh)
    as [d Hd Hpath Hnone | d v Hd Hpath Hv Hm].
  - right. split; [reflexivity|]. eapply probe_absent; eauto.
  - left. eauto.
Qed.

Lemma find_present (t : table) key :
  shape t -> has_free t -> probe_run t -> present t key ->
  exists i v, find hash_ equal_ extract_ t key = Some i /\
    slot t i = Some v /\ matches key v = true.
Proof.
  intros Hs Hfree Hrun Hp.
  destruct (find_spec t key Hs Hfree Hrun) as [H | [_ H]]; [assumption|].
  contradiction.
Qed.

Lemma find_absent (t : table) key :
  shape t -> has_free t -> probe_run t -> ~ present t key ->
  find hash_ equal_ extract_ t key = Some (bucket_count_ t).
Proof.
  intros Hs Hfree Hrun Hp.
  destruct (find_spec t key Hs Hfree Hrun) as [(i & v & _ & Hv & Hm) | [H _]];
    [|assumption].
  exfalso. apply Hp. now exists i, v.
Qed.

(** ** Placement keeps the invariant *)

Lemma probe_run_place (t : table) v d :
  shape t -> probe_run t ->
  0 <= d < bucket_count_ t ->
  probe_path t (fun _ => false) (ideal t v) d ->
  probe_run (place t (cadd (bucket_count_ t) (ideal t v) d) v).
Proof.
  intros Hs Hrun Hd Hpath.
  pose proof (shape_pos t Hs) as Hn. pose proof (shape_len t Hs) as Hlen.
  set (f := cadd (bucket_count_ t) (ideal t v) d).
  assert (Hf : 0 <= f < bucket_count_ t) by apply cadd_range, Hn.
  assert (Hmono : forall x, slot t x <> None -> slot (place t f v) x <> None).
  { intros x Hx. rewrite slot_place by lia. now destruct (decide (x = f)). }
  intros i w Hw e He.
  change (bucket_count_ (place t f v)) with (bucket_count_ t) in *.
  change (ideal (place t f v) w) with (ideal t w) in *.
  rewrite slot_place in Hw by lia.
  destruct (decide (i = f)) as [-> | Hne].
  - injection Hw as <-. unfold f in He. rewrite cdist_cadd in He by lia.
    destruct (Z.eq_dec e d) as [-> | Hed].
    + fold f. rewrite slot_place by lia.
      now destruct (decide (f = f)).
    + apply Hmono. destruct (Hpath e) as (u & -> & _); [lia | discriminate].
  - apply Hmono. now apply (Hrun i w Hw).
Qed.

Lemma unique_keys_place (t : table) f v :
  shape t -> unique_keys t -> ~ present t (extract_ v) ->
  0 <= f < bucket_count_ t ->
  unique_keys (place t f v).
Proof.
  intros Hs Huniq Habs Hf i j a b Ha Hb Hab.
  pose proof (shape_len t Hs) as Hlen.
  rewrite slot_place in Ha, Hb by lia.
  destruct (decide (i = f)) as [-> | Hi], (decide (j = f)) as [-> | Hj];
    try reflexivity.
  - injection Ha as <-. exfalso. apply Habs. now exists j, b.
  - injection Hb as <-. exfalso. apply Habs. exists i, a.
    split; [assumption|]. now apply (equal_sym Hkeys).
  - now apply (Huniq i j a b).
Qed.

Lemma wf_size_range (t : table) : wf t -> 0 <= size_ t < bucket_count_ t.
Proof.
  intros H. pose proof (wf_band t H) as Hb. rewrite (wf_max t H) in Hb.
  pose proof (max_size_of_lt _ (shape_pos t (wf_shape t H))).
  rewrite (wf_size t H) in *. lia.
Qed.

Lemma present_place (t : table) f v key :
  shape t -> 0 <= f < bucket_count_ t -> slot t f = None ->
  present (place t f v) key <-> matches key v = true \/ present t key.
Proof.
  intros Hs Hf Hfree. pose proof (shape_len t Hs) as Hlen. split.
  - intros (i & w & Hw & Hm). rewrite slot_place in Hw by lia.
    destruct (decide (i = f)) as [-> | Hne].
    + injection Hw as <-. now left.
    + right. now exists i, w.
  - intros [Hm | (i & w & Hw & Hm)].
    + exists f, v. rewrite slot_place by lia.
      now destruct (decide (f = f)).
    + exists i, w. rewrite slot_place by lia.
      destruct (decide (i = f)) as [-> | Hne]; [congruence | auto].
Qed.

Lemma size_place (t : table) f v :
  wf t -> size_ (place t f v) = size_ t + 1.
Proof.
  intros Hwf. pose proof (wf_size_range t Hwf).
  pose proof (shape_le t (wf_shape t Hwf)).
  unfold place. simpl. apply wrap64_small. lia.
Qed.

Lemma insert_impl_unfold fuel (t : table) v i :
  insert_impl hash_ extract_ (S fuel) t v i =
  if size_ t =? max_size_ t then
    t' ← rehash hash_ extract_ fuel t (wrap64 (bucket_count_ t * 2));
    insert_impl hash_ extract_ fuel t' v (ideal t' v)
  else
    free_index ← free_loop (probe_fuel t) t i;
    Some (place t free_index v, free_index).
Proof. reflexivity. Qed.

(** The private [insert] below the load limit: the entry lands in the
    first free slot of its probe run. *)
Lemma insert_impl_place (t : table) v fuel :
  wf t -> size_ t < max_size_ t -> ~ present t (extract_ v) ->
  exists f,
    insert_impl hash_ extract_ (S fuel) t v (ideal t v)
      = Some (place t f v, f) /\
    0 <= f < bucket_count_ t /\ slot t f = None /\ wf (place t f v).
Proof.
  intros Hwf Hlt Habs.
  pose proof (wf_shape t Hwf) as Hs.
  pose proof (shape_pos t Hs) as Hn. pose proof (shape_le t Hs) as Hle.
  pose proof (shape_len t Hs) as Hlen.
  pose proof (wf_size_range t Hwf) as Hsz.
  pose proof (ideal_range t Hs v) as Hh.
  rewrite insert_impl_unfold.
  destruct (Z.eqb_spec (size_ t) (max_size_ t)) as [E | _]; [lia|].
  rewrite free_loop_scan by assumption.
  pose proof (scan_total t (fun _ => false) (ideal t v) Hs
                (wf_has_free t Hwf) Hh) as Hscan.
  remember (scan (probe_fuel t) t (fun _ => false) (ideal t v)) as r eqn:Hr.
  destruct Hscan as [d Hd Hpath Hfree | d w Hd Hpath Hw Hp];
    [|discriminate].
  set (f := cadd (bucket_count_ t) (ideal t v) d) in *. simpl.
  assert (Hf : 0 <= f < bucket_count_ t) by apply cadd_range, Hn.
  exists f. split; [reflexivity|]. split; [assumption|].
  split; [assumption|].
  destruct (bucket_view t f Hs Hf) as (b & Hb & Hview).
  rewrite Hfree in Hview.
  split.
  - now apply shape_place.
  - rewrite (live_count_place t f v b Hb Hview).
    unfold place. simpl. rewrite wrap64_small by lia.
    rewrite (wf_size t Hwf). lia.
  - apply (wf_min t Hwf).
  - apply (wf_max t Hwf).
  - unfold place. simpl. rewrite wrap64_small by lia. lia.
  - apply probe_run_place; auto. apply Hwf.
  - apply unique_keys_place; auto. apply Hwf.
Qed.

(** ** A fresh bucket vector *)

Lemma slot_fresh c i : slot (fresh c) i = None.
Proof.
  unfold slot, bucket_at, fresh, new_buckets. simpl.
  destruct (i <? 0); [reflexivity|].
  destruct (replicate (Z.to_nat c) empty_bucket !! Z.to_nat i) as [b|] eqn:Hb;
    [|reflexivity].
  apply lookup_replicate in Hb as [-> _]. reflexivity.
Qed.

Lemma wf_fresh k : 0 <= k <= 63 -> wf (fresh (2 ^ k)).
Proof.
  intros Hk. assert (Hpos : 0 < 2 ^ k) by (apply Z.pow_pos_nonneg; lia).
  split.
  - split.
    + now exists k.
    + unfold fresh, new_buckets. simpl. rewrite length_replicate. lia.
    + apply Forall_replicate. intros [=].
  - unfold fresh, new_buckets. simpl. now rewrite live_count_replicate.
  - reflexivity.
  - reflexivity.
  - apply max_size_of_nonneg. lia.
  - intros i v Hv. now rewrite slot_fresh in Hv.
  - intros i j v w Hv. now rewrite slot_fresh in Hv.
Qed.

(** ** The rehash sweep when nothing is in its way *)

Lemma present_holds (t : table) key :
  present t key <-> exists w, holds t w /\ matches key w = true.
Proof.
  split.
  - intros (i & w & Hw & Hm). exists w. split; [now exists i | assumption].
  - intros (w & [i Hw] & Hm). now exists i, w.
Qed.

Lemma holds_elem (t : table) w :
  holds t w <-> exists b, b ∈ buckets_ t /\ live b = Some w.
Proof.
  split.
  - intros [i Hi]. unfold slot in Hi.
    destruct (bucket_at t i) as [b|] eqn:Hb; [|discriminate].
    pose proof (bucket_at_Some t i b Hb) as Hr.
    rewrite bucket_at_lookup in Hb by lia.
    exists b. split; [|assumption]. apply list_elem_of_lookup. eauto.
  - intros (b & Hb & Hl). apply list_elem_of_lookup in Hb as [i Hi].
    exists (Z.of_nat i). unfold slot.
    rewrite bucket_at_lookup, Nat2Z.id, Hi by lia. assumption.
Qed.

Lemma holds_place (t : table) f v w :
  shape t -> 0 <= f < bucket_count_ t -> slot t f = None ->
  holds (place t f v) w <-> w = v \/ holds t w.
Proof.
  intros Hs Hf Hfree. pose proof (shape_len t Hs) as Hlen. split.
  - intros [i Hi]. rewrite slot_place in Hi by lia.
    destruct (decide (i = f)); [left; congruence | right; now exists i].
  - intros [-> | [i Hi]].
    + exists f. rewrite slot_place by lia. now destruct (decide (f = f)).
    + exists i. rewrite slot_place by lia.
      destruct (decide (i = f)) as [-> | Hne]; [congruence | auto].
Qed.

Lemma distinct_buckets_lookup (l : list bucket) :
  (forall (i j : nat) b b' v w,
     l !! i = Some b -> l !! j = Some b' ->
     live b = Some v -> live b' = Some w ->
     equal_ (extract_ v) (extract_ w) = true -> i = j) ->
  distinct_buckets l.
Proof.
  induction l as [|a l IH]; intros H; simpl; [exact I|]. split.
  - intros v b' w Hv Hb' Hw.
    apply list_elem_of_lookup in Hb' as [j Hj].
    destruct (equal_ (extract_ v) (extract_ w)) eqn:E; [|reflexivity].
    specialize (H O (S j) a b' v w eq_refl Hj Hv Hw E). discriminate.
  - apply IH. intros i j b b' v w Hi Hj Hv Hw E.
    specialize (H (S i) (S j) b b' v w Hi Hj Hv Hw E). lia.
Qed.

Lemma unique_keys_distinct (t : table) :
  unique_keys t -> distinct_buckets (buckets_ t).
Proof.
  intros Hu. apply distinct_buckets_lookup.
  intros i j b b' v w Hi Hj Hv Hw E.
  assert (Z.of_nat i = Z.of_nat j); [|lia].
  apply (Hu _ _ v w); [| |assumption]; unfold slot;
    rewrite bucket_at_lookup, Nat2Z.id by lia.
  - now rewrite Hi.
  - now rewrite Hj.
Qed.

Lemma rehash_sweep_live f count (b : bucket) rest (t t' : table) v :
  has_value b = true -> memory b = Some v ->
  f t v (ideal t v) = Some t' ->
  rehash_sweep hash_ extract_ f count (b :: rest) t =
  if bucket_count_ t' =? count
  then rehash_sweep hash_ extract_ f count rest t' else Some t'.
Proof. intros Hb Hv Hf. simpl. rewrite Hb, Hv. simpl. now rewrite Hf. Qed.

Lemma rehash_sweep_dead f count (b : bucket) rest (t : table) :
  has_value b = false ->
  rehash_sweep hash_ extract_ f count (b :: rest) t =
  rehash_sweep hash_ extract_ f count rest t.
Proof. intros Hb. simpl. now rewrite Hb. Qed.

Lemma rehash_sweep_good fuel count :
  forall (rest : list bucket) (new : table),
    wf new -> bucket_count_ new = count ->
    size_ new + Z.of_nat (live_count rest) <= max_size_ new ->
    Forall flag_ok rest ->
    distinct_buckets rest ->
    (forall b w, b ∈ rest -> live b = Some w ->
       ~ present new (extract_ w)) ->
    exists new',
      rehash_sweep hash_ extract_ (ins (S fuel)) count rest new
        = Some new' /\
      wf new' /\ bucket_count_ new' = count /\
      size_ new' = size_ new + Z.of_nat (live_count rest) /\
      (forall w, holds new' w <->
         holds new w \/ exists b, b ∈ rest /\ live b = Some w).
Proof.
  induction rest as [|b rest IH];
    intros new Hwf Hcount Hroom Hflags Hdist Hfresh.
  - exists new. simpl. split; [reflexivity|]. split; [assumption|].
    split; [assumption|]. split; [lia|]. intros w. split.
    + now left.
    + intros [H | (b & Hb & _)]; [assumption|]. now apply elem_of_nil in Hb.
  - apply Forall_cons in Hflags as [Hb Hflags].
    destruct Hdist as [Hb_rest Hdist].
    destruct (has_value b) eqn:Hflag.
    + destruct (Hb Hflag) as [v Hv].
      assert (Hlive : live b = Some v) by (unfold live; now rewrite Hflag).
      simpl in Hroom. rewrite Hflag in Hroom.
      destruct (insert_impl_place new v fuel) as (f & Hins & Hf & Hfree & Hwf').
      { assumption. }
      { lia. }
      { apply (Hfresh b v); [apply elem_of_cons; now left | assumption]. }
      rewrite (rehash_sweep_live _ _ b rest new (place new f v) v Hflag Hv)
        by (unfold ins; now rewrite Hins).
      change (bucket_count_ (place new f v)) with (bucket_count_ new).
      rewrite Hcount, Z.eqb_refl.
      destruct (IH (place new f v)) as (new' & Hsweep & Hwf2 & Hc2 & Hsz2 & Hh2).
      * assumption.
      * assumption.
      * rewrite size_place by assumption.
        change (max_size_ (place new f v)) with (max_size_ new). lia.
      * assumption.
      * assumption.
      * intros b' w Hb' Hw Hp.
        apply (present_place new f v _ (wf_shape _ Hwf) Hf Hfree)
          in Hp as [Hm | Hp].
        -- unfold matches in Hm.
           pose proof (Hb_rest v b' w Hlive Hb' Hw) as Hne.
           apply (equal_sym Hkeys) in Hm. congruence.
        -- apply (Hfresh b' w); [apply elem_of_cons; now right | assumption | assumption].
      * exists new'. split; [assumption|]. split; [assumption|].
        split; [assumption|]. split.
        -- rewrite Hsz2, size_place by assumption.
           simpl. rewrite Hflag. lia.
        -- intros w.
           rewrite Hh2, (holds_place new f v w (wf_shape _ Hwf) Hf Hfree).
           split.
           ++ intros [[-> | H] | (b' & Hb' & Hw)].
              ** right. exists b. split; [apply elem_of_cons; now left | assumption].
              ** now left.
              ** right. exists b'. split; [apply elem_of_cons; now right | assumption].
           ++ intros [H | (b' & Hb' & Hw)].
              ** left. now right.
              ** apply elem_of_cons in Hb' as [-> | Hb'].
                 --- left. left. congruence.
                 --- right. now exists b'.
    + rewrite rehash_sweep_dead by assumption.
      destruct (IH new) as (new' & Hsweep & Hwf2 & Hc2 & Hsz2 & Hh2);
        try assumption.
      * simpl in Hroom. rewrite Hflag in Hroom. lia.
      * intros b' w Hb' Hw. apply (Hfresh b' w); [apply elem_of_cons; now right | assumption].
      * exists new'. split; [assumption|]. split; [assumption|].
        split; [assumption|]. split.
        -- rewrite Hsz2. simpl. rewrite Hflag. lia.
        -- intros w. rewrite Hh2. split.
           ++ intros [H | (b' & Hb' & Hw)]; [now left|].
              right. exists b'. split; [apply elem_of_cons; now right | assumption].
           ++ intros [H | (b' & Hb' & Hw)]; [now left|].
              apply elem_of_cons in Hb' as [-> | Hb'].
              ** unfold live in Hw. rewrite Hflag in Hw. discriminate.
              ** right. now exists b'.
Qed.

Lemma rehash_unfold fuel (t : table) count :
  rehash hash_ extract_ fuel t count =
  rehash_sweep hash_ extract_ (ins fuel) count (buckets_ t)
    (fresh (upper_power_of_two count)).
Proof. reflexivity. Qed.

(** [rehash] to a power of two that leaves room for the live entries
    keeps every entry. *)
Lemma rehash_good fuel (t : table) k :
  wf t -> 0 <= k <= 63 -> size_ t <= max_size_of (2 ^ k) ->
  exists t',
    rehash hash_ extract_ (S fuel) t (2 ^ k) = Some t' /\
    wf t' /\ bucket_count_ t' = 2 ^ k /\ size_ t' = size_ t /\
    (forall w, holds t' w <-> holds t w).
Proof.
  intros Hwf Hk Hroom. rewrite rehash_unfold.
  rewrite upper_power_of_two_pow2 by assumption.
  destruct (rehash_sweep_good fuel (2 ^ k) (buckets_ t) (fresh (2 ^ k)))
    as (t' & Hsweep & Hwf' & Hc & Hsz & Hh).
  - now apply wf_fresh.
  - reflexivity.
  - simpl. rewrite <- (wf_size t Hwf). lia.
  - apply Hwf.
  - apply unique_keys_distinct, Hwf.
  - intros b w _ _ (i & u & Hu & _). now rewrite slot_fresh in Hu.
  - exists t'. split; [assumption|]. split; [assumption|].
    split; [assumption|]. split.
    + rewrite Hsz. simpl. now rewrite (wf_size t Hwf).
    + intros w. rewrite Hh, (holds_elem t w). split.
      * intros [[i Hi] | H]; [|assumption]. now rewrite slot_fresh in Hi.
      * now right.
Qed.

(** ** insert *)

Lemma present_iff_holds (t t' : table) :
  (forall w, holds t' w <-> holds t w) ->
  forall key, present t' key <-> present t key.
Proof.
  intros H key. rewrite !present_holds. split; intros (w & Hw & Hm);
    exists w; (split; [now apply H | assumption]).
Qed.

Lemma shape_cap_lt (t : table) :
  shape t -> bucket_count_ t < 2 ^ 63 ->
  exists k, 0 <= k <= 62 /\ bucket_count_ t = 2 ^ k.
Proof.
  intros Hs Hlt. destruct (shape_cap t Hs) as (k & Hk & E).
  exists k. split; [|assumption]. rewrite E in Hlt.
  apply Z.pow_lt_mono_r_iff in Hlt; lia.
Qed.

(** The private [insert] on a table that does not hold the key: grow
    when the load limit is reached, then place. *)
Lemma insert_impl_ok (t : table) v fuel :
  wf t -> bucket_count_ t < 2 ^ 63 -> ~ present t (extract_ v) ->
  exists t' pos,
    insert_impl hash_ extract_ (S (S fuel)) t v (ideal t v)
      = Some (t', pos) /\
    wf t' /\ slot t' pos = Some v /\
    size_ t' = size_ t + 1 /\
    (forall w, holds t' w <-> w = v \/ holds t w) /\
    bucket_count_ t' =
      (if size_ t =? max_size_ t then 2 * bucket_count_ t
       else bucket_count_ t).
Proof.
  intros Hwf Hcap Habs. pose proof (wf_shape t Hwf) as Hs.
  pose proof (shape_pos t Hs) as Hn.
  rewrite insert_impl_unfold.
  destruct (Z.eqb_spec (size_ t) (max_size_ t)) as [Hfull | Hroom].
  - destruct (shape_cap_lt t Hs Hcap) as (k & Hk & Ek).
    assert (E2 : wrap64 (bucket_count_ t * 2) = 2 ^ (k + 1)).
    { rewrite Z.pow_add_r, <- Ek by lia. change (2 ^ 1) with 2.
      apply wrap64_small. lia. }
    rewrite E2.
    destruct (rehash_good fuel t (k + 1)) as (t1 & Hre & Hwf1 & Hc1 & Hsz1 & Hh1).
    + assumption.
    + lia.
    + rewrite Hfull, (wf_max t Hwf).
      rewrite Z.pow_add_r, <- Ek by lia. change (2 ^ 1) with 2.
      pose proof (max_size_of_double (bucket_count_ t)). lia.
    + rewrite Hre. simpl.
      assert (Hc1' : bucket_count_ t1 = 2 * bucket_count_ t).
      { rewrite Hc1, Z.pow_add_r, <- Ek by lia. change (2 ^ 1) with 2. lia. }
      destruct (insert_impl_place t1 v fuel) as (f & Hins & Hf & Hfree & Hwf').
      * assumption.
      * rewrite Hsz1, Hfull, (wf_max t Hwf), (wf_max t1 Hwf1), Hc1'.
        pose proof (max_size_of_double (bucket_count_ t)).
        replace (2 * bucket_count_ t) with (bucket_count_ t * 2) by lia.
        lia.
      * now rewrite (present_iff_holds t t1 Hh1).
      * exists (place t1 f v), f. split; [assumption|].
        split; [assumption|]. split.
        { rewrite slot_place by (rewrite (shape_len t1 (wf_shape _ Hwf1)); lia).
          now destruct (decide (f = f)). }
        split; [rewrite size_place by assumption; lia|]. split.
        { intros w.
          rewrite (holds_place t1 f v w (wf_shape _ Hwf1) Hf Hfree).
          now rewrite Hh1. }
        assumption.
  - pose proof (wf_band t Hwf) as Hband.
    destruct (insert_impl_place t v (S fuel)) as (f & Hins & Hf & Hfree & Hwf').
    + assumption.
    + lia.
    + assumption.
    + rewrite insert_impl_unfold in Hins.
      destruct (Z.eqb_spec (size_ t) (max_size_ t)) as [E | _]; [lia|].
      rewrite Hins.
      exists (place t f v), f. split; [reflexivity|].
      split; [assumption|]. split.
      { rewrite slot_place by (rewrite (shape_len t Hs); lia).
        now destruct (decide (f = f)). }
      split; [now apply size_place|]. split.
      { intros w. apply (holds_place t f v w Hs Hf Hfree). }
      reflexivity.
Qed.

Lemma buckets_end_count (t : table) :
  shape t -> buckets_end t = bucket_count_ t.
Proof. intros Hs. apply (shape_len t Hs). Qed.

Lemma insert_unfold fuel (t : table) v :
  insert hash_ equal_ extract_ fuel t v =
  match find hash_ equal_ extract_ t (extract_ v) with
  | Some res =>
      if res =? buckets_end t then
        match insert_impl hash_ extract_ fuel t v (ideal t v) with
        | Some (t', pos) => Some (t', pos, true)
        | None => None
        end
      else Some (t, res, false)
  | None => None
  end.
Proof. reflexivity. Qed.

(** The public [insert] with a key that is already there. *)
Lemma insert_present fuel (t : table) v :
  wf t -> present t (extract_ v) ->
  exists pos w,
    insert hash_ equal_ extract_ fuel t v = Some (t, pos, false) /\
    find hash_ equal_ extract_ t (extract_ v) = Some pos /\
    slot t pos = Some w /\ matches (extract_ v) w = true.
Proof.
  intros Hwf Hp. pose proof (wf_shape t Hwf) as Hs.
  destruct (find_present t (extract_ v) Hs (wf_has_free t Hwf)
              (wf_probe t Hwf) Hp) as (i & w & Hfind & Hw & Hm).
  exists i, w. rewrite insert_unfold, Hfind.
  pose proof (slot_range t Hs i w Hw) as Hi.
  rewrite buckets_end_count by assumption.
  destruct (Z.eqb_spec i (bucket_count_ t)) as [E | _]; [lia|]. auto.
Qed.

(** The public [insert] with a new key. *)
Lemma insert_absent fuel (t : table) v :
  wf t -> bucket_count_ t < 2 ^ 63 -> ~ present t (extract_ v) ->
  exists t' pos,
    insert hash_ equal_ extract_ (S (S fuel)) t v = Some (t', pos, true) /\
    wf t' /\ slot t' pos = Some v /\
    size_ t' = size_ t + 1 /\
    (forall w, holds t' w <-> w = v \/ holds t w) /\
    bucket_count_ t' =
      (if size_ t =? max_size_ t then 2 * bucket_count_ t
       else bucket_count_ t).
Proof.
  intros Hwf Hcap Habs. pose proof (wf_shape t Hwf) as Hs.
  rewrite insert_unfold.
  rewrite (find_absent t (extract_ v) Hs (wf_has_free t Hwf)
             (wf_probe t Hwf) Habs).
  rewrite buckets_end_count, Z.eqb_refl by assumption.
  destruct (insert_impl_ok t v fuel Hwf Hcap Habs)
    as (t' & pos & Hins & Hrest).
  rewrite Hins. exists t', pos. split; [reflexivity | assumption].
Qed.

(** ** The repair pass of [erase] *)

Lemma ideal_count (t t' : table) w :
  bucket_count_ t = bucket_count_ t' -> ideal t w = ideal t' w.
Proof. intros H. unfold index_from_value, index_from_key. now rewrite H. Qed.

(** The probe-run invariant, by membership in the scanned arc. *)
Lemma probe_run_alt (t : table) :
  shape t ->
  probe_run t <->
  (forall j w x, slot t j = Some w -> 0 <= x < bucket_count_ t ->
     cdist (bucket_count_ t) (ideal t w) x
       <= cdist (bucket_count_ t) (ideal t w) j ->
     slot t x <> None).
Proof.
  intros Hs. pose proof (shape_pos t Hs) as Hn. split.
  - intros Hrun j w x Hw Hx Hle.
    rewrite <- (cadd_cdist (bucket_count_ t) (ideal t w) x Hx).
    apply (Hrun j w Hw). split; [|assumption].
    apply cdist_range, Hn.
  - intros Halt i w Hw d Hd.
    pose proof (cdist_range (bucket_count_ t) Hn (ideal t w) i).
    apply (Halt i w _ Hw); [apply cadd_range, Hn|].
    rewrite cdist_cadd by lia. lia.
Qed.

Lemma erase_shift_stop fuel (t : table) erased_index i :
  shape t -> 0 <= i < bucket_count_ t -> slot t i = None ->
  erase_shift hash_ extract_ (S fuel) t erased_index i = Some t.
Proof.
  intros Hs Hi Hfree. simpl.
  destruct (bucket_view t i Hs Hi) as (b & Hb & Hview).
  rewrite Hfree in Hview. now rewrite Hb; simpl; rewrite Hview.
Qed.

Lemma erase_shift_step fuel (t : table) g i w :
  shape t -> 0 <= i < bucket_count_ t -> 0 <= g < bucket_count_ t ->
  slot t i = Some w ->
  erase_shift hash_ extract_ (S fuel) t (Some g) i =
  if shift_cond g i (ideal t w)
  then erase_shift hash_ extract_ fuel (shift_entry t g i w) (Some i)
         (index_add t i 1)
  else erase_shift hash_ extract_ fuel t (Some g) (index_add t i 1).
Proof.
  intros Hs Hi Hg Hw. simpl.
  destruct (bucket_view t i Hs Hi) as (b & Hb & Hview).
  rewrite Hw in Hview. destruct Hview as [Hflag Hmem].
  rewrite Hb; simpl; rewrite Hflag, Hmem; simpl.
  destruct (bucket_at_in_range t g) as [bg Hbg];
    [rewrite (shape_len t Hs); lia|].
  unfold index_from_value. destruct (shift_cond _ _ _); [|reflexivity].
  now rewrite Hbg.
Qed.

Section repair.
Variable T0 : table.
Variables g e : Z.
Hypothesis H0 : gap_state T0 g e.

Abbreviation n0 := (bucket_count_ T0).
Abbreviation P := (cdist (bucket_count_ T0) g).
Abbreviation idl := (index_from_value hash_ extract_ T0).
Abbreviation repair_inv := (repair_inv hash_ equal_ extract_ T0 g e).
Abbreviation ri_shape := (ri_shape hash_ equal_ extract_ T0 g e).
Abbreviation ri_count := (ri_count hash_ equal_ extract_ T0 g e).
Abbreviation ri_size := (ri_size hash_ equal_ extract_ T0 g e).
Abbreviation ri_min := (ri_min hash_ equal_ extract_ T0 g e).
Abbreviation ri_max := (ri_max hash_ equal_ extract_ T0 g e).
Abbreviation ri_live := (ri_live hash_ equal_ extract_ T0 g e).
Abbreviation ri_gap_range := (ri_gap_range hash_ equal_ extract_ T0 g e).
Abbreviation ri_index_range := (ri_index_range hash_ equal_ extract_ T0 g e).
Abbreviation ri_order := (ri_order hash_ equal_ extract_ T0 g e).
Abbreviation ri_gap := (ri_gap hash_ equal_ extract_ T0 g e).
Abbreviation ri_rest := (ri_rest hash_ equal_ extract_ T0 g e).
Abbreviation ri_done := (ri_done hash_ equal_ extract_ T0 g e).
Abbreviation ri_unique := (ri_unique hash_ equal_ extract_ T0 g e).
Abbreviation ri_holds := (ri_holds hash_ equal_ extract_ T0 g e).

Lemma n0_pos : 0 < n0.
Proof. apply shape_pos, H0. Qed.

Lemma P_range j : 0 <= P j < n0.
Proof. apply cdist_range, n0_pos. Qed.

Lemma P_g : P g = 0.
Proof. apply cdist_self; [apply n0_pos | apply H0]. Qed.

Lemma P_inj a b : 0 <= a < n0 -> 0 <= b < n0 -> P a = P b -> a = b.
Proof. intros Ha Hb. apply cdist_inj; auto. apply H0. Qed.

Lemma idl_range w : 0 <= idl w < n0.
Proof. apply ideal_range, H0. Qed.

(** Where the ideal index of an entry can lie, seen from [g]. *)
Lemma gap_positions j w :
  slot T0 j = Some w ->
  (P j < e -> P (idl w) <= P j \/ e < P (idl w)) /\
  (e < P j -> e < P (idl w) <= P j).
Proof.
  intros Hw. pose proof (gs_g _ _ _ H0) as Hg.
  pose proof (gs_e _ _ _ H0) as He. pose proof n0_pos as Hn.
  pose proof (slot_range T0 (gs_shape _ _ _ H0) j w Hw) as Hj.
  set (E := cadd n0 g e).
  assert (HE : 0 <= E < n0) by apply cadd_range, Hn.
  assert (HPE : P E = e) by (apply cdist_cadd; lia).
  assert (HEg : E <> g).
  { intros ->. rewrite P_g in HPE. lia. }
  assert (Hnot : ~ cdist n0 (idl w) E <= cdist n0 (idl w) j).
  { intros Hle. apply (gs_paths _ _ _ H0 j w E Hw HE Hle HEg).
    now apply (gs_end _ _ _ H0). }
  rewrite (in_path_pos n0 Hn g (idl w) j E Hg (idl_range w) Hj HE) in Hnot.
  rewrite HPE in Hnot. lia.
Qed.

(** The entries whose run wraps around the end of the zone. *)
Lemma gap_tail j w x :
  slot T0 j = Some w -> P j < P (idl w) ->
  0 <= x < n0 -> P (idl w) <= P x -> slot T0 x <> None.
Proof.
  intros Hw Hlt Hx Hle. pose proof (gs_g _ _ _ H0) as Hg.
  pose proof n0_pos as Hn.
  pose proof (slot_range T0 (gs_shape _ _ _ H0) j w Hw) as Hj.
  apply (gs_paths _ _ _ H0 j w x Hw Hx).
  - rewrite (in_path_pos n0 Hn g (idl w) j x Hg (idl_range w) Hj Hx). lia.
  - intros ->. rewrite P_g in Hle. pose proof (P_range j). lia.
Qed.

Lemma repair_init : repair_inv T0 g (cadd n0 g 1).
Proof.
  pose proof (gs_g _ _ _ H0) as Hg. pose proof (gs_e _ _ _ H0) as He.
  pose proof n0_pos as Hn.
  assert (HP1 : P (cadd n0 g 1) = 1) by (apply cdist_cadd; lia).
  split; try reflexivity; try apply H0.
  - apply cadd_range, Hn.
  - rewrite HP1, P_g. lia.
  - intros j Hj Hlt Hne. exfalso. apply Hne. apply P_inj; auto.
    rewrite P_g. rewrite HP1 in Hlt. pose proof (P_range j). lia.
Qed.

Lemma repair_keep (t : table) gap i w :
  repair_inv t gap i -> slot t i = Some w -> P i < e ->
  P gap < P (idl w) <= P i ->
  repair_inv t gap (cadd n0 i 1).
Proof.
  intros [Hs Hc Hsz Hmin Hmax Hlive Hgr Hir Hord Hgap Hrest Hdone Hu Hh]
    Hw Hlt Harc.
  pose proof (gs_g _ _ _ H0) as Hg. pose proof (gs_e _ _ _ H0) as He.
  pose proof n0_pos as Hn.
  assert (HPn : P (cadd n0 i 1) = P i + 1) by (apply cdist_next; lia).
  split; auto.
  - apply cadd_range, Hn.
  - lia.
  - intros j Hj Hle. apply Hrest; [assumption | lia].
  - intros j Hj Hjlt Hne. rewrite HPn in Hjlt.
    destruct (Z.eq_dec (P j) (P i)) as [E | Hneq].
    + apply P_inj in E; auto. subst j.
      exists w. split; [assumption|]. left. lia.
    + apply Hdone; auto. lia.
Qed.

Lemma repair_move (t : table) gap i w :
  repair_inv t gap i -> slot t i = Some w -> P i < e ->
  ~ (P gap < P (idl w) <= P i) ->
  repair_inv (shift_entry t gap i w) i (cadd n0 i 1).
Proof.
  intros [Hs Hc Hsz Hmin Hmax Hlive Hgr Hir Hord Hgap Hrest Hdone Hu Hh]
    Hw Hlt Harc.
  pose proof (gs_g _ _ _ H0) as Hg. pose proof (gs_e _ _ _ H0) as He.
  pose proof n0_pos as Hn. pose proof (shape_len t Hs) as Hlen.
  rewrite Hc in Hlen.
  assert (HPn : P (cadd n0 i 1) = P i + 1) by (apply cdist_next; lia).
  assert (Hgi : gap <> i) by (intros ->; lia).
  assert (Hslot : forall j, slot (shift_entry t gap i w) j =
            if decide (j = gap) then Some w
            else if decide (j = i) then None else slot t j).
  { intros j. apply slot_shift_entry; lia. }
  assert (Hw0 : slot T0 i = Some w) by (rewrite <- Hrest; auto; lia).
  destruct (gap_positions i w Hw0) as [Hpos _]. specialize (Hpos Hlt).
  split.
  - apply shape_shift_entry; auto; lia.
  - exact Hc.
  - exact Hsz.
  - exact Hmin.
  - exact Hmax.
  - rewrite <- Hlive.
    destruct (bucket_view t gap Hs ltac:(lia)) as (bg & Hbg & Hvg).
    destruct (bucket_view t i Hs ltac:(lia)) as (bi & Hbi & Hvi).
    rewrite Hgap in Hvg. rewrite Hw in Hvi. destruct Hvi as [Hvi _].
    apply (live_count_shift_entry t gap i w bg bi); auto; lia.
  - assumption.
  - apply cadd_range, Hn.
  - lia.
  - rewrite Hslot. destruct (decide (i = gap)); [congruence|].
    now destruct (decide (i = i)).
  - intros j Hj Hle. rewrite Hslot.
    destruct (decide (j = gap)) as [-> | _]; [lia|].
    destruct (decide (j = i)) as [-> | _]; [lia|].
    apply Hrest; [assumption | lia].
  - intros j Hj Hjlt Hne. rewrite HPn in Hjlt. rewrite Hslot.
    destruct (decide (j = gap)) as [-> | Hjg].
    + exists w. split; [reflexivity|].
      destruct (Z_le_dec (P (idl w)) (P gap)) as [Hq | Hq].
      * left. lia.
      * right. split; [lia|]. split; [lia|].
        intros x Hx Hle. apply (gap_tail i w x Hw0); auto. lia.
    + destruct (decide (j = i)) as [-> | Hjne]; [congruence|].
      assert (Hji : P j < P i).
      { destruct (Z.eq_dec (P j) (P i)) as [E | Hneq]; [|lia].
        apply P_inj in E; [contradiction | assumption | assumption]. }
      destruct (Hdone j Hj Hji Hjg) as (u & Hu' & Hcase).
      exists u. split; [assumption|].
      destruct Hcase as [[Hq1 Hq2] | (Hq1 & Hq2 & Hq3)].
      * left. lia.
      * right. split; [lia|]. split; [lia | assumption].
  - intros a b u v. rewrite !Hslot.
    destruct (decide (a = gap)) as [-> | Ha],
             (decide (b = gap)) as [-> | Hb]; try (intros; reflexivity).
    + destruct (decide (b = i)) as [-> | Hbi]; [discriminate|].
      intros [= <-] Hv Huv. exfalso. apply Hbi. symmetry.
      now apply (Hu i b w v).
    + destruct (decide (a = i)) as [-> | Hai]; [discriminate|].
      intros Hu' [= <-] Huv. exfalso. apply Hai.
      now apply (Hu a i u w).
    + destruct (decide (a = i)) as [-> | Hai]; [discriminate|].
      destruct (decide (b = i)) as [-> | Hbi]; [discriminate|].
      apply Hu.
  - intros u. rewrite <- Hh. split.
    + intros [j Hj]. rewrite Hslot in Hj.
      destruct (decide (j = gap)) as [-> | Hjg].
      * injection Hj as <-. now exists i.
      * destruct (decide (j = i)); [discriminate|]. now exists j.
    + intros [j Hj]. destruct (Z.eq_dec j i) as [-> | Hji].
      * exists gap. rewrite Hslot.
        destruct (decide (gap = gap)); congruence.
      * exists j. rewrite Hslot.
        destruct (decide (j = gap)) as [-> | _]; [congruence|].
        now destruct (decide (j = i)).
Qed.

Lemma repair_final (t : table) gap i :
  repair_inv t gap i -> P i = e -> repaired T0 t.
Proof.
  intros [Hs Hc Hsz Hmin Hmax Hlive Hgr Hir Hord Hgap Hrest Hdone Hu Hh]
    Hend.
  pose proof (gs_g _ _ _ H0) as Hg. pose proof (gs_e _ _ _ H0) as He.
  pose proof n0_pos as Hn.
  split; auto.
  apply probe_run_alt; [assumption|]. rewrite Hc.
  intros j w x Hw Hx Hle.
  rewrite (ideal_count t T0 w Hc) in Hle.
  pose proof (slot_range t Hs j w Hw) as Hj. rewrite Hc in Hj.
  rewrite (in_path_pos n0 Hn g (idl w) j x Hg (idl_range w) Hj Hx) in Hle.
  pose proof (P_range j). pose proof (P_range x).
  pose proof (P_range (idl w)).
  destruct (Z_lt_dec (P j) e) as [Hlt | Hge].
  - assert (Hjg : j <> gap) by (intros ->; congruence).
    destruct (Hdone j Hj ltac:(lia) Hjg) as (u & Hu' & Hcase).
    assert (u = w) by congruence. subst u.
    destruct Hcase as [[Hq1 Hq2] | (Hq1 & Hq2 & Hq3)].
    + assert (Hxg : x <> gap).
      { intros ->. destruct (Z.eq_dec (P gap) (P j)) as [E | Hne].
        - apply P_inj in E; [congruence | assumption | assumption].
        - lia. }
      destruct (Hdone x Hx ltac:(lia) Hxg) as (u & -> & _). discriminate.
    + destruct (Z_le_dec (P (idl w)) (P x)) as [Hqx | Hqx].
      * rewrite Hrest by (auto; lia). now apply Hq3.
      * assert (Hxg : x <> gap) by (intros ->; lia).
        destruct (Hdone x Hx ltac:(lia) Hxg) as (u & -> & _). discriminate.
  - destruct (Z.eq_dec (P j) e) as [E | Hne].
    + rewrite Hrest in Hw by (auto; lia).
      rewrite (gs_end _ _ _ H0 j Hj E) in Hw. discriminate.
    + assert (Hw0 : slot T0 j = Some w) by (rewrite <- Hrest; auto; lia).
      destruct (gap_positions j w Hw0) as [_ Hpos].
      specialize (Hpos ltac:(lia)).
      rewrite Hrest by (auto; lia).
      apply (gs_paths _ _ _ H0 j w x Hw0 Hx).
      * rewrite (in_path_pos n0 Hn g (idl w) j x Hg (idl_range w) Hj Hx).
        lia.
      * intros ->. rewrite P_g in Hle. lia.
Qed.

Lemma repair_loop :
  forall (m : nat) (t : table) gap i fuel,
    repair_inv t gap i -> Z.of_nat m = e - P i -> (m < fuel)%nat ->
    exists t',
      erase_shift hash_ extract_ fuel t (Some gap) i = Some t' /\
      repaired T0 t'.
Proof.
  pose proof (gs_g _ _ _ H0) as Hg. pose proof (gs_e _ _ _ H0) as He.
  pose proof n0_pos as Hn.
  induction m as [|m IH]; intros t gap i fuel Hinv Hm Hfuel;
    (destruct fuel as [|fuel]; [lia|]).
  - exists t. split; [|apply (repair_final t gap i Hinv); lia].
    apply erase_shift_stop; [apply Hinv | |].
    + rewrite (ri_count _ _ _ Hinv). apply Hinv.
    + rewrite (ri_rest _ _ _ Hinv) by (try apply Hinv; lia).
      apply (gs_end _ _ _ H0); [apply Hinv | lia].
  - pose proof (ri_order _ _ _ Hinv) as Hord.
    pose proof (ri_index_range _ _ _ Hinv) as Hir.
    pose proof (ri_gap_range _ _ _ Hinv) as Hgr.
    pose proof (ri_count _ _ _ Hinv) as Hc.
    pose proof (P_range gap).
    destruct (slot t i) as [w|] eqn:Hw.
    2:{ rewrite (ri_rest _ _ _ Hinv) in Hw by (auto; lia).
        exfalso. apply (gs_run _ _ _ H0 i Hir); [lia | assumption]. }
    rewrite (erase_shift_step fuel t gap i w) by
      (try apply Hinv; try rewrite Hc; assumption).
    rewrite (ideal_count t T0 w Hc).
    rewrite index_add_cadd, Hc by apply Hinv.
    assert (HPn : P (cadd n0 i 1) = P i + 1) by (apply cdist_next; lia).
    destruct (shift_cond gap i (idl w)) eqn:Hcond.
    + apply (shift_cond_pos n0 g gap i (idl w)) in Hcond;
        auto using idl_range; [|lia].
      apply IH; [|lia|lia].
      apply repair_move; auto. lia.
    + assert (Harc : P gap < P (idl w) <= P i).
      { destruct (Z_lt_dec (P gap) (P (idl w))) as [H1|H1];
          [destruct (Z_le_dec (P (idl w)) (P i)) as [H2|H2]|];
          [lia | |].
        - assert (Hc' : shift_cond gap i (idl w) = true).
          { apply (shift_cond_pos n0 g gap i (idl w));
              auto using idl_range; lia. }
          congruence.
        - assert (Hc' : shift_cond gap i (idl w) = true).
          { apply (shift_cond_pos n0 g gap i (idl w));
              auto using idl_range; lia. }
          congruence. }
      apply IH; [|lia|lia].
      apply (repair_keep t gap i w); auto. lia.
Qed.

(** The repair pass, started right after the emptied slot. *)
Lemma erase_shift_repairs :
  exists t',
    erase_shift hash_ extract_ (probe_fuel T0) T0 (Some g)
      (cadd n0 g 1) = Some t' /\
    repaired T0 t'.
Proof.
  pose proof (gs_g _ _ _ H0) as Hg. pose proof (gs_e _ _ _ H0) as He.
  pose proof n0_pos as Hn.
  assert (HP1 : P (cadd n0 g 1) = 1) by (apply cdist_cadd; lia).
  apply (repair_loop (Z.to_nat (e - 1))).
  - apply repair_init.
  - lia.
  - unfold probe_fuel. pose proof (shape_len T0 (gs_shape _ _ _ H0)). lia.
Qed.

End repair.

(** ** erase *)

Lemma erase_unfold fuel (t : table) key :
  erase hash_ equal_ extract_ fuel t key =
  match erase_probe equal_ extract_ (probe_fuel t) t key
          (index_from_key hash_ t key) with
  | Some (t1, erased_index, erased_count, index) =>
      match erase_shift hash_ extract_ (probe_fuel t1) t1 erased_index
              index with
      | Some t2 =>
          match (if (size_ t2 <? min_size_ t2) && (16 <? size_ t2)
                 then rehash hash_ extract_ fuel t2 (bucket_count_ t2 / 2)
                 else Some t2) with
          | Some t3 => Some (t3, erased_count)
          | None => None
          end
      | None => None
      end
  | None => None
  end.
Proof. reflexivity. Qed.

Lemma shrink_ok fuel (t : table) :
  wf t ->
  exists t',
    (if shrinks t then rehash hash_ extract_ (S fuel) t (bucket_count_ t / 2)
     else Some t) = Some t' /\
    wf t' /\ size_ t' = size_ t /\
    (forall w, holds t' w <-> holds t w) /\
    bucket_count_ t' =
      (if shrinks t then bucket_count_ t / 2 else bucket_count_ t) /\
    (shrinks t = false -> t' = t).
Proof.
  intros Hwf. destruct (shrinks t) eqn:Hsh.
  - unfold shrinks in Hsh. apply andb_true_iff in Hsh as [H1 H2].
    apply Z.ltb_lt in H1, H2.
    pose proof (wf_size_range t Hwf) as Hsz.
    destruct (shape_cap t (wf_shape t Hwf)) as (k & Hk & Ek).
    assert (Hk1 : 1 <= k).
    { destruct (Z.eq_dec k 0) as [-> | Hne]; [|lia].
      change (2 ^ 0) with 1 in Ek. lia. }
    assert (Ehalf : bucket_count_ t / 2 = 2 ^ (k - 1)).
    { rewrite Ek. replace k with (k - 1 + 1) at 1 by lia.
      rewrite Z.pow_add_r by lia. change (2 ^ 1) with 2.
      apply Z.div_mul. lia. }
    rewrite Ehalf.
    destruct (rehash_good fuel t (k - 1)) as (t' & Hre & Hwf' & Hc & Hs & Hh).
    + assumption.
    + lia.
    + rewrite (wf_min t Hwf), Ek in H1.
      replace k with (k - 1 + 1) in H1 at 1 by lia.
      rewrite Z.pow_add_r in H1 by lia. change (2 ^ 1) with 2 in H1.
      rewrite Z.mul_comm in H1.
      pose proof (Z.pow_pos_nonneg 2 (k - 1)).
      pose proof (min_size_of_half (2 ^ (k - 1))). lia.
    + exists t'. split; [assumption|]. split; [assumption|].
      split; [assumption|]. split; [assumption|]. split; [assumption|].
      intros [=].
  - exists t. split; [reflexivity|]. split; [assumption|].
    split; [reflexivity|]. split; [reflexivity|]. split; reflexivity.
Qed.

(** [erase] of a key the table does not hold. *)
Lemma erase_absent fuel (t : table) key :
  wf t -> ~ present t key ->
  erase hash_ equal_ extract_ fuel t key =
  match (if shrinks t
         then rehash hash_ extract_ fuel t (bucket_count_ t / 2)
         else Some t) with
  | Some t' => Some (t', 0)
  | None => None
  end.
Proof.
  intros Hwf Habs. pose proof (wf_shape t Hwf) as Hs.
  pose proof (index_from_key_range t Hs key) as Hh.
  rewrite erase_unfold, erase_probe_scan by assumption.
  pose proof (scan_total t (matches key) _ Hs (wf_has_free t Hwf) Hh)
    as Hscan.
  remember (scan (probe_fuel t) t (matches key) (index_from_key hash_ t key))
    as r eqn:Hr.
  destruct Hscan as [d Hd Hpath Hfree | d w Hd Hpath Hw Hm].
  - cbv beta iota. unfold probe_fuel.
    rewrite erase_shift_stop;
      [reflexivity | assumption | apply cadd_range, shape_pos, Hs
      | assumption].
  - exfalso. apply Habs.
    exists (cadd (bucket_count_ t) (index_from_key hash_ t key) d), w.
    split; [exact Hw | exact Hm].
Qed.

(** The table between the two loops of [erase]. *)
Lemma removed_gap_state (t : table) g vg :
  wf t -> slot t g = Some vg ->
  exists e, gap_state (removed t g) g e.
Proof.
  intros Hwf Hvg. pose proof (wf_shape t Hwf) as Hs.
  pose proof (shape_pos t Hs) as Hn.
  pose proof (slot_range t Hs g vg Hvg) as Hg.
  set (T0 := removed t g).
  assert (Hs0 : shape T0) by (apply shape_removed; auto; lia).
  assert (Hslot : forall j, slot T0 j =
            if decide (j = g) then None else slot t j).
  { intros j. apply slot_removed. lia. }
  assert (Hgap : slot T0 g = None).
  { rewrite Hslot. now destruct (decide (g = g)). }
  change (bucket_count_ T0) with (bucket_count_ t) in *.
  destruct (wf_has_free t Hwf) as (e0 & He0 & Hfree0).
  assert (He0g : e0 <> g) by congruence.
  set (g1 := cadd (bucket_count_ t) g 1).
  assert (Hg1 : 0 <= g1 < bucket_count_ t) by apply cadd_range, Hn.
  assert (Hfree : has_free T0) by (exists g; auto).
  pose proof (scan_total T0 (fun _ => false) g1 Hs0 Hfree Hg1) as Hscan.
  remember (scan (probe_fuel T0) T0 (fun _ => false) g1) as r eqn:Hr.
  change (bucket_count_ T0) with (bucket_count_ t) in *.
  destruct Hscan as [d Hd Hpath Hnone | d w Hd Hpath Hw Hp];
    [|discriminate].
  assert (Hstep : forall x, cadd (bucket_count_ t) g1 x =
            cadd (bucket_count_ t) g (x + 1)).
  { intros x. unfold g1. rewrite cadd_cadd. f_equal. lia. }
  pose proof (cdist_range (bucket_count_ t) Hn g e0) as Hp0.
  assert (Hp0' : 0 < cdist (bucket_count_ t) g e0).
  { destruct (Z.eq_dec (cdist (bucket_count_ t) g e0) 0) as [E|]; [|lia].
    exfalso. apply He0g.
    apply (cdist_inj (bucket_count_ t) g e0 g); auto.
    now rewrite cdist_self. }
  assert (Hde : d + 1 <= cdist (bucket_count_ t) g e0).
  { destruct (Z_le_dec (d + 1) (cdist (bucket_count_ t) g e0)); [lia|].
    destruct (Hpath (cdist (bucket_count_ t) g e0 - 1)) as (u & Hu & _);
      [lia|].
    rewrite Hstep in Hu.
    replace (cdist (bucket_count_ t) g e0 - 1 + 1)
      with (cdist (bucket_count_ t) g e0) in Hu by lia.
    rewrite cadd_cdist in Hu by lia.
    rewrite Hslot in Hu. destruct (decide (e0 = g)); congruence. }
  exists (d + 1). split.
  - assumption.
  - assumption.
  - change (bucket_count_ T0) with (bucket_count_ t). lia.
  - assumption.
  - change (bucket_count_ T0) with (bucket_count_ t).
    intros j Hj Hpj.
    destruct (Hpath (cdist (bucket_count_ t) g j - 1)) as (u & Hu & _);
      [lia|].
    rewrite Hstep in Hu.
    replace (cdist (bucket_count_ t) g j - 1 + 1)
      with (cdist (bucket_count_ t) g j) in Hu by lia.
    rewrite cadd_cdist in Hu by lia. congruence.
  - change (bucket_count_ T0) with (bucket_count_ t).
    intros j Hj Hpj. rewrite Hstep in Hnone.
    rewrite <- Hpj, cadd_cdist in Hnone by lia. assumption.
  - change (bucket_count_ T0) with (bucket_count_ t).
    change (ideal T0) with (ideal t).
    intros j w x Hw Hx Hle Hxg.
    rewrite Hslot in Hw. destruct (decide (j = g)); [discriminate|].
    rewrite Hslot. destruct (decide (x = g)); [contradiction|].
    pose proof (proj1 (probe_run_alt t Hs) (wf_probe t Hwf)) as Halt.
    now apply (Halt j w x).
  - intros i j v w. rewrite !Hslot.
    destruct (decide (i = g)); [discriminate|].
    destruct (decide (j = g)); [discriminate|].
    apply (wf_unique t Hwf).
Qed.

Lemma removed_size (t : table) g vg :
  wf t -> slot t g = Some vg ->
  size_ (removed t g) = size_ t - 1 /\
  S (live_count (buckets_ (removed t g))) = live_count (buckets_ t).
Proof.
  intros Hwf Hvg. pose proof (wf_shape t Hwf) as Hs.
  pose proof (slot_range t Hs g vg Hvg) as Hg.
  destruct (bucket_view t g Hs Hg) as (b & Hb & Hview).
  rewrite Hvg in Hview. destruct Hview as [Hflag _].
  pose proof (live_count_removed t g b Hb Hflag) as Hlive.
  split; [|assumption].
  unfold removed. simpl. apply wrap64_small.
  pose proof (wf_size_range t Hwf). pose proof (shape_le t Hs).
  rewrite (wf_size t Hwf) in *. lia.
Qed.

(** [erase] of a key the table holds, up to the shrink test. *)
Lemma erase_present fuel (t : table) key :
  wf t -> present t key ->
  exists g vg t2,
    slot t g = Some vg /\ matches key vg = true /\
    wf t2 /\ size_ t2 = size_ t - 1 /\
    bucket_count_ t2 = bucket_count_ t /\
    (forall w, holds t2 w <-> exists j, j <> g /\ slot t j = Some w) /\
    erase hash_ equal_ extract_ fuel t key =
    match (if shrinks t2
           then rehash hash_ extract_ fuel t2 (bucket_count_ t2 / 2)
           else Some t2) with
    | Some t' => Some (t', 1)
    | None => None
    end.
Proof.
  intros Hwf Hp. pose proof (wf_shape t Hwf) as Hs.
  pose proof (shape_pos t Hs) as Hn.
  pose proof (index_from_key_range t Hs key) as Hh.
  rewrite erase_unfold, erase_probe_scan by assumption.
  pose proof (scan_total t (matches key) _ Hs (wf_has_free t Hwf) Hh)
    as Hscan.
  remember (scan (probe_fuel t) t (matches key) (index_from_key hash_ t key))
    as r eqn:Hr.
  destruct Hscan as [d Hd Hpath Hfree | d vg Hd Hpath Hvg Hm].
  { exfalso. revert Hp. eapply probe_absent; eauto. apply Hwf. }
  set (g := cadd (bucket_count_ t) (index_from_key hash_ t key) d) in *.
  assert (Hg : 0 <= g < bucket_count_ t) by apply cadd_range, Hn.
  destruct (removed_gap_state t g vg Hwf Hvg) as (e & Hgs).
  destruct (erase_shift_repairs (removed t g) g e Hgs) as (t2 & Hshift & Hrep).
  destruct (removed_size t g vg Hwf Hvg) as [Hsz Hlive].
  exists g, vg, t2. split; [assumption|]. split; [assumption|].
  assert (Hwf2 : wf t2).
  { split.
    - apply Hrep.
    - rewrite (rp_size _ _ Hrep), (rp_live _ _ Hrep), Hsz, (wf_size t Hwf).
      lia.
    - rewrite (rp_min _ _ Hrep), (rp_count _ _ Hrep). apply (wf_min t Hwf).
    - rewrite (rp_max _ _ Hrep), (rp_count _ _ Hrep). apply (wf_max t Hwf).
    - rewrite (rp_size _ _ Hrep), (rp_max _ _ Hrep), Hsz.
      pose proof (wf_band t Hwf).
      change (max_size_ (removed t g)) with (max_size_ t). lia.
    - apply Hrep.
    - apply Hrep. }
  split; [assumption|].
  split; [rewrite (rp_size _ _ Hrep); assumption|].
  split; [apply (rp_count _ _ Hrep)|].
  split.
  - intros w. rewrite (rp_holds _ _ Hrep). split.
    + intros [j Hj]. rewrite slot_removed in Hj by lia.
      destruct (decide (j = g)); [discriminate|]. now exists j.
    + intros (j & Hjg & Hj). exists j. rewrite slot_removed by lia.
      now destruct (decide (j = g)).
  - cbv beta iota. rewrite index_add_cadd by assumption.
    change (bucket_count_ (removed t g)) with (bucket_count_ t) in Hshift.
    rewrite Hshift. reflexivity.
Qed.

(** ** Construction *)

Lemma wf_kernel_new n : 1 <= n <= 2 ^ 63 -> wf (kernel_new n).
Proof.
  intros Hn. change (kernel_new n) with (fresh (upper_power_of_two n)).
  rewrite upper_power_of_two_log2_up by assumption.
  apply wf_fresh. split; [apply Z.log2_up_nonneg|].
  apply Z.log2_up_le_pow2; lia.
Qed.

(** ** A run of inserts *)

(** One public [insert] on a well-formed table. *)
Lemma insert_wf fuel (t : table) v :
  wf t -> bucket_count_ t < 2 ^ 63 ->
  exists t' pos flag,
    insert hash_ equal_ extract_ (S (S fuel)) t v = Some (t', pos, flag) /\
    wf t' /\
    bucket_count_ t' <= 2 * bucket_count_ t /\
    exists w, slot t' pos = Some w /\ matches (extract_ v) w = true.
Proof.
  intros Hwf Hcap. pose proof (wf_shape t Hwf) as Hs.
  pose proof (shape_pos t Hs) as Hn.
  destruct (find_spec t (extract_ v) Hs (wf_has_free t Hwf) (wf_probe t Hwf))
    as [(i & w & Hfind & Hw & Hm) | [Hfind Habs]].
  - assert (Hp : present t (extract_ v)) by (now exists i, w).
    destruct (insert_present (S (S fuel)) t v Hwf Hp)
      as (pos & u & Hins & _ & Hu & Hmu).
    exists t, pos, false. split; [assumption|]. split; [assumption|].
    split; [lia|]. now exists u.
  - destruct (insert_absent fuel t v Hwf Hcap Habs)
      as (t' & pos & Hins & Hwf' & Hpos & _ & _ & Hc).
    exists t', pos, true. split; [assumption|]. split; [assumption|].
    split.
    + rewrite Hc. destruct (size_ t =? max_size_ t); lia.
    + exists v. split; [assumption|]. apply (equal_refl Hkeys).
Qed.

Lemma insert_all_wf fuel values :
  forall t : table,
    wf t ->
    bucket_count_ t * 2 ^ Z.of_nat (length values) <= 2 ^ 63 ->
    exists t', insert_all (S (S fuel)) t values = Some t' /\ wf t'.
Proof.
  induction values as [|v values IH]; intros t Hwf Hcap.
  - now exists t.
  - pose proof (shape_pos t (wf_shape t Hwf)) as Hn.
    assert (Hpow : 0 < 2 ^ Z.of_nat (length values))
      by (apply Z.pow_pos_nonneg; lia).
    replace (Z.of_nat (length (v :: values)))
      with (Z.of_nat (length values) + 1) in Hcap by (simpl; lia).
    rewrite Z.pow_add_r in Hcap by lia. change (2 ^ 1) with 2 in Hcap.
    destruct (insert_wf fuel t v Hwf) as (t' & pos & flag & Hins & Hwf' & Hc & _);
      [nia|].
    destruct (IH t' Hwf') as (t'' & Hall & Hwf''); [nia|].
    exists t''. split; [|assumption].
    change (insert_all (S (S fuel)) t (v :: values)) with
      (match insert hash_ equal_ extract_ (S (S fuel)) t v with
       | Some (t', _, _) => insert_all (S (S fuel)) t' values
       | None => None
       end).
    now rewrite Hins.
Qed.

Lemma present_dec (t : table) key :
  wf t -> present t key \/ ~ present t key.
Proof.
  intros Hwf.
  destruct (find_spec t key (wf_shape t Hwf) (wf_has_free t Hwf)
              (wf_probe t Hwf)) as [(i & w & _ & Hw & Hm) | [_ Habs]].
  - left. now exists i, w.
  - now right.
Qed.

(** [erase] on a well-formed table, both cases. *)
Lemma erase_spec fuel (t : table) key :
  wf t ->
  exists t' c,
    erase hash_ equal_ extract_ (S fuel) t key = Some (t', c) /\ wf t' /\
    ((~ present t key /\ c = 0 /\ size_ t' = size_ t /\
      (forall w, holds t' w <-> holds t w) /\
      bucket_count_ t' =
        (if shrinks t then bucket_count_ t / 2 else bucket_count_ t) /\
      (shrinks t = false -> t' = t))
     \/
     (present t key /\ c = 1 /\ size_ t' = size_ t - 1 /\
      exists g vg, slot t g = Some vg /\ matches key vg = true /\
        forall w, holds t' w <-> exists j, j <> g /\ slot t j = Some w)).
Proof.
  intros Hwf. destruct (present_dec t key Hwf) as [Hp | Habs].
  - destruct (erase_present (S fuel) t key Hwf Hp)
      as (g & vg & t2 & Hvg & Hm & Hwf2 & Hsz2 & Hc2 & Hh2 & Herase).
    destruct (shrink_ok fuel t2 Hwf2) as (t' & Hsh & Hwf' & Hsz & Hh & _ & _).
    rewrite Hsh in Herase.
    exists t', 1. split; [assumption|]. split; [assumption|].
    right. split; [assumption|]. split; [reflexivity|].
    split; [lia|]. exists g, vg. split; [assumption|].
    split; [assumption|]. intros w. now rewrite Hh, Hh2.
  - destruct (shrink_ok fuel t Hwf) as (t' & Hsh & Hwf' & Hsz & Hh & Hc & Hid).
    exists t', 0. split.
    + rewrite (erase_absent (S fuel) t key Hwf Habs). now rewrite Hsh.
    + split; [assumption|]. left. auto 10.
Qed.

Lemma erase_removes_key fuel (t t' : table) key c :
  wf t -> erase hash_ equal_ extract_ (S fuel) t key = Some (t', c) ->
  ~ present t' key.
Proof.
  intros Hwf Herase.
  destruct (erase_spec fuel t key Hwf)
    as (t2 & c2 & Herase2 & Hwf2 & Hcase).
  rewrite Herase in Herase2. injection Herase2 as <- <-.
  destruct Hcase as [(Habs & _ & _ & Hh & _) | (_ & _ & _ & g & vg & Hvg & Hm & Hh)].
  - now rewrite (present_iff_holds t t' Hh).
  - intros Hp. apply present_holds in Hp as (w & Hw & Hmw).
    apply Hh in Hw as (j & Hjg & Hj). apply Hjg. symmetry.
    apply (wf_unique t Hwf g j vg w Hvg Hj).
    unfold matches in *.
    apply (equal_trans Hkeys _ key); [|assumption].
    now apply (equal_sym Hkeys).
Qed.

Lemma shift_cond_arc (s : table) g i h :
  shape s -> 0 <= g < bucket_count_ s -> 0 <= i < bucket_count_ s ->
  0 <= h < bucket_count_ s -> g <> i ->
  shift_cond g i h = true <-> ~ in_arc (bucket_count_ s) g h i.
Proof.
  intros Hs Hg Hi Hh Hgi. pose proof (shape_pos s Hs) as Hn.
  unfold in_arc.
  rewrite (shift_cond_pos (bucket_count_ s) g g i h Hg Hg Hi Hh).
  - now rewrite cdist_self.
  - rewrite cdist_self by assumption.
    pose proof (cdist_range (bucket_count_ s) Hn g i).
    destruct (Z.eq_dec (cdist (bucket_count_ s) g i) 0) as [E|]; [|lia].
    exfalso. apply Hgi.
    apply (cdist_inj (bucket_count_ s) g g i); auto.
    now rewrite cdist_self.
Qed.

(** C2: after every erase on a well-formed table the probe-run
    invariant holds: the scan from the ideal index of each live entry
    to its slot meets occupied slots only.  One step of the repair pass
    stops at an empty slot, and otherwise moves the entry of slot [i]
    into the gap [g] exactly when its ideal index is outside the arc
    from just after [g] up to [i]. *)
Theorem erase_keeps_probe_runs fuel (t : table) key :
  wf t ->
  (exists t' c,
     erase hash_ equal_ extract_ (S fuel) t key = Some (t', c) /\
     wf t' /\ probe_run t') /\
  (forall (s : table) f g i,
     shape s -> 0 <= g < bucket_count_ s -> 0 <= i < bucket_count_ s ->
     g <> i ->
     match slot s i with
     | None => erase_shift hash_ extract_ (S f) s (Some g) i = Some s
     | Some w =>
         (~ in_arc (bucket_count_ s) g (ideal s w) i ->
            erase_shift hash_ extract_ (S f) s (Some g) i =
              erase_shift hash_ extract_ f (shift_entry s g i w) (Some i)
                (index_add s i 1) /\
            slot (shift_entry s g i w) g = Some w /\
            slot (shift_entry s g i w) i = None) /\
         (in_arc (bucket_count_ s) g (ideal s w) i ->
            erase_shift hash_ extract_ (S f) s (Some g) i =
              erase_shift hash_ extract_ f s (Some g) (index_add s i 1))
     end).
Proof.
  intros Hwf. split.
  - destruct (erase_spec fuel t key Hwf) as (t' & c & Herase & Hwf' & _).
    exists t', c. split; [assumption|]. split; [assumption|]. apply Hwf'.
  - intros s f g i Hs Hg Hi Hgi.
    destruct (slot s i) as [w|] eqn:Hw.
    + pose proof (shift_cond_arc s g i (ideal s w) Hs Hg Hi
                    (ideal_range s Hs w) Hgi) as Harc.
      pose proof (shape_len s Hs) as Hlen.
      rewrite (erase_shift_step f s g i w Hs Hi Hg Hw). split.
      * intros Hout. apply Harc in Hout. rewrite Hout.
        split; [reflexivity|]. rewrite !slot_shift_entry by lia.
        destruct (decide (g = g)); [|contradiction].
        destruct (decide (i = g)); [congruence|].
        now destruct (decide (i = i)).
      * intros Hin. destruct (shift_cond g i (ideal s w)) eqn:Hc;
          [|reflexivity].
        exfalso. exact (proj1 Harc eq_refl Hin).
    + now apply erase_shift_stop.
Qed.

(** C3: after [insert e] a lookup by the key of [e] succeeds, at the
    position [insert] returned, and yields an entry with an equivalent
    key; after a following [erase] of that key the lookup returns the
    terminal position. *)
Theorem insert_find_erase_roundtrip fuel (t : table) e :
  wf t -> bucket_count_ t < 2 ^ 63 ->
  exists t1 pos flag,
    insert hash_ equal_ extract_ (S (S fuel)) t e = Some (t1, pos, flag) /\
    (exists v,
       find hash_ equal_ extract_ t1 (extract_ e) = Some pos /\
       pos <> buckets_end t1 /\
       slot t1 pos = Some v /\
       equal_ (extract_ e) (extract_ v) = true) /\
    exists t2 c,
      erase hash_ equal_ extract_ (S fuel) t1 (extract_ e) = Some (t2, c) /\
      find hash_ equal_ extract_ t2 (extract_ e) = Some (buckets_end t2).
Proof.
  intros Hwf Hcap.
  destruct (insert_wf fuel t e Hwf Hcap)
    as (t1 & pos & flag & Hins & Hwf1 & _ & w & Hw & Hm).
  exists t1, pos, flag. split; [assumption|].
  pose proof (wf_shape t1 Hwf1) as Hs1.
  split.
  - assert (Hp : present t1 (extract_ e)) by (now exists pos, w).
    destruct (find_present t1 (extract_ e) Hs1 (wf_has_free t1 Hwf1)
                (wf_probe t1 Hwf1) Hp) as (i & v & Hfind & Hv & Hmv).
    assert (i = pos).
    { apply (wf_unique t1 Hwf1 i pos v w Hv Hw).
      unfold matches in *.
      apply (equal_trans Hkeys _ (extract_ e)); [|assumption].
      now apply (equal_sym Hkeys). }
    subst i. exists v. split; [assumption|]. split; [|split].
    + rewrite buckets_end_count by assumption.
      pose proof (slot_range t1 Hs1 pos v Hv). lia.
    + assumption.
    + exact Hmv.
  - destruct (erase_spec fuel t1 (extract_ e) Hwf1)
      as (t2 & c & Herase & Hwf2 & _).
    exists t2, c. split; [assumption|].
    rewrite buckets_end_count by apply Hwf2.
    apply find_absent; try apply Hwf2.
    + now apply wf_has_free.
    + exact (erase_removes_key fuel t1 t2 (extract_ e) c Hwf1 Herase).
Qed.

(** C6: after [insert] the size is within the load limit.  An insert
    that adds an entry finds the size either below [max_size] and
    keeps the capacity, or equal to [max_size] and doubles the capacity
    before placing; the private [insert] at the limit is [rehash] to
    twice the capacity followed by the retried placement. *)
Theorem insert_size_bound fuel (t : table) v :
  wf t -> bucket_count_ t < 2 ^ 63 ->
  (exists t' pos flag,
     insert hash_ equal_ extract_ (S (S fuel)) t v = Some (t', pos, flag) /\
     size_ t' <= max_size_ t' /\
     (flag = false -> t' = t) /\
     (flag = true ->
        size_ t' = size_ t + 1 /\
        ((size_ t < max_size_ t /\ bucket_count_ t' = bucket_count_ t) \/
         (size_ t = max_size_ t /\
          bucket_count_ t' = 2 * bucket_count_ t)))) /\
  (forall f i,
     size_ t = max_size_ t ->
     insert_impl hash_ extract_ (S f) t v i =
     t' ← rehash hash_ extract_ f t (wrap64 (bucket_count_ t * 2));
     insert_impl hash_ extract_ f t' v (ideal t' v)).
Proof.
  intros Hwf Hcap. split.
  - destruct (present_dec t (extract_ v) Hwf) as [Hp | Habs].
    + destruct (insert_present (S (S fuel)) t v Hwf Hp)
        as (pos & w & Hins & _).
      exists t, pos, false. split; [assumption|].
      split; [apply (wf_band t Hwf)|]. split; [reflexivity|].
      intros [=].
    + destruct (insert_absent fuel t v Hwf Hcap Habs)
        as (t' & pos & Hins & Hwf' & _ & Hsz & _ & Hc).
      exists t', pos, true. split; [assumption|].
      split; [apply (wf_band t' Hwf')|]. split; [intros [=]|].
      intros _. split; [assumption|].
      pose proof (wf_band t Hwf).
      destruct (Z.eqb_spec (size_ t) (max_size_ t)); [right | left];
        split; auto; lia.
  - intros f i Hfull. rewrite insert_impl_unfold.
    now rewrite Hfull, Z.eqb_refl.
Qed.

(** A table of [2^63] buckets at its load limit cannot take another
    entry: the doubled bucket count wraps to 0, [rehash(0)] makes a
    table without buckets, and the re-placement of the first entry
    recurses through [rehash(0)] without end. *)
Lemma insert_impl_fresh_zero fuel v :
  forall i, insert_impl hash_ extract_ fuel (fresh 0) v i = None.
Proof.
  induction fuel as [|fuel IH]; intros i; [reflexivity|].
  rewrite insert_impl_unfold.
  change (size_ (fresh 0) =? max_size_ (fresh 0)) with true. cbv iota.
  rewrite rehash_unfold.
  change (wrap64 (bucket_count_ (fresh 0) * 2)) with 0.
  change (upper_power_of_two 0) with 0.
  change (buckets_ (fresh 0)) with (@nil bucket).
  change (rehash_sweep hash_ extract_ (ins fuel) 0 [] (fresh 0))
    with (Some (fresh 0)).
  apply IH.
Qed.

Lemma rehash_sweep_stuck g count :
  (forall v i, g (fresh 0) v i = None) ->
  forall rest : list bucket,
    Forall flag_ok rest -> (0 < live_count rest)%nat ->
    rehash_sweep hash_ extract_ g count rest (fresh 0) = None.
Proof.
  intros Hg. induction rest as [|b rest IH]; intros Hflags Hc;
    simpl in Hc; [lia|].
  apply Forall_cons in Hflags as [Hb Hflags].
  destruct (has_value b) eqn:Hflag.
  - destruct (Hb Hflag) as [v Hv].
    change (rehash_sweep hash_ extract_ g count (b :: rest) (fresh 0))
      with (if has_value b then
              value ← memory b;
              t ← g (fresh 0) value (ideal (fresh 0) value);
              if bucket_count_ t =? count
              then rehash_sweep hash_ extract_ g count rest t
              else Some t
            else rehash_sweep hash_ extract_ g count rest (fresh 0)).
    rewrite Hflag, Hv. simpl. now rewrite Hg.
  - rewrite rehash_sweep_dead by exact Hflag. apply IH; [exact Hflags | lia].
Qed.

Lemma insert_impl_top fuel (t : table) v i :
  wf t -> bucket_count_ t = 2 ^ 63 -> size_ t = max_size_ t ->
  insert_impl hash_ extract_ fuel t v i = None.
Proof.
  intros Hwf Hcap Hfull. destruct fuel as [|fuel]; [reflexivity|].
  rewrite insert_impl_unfold.
  destruct (Z.eqb_spec (size_ t) (max_size_ t)) as [_|Hne];
    [|contradiction].
  rewrite rehash_unfold, Hcap.
  change (wrap64 (2 ^ 63 * 2)) with 0.
  change (upper_power_of_two 0) with 0.
  rewrite rehash_sweep_stuck; [reflexivity | | |].
  - intros w j. unfold ins. now rewrite insert_impl_fresh_zero.
  - apply (shape_flags t (wf_shape t Hwf)).
  - assert (Hpos : 0 < max_size_of (2 ^ 63)) by reflexivity.
    pose proof (wf_size t Hwf) as Hsz. pose proof (wf_max t Hwf) as Hmax.
    rewrite Hcap in Hmax. lia.
Qed.

(** Whenever the public [insert] returns, the container it returns is
    well-formed. *)
Lemma insert_safe fuel (t t' : table) v pos flag :
  wf t ->
  insert hash_ equal_ extract_ (S (S fuel)) t v = Some (t', pos, flag) ->
  wf t'.
Proof.
  intros Hwf Hins. pose proof (wf_shape t Hwf) as Hs.
  destruct (present_dec t (extract_ v) Hwf) as [Hp | Habs].
  - destruct (insert_present (S (S fuel)) t v Hwf Hp) as (p & w & Hins' & _).
    rewrite Hins' in Hins. now injection Hins as <- _ _.
  - destruct (Z_lt_dec (bucket_count_ t) (2 ^ 63)) as [Hlt | Hge].
    + destruct (insert_absent fuel t v Hwf Hlt Habs)
        as (t1 & p & Hins' & Hwf1 & _).
      rewrite Hins' in Hins. now injection Hins as <- _ _.
    + pose proof (shape_le t Hs) as Hle.
      rewrite insert_unfold in Hins.
      rewrite (find_absent t (extract_ v) Hs (wf_has_free t Hwf)
                 (wf_probe t Hwf) Habs) in Hins.
      rewrite buckets_end_count, Z.eqb_refl in Hins by exact Hs.
      destruct (Z.eq_dec (size_ t) (max_size_ t)) as [Hfull | Hroom].
      * rewrite (insert_impl_top (S (S fuel)) t v (ideal t v) Hwf) in Hins;
          [discriminate | lia | exact Hfull].
      * pose proof (wf_band t Hwf) as Hband.
        destruct (insert_impl_place t v (S fuel) Hwf) as
          (f & Himpl & _ & _ & Hwf1); [lia | exact Habs |].
        rewrite Himpl in Hins. now injection Hins as <- _ _.
Qed.

Lemma insert_all_safe fuel values :
  forall t t' : table,
    wf t -> insert_all (S (S fuel)) t values = Some t' -> wf t'.
Proof.
  induction values as [|v values IH]; intros t t' Hwf Hall.
  - simpl in Hall. now injection Hall as <-.
  - change (insert_all (S (S fuel)) t (v :: values)) with
      (match insert hash_ equal_ extract_ (S (S fuel)) t v with
       | Some (t1, _, _) => insert_all (S (S fuel)) t1 values
       | None => None
       end) in Hall.
    destruct (insert hash_ equal_ extract_ (S (S fuel)) t v)
      as [[[t1 pos] flag]|] eqn:Hins; [|discriminate].
    exact (IH t1 t' (insert_safe fuel t t1 v pos flag Hwf Hins) Hall).
Qed.

(** A run of inserts comes back when the entries it can add fit under
    the load limit of [2^62] buckets. *)
Lemma insert_all_total fuel values :
  forall t : table,
    wf t -> bucket_count_ t < 2 ^ 63 ->
    size_ t + Z.of_nat (length values) <= max_size_of (2 ^ 62) ->
    exists t', insert_all (S (S fuel)) t values = Some t'.
Proof.
  remember (max_size_of (2 ^ 62)) as bound eqn:Hbound.
  induction values as [|v values IH]; intros t Hwf Hcap Hlen.
  - now exists t.
  - replace (Z.of_nat (length (v :: values)))
      with (Z.of_nat (length values) + 1) in Hlen by (simpl; lia).
    change (insert_all (S (S fuel)) t (v :: values)) with
      (match insert hash_ equal_ extract_ (S (S fuel)) t v with
       | Some (t1, _, _) => insert_all (S (S fuel)) t1 values
       | None => None
       end).
    destruct (present_dec t (extract_ v) Hwf) as [Hp | Habs].
    + destruct (insert_present (S (S fuel)) t v Hwf Hp) as (p & w & Hins & _).
      rewrite Hins. apply IH; [exact Hwf | exact Hcap | lia].
    + destruct (insert_absent fuel t v Hwf Hcap Habs)
        as (t1 & p & Hins & Hwf1 & _ & Hsz & _ & Hc).
      rewrite Hins. apply IH; [exact Hwf1 | | lia].
      destruct (Z.eqb_spec (size_ t) (max_size_ t)) as [Hfull | _];
        [|now rewrite Hc].
      destruct (shape_cap_lt t (wf_shape t Hwf) Hcap) as (k & Hk & Ek).
      assert (Hk61 : k <= 61).
      { destruct (Z.eq_dec k 62) as [-> | Hne]; [|lia].
        rewrite (wf_max t Hwf), Ek, <- Hbound in Hfull. lia. }
      rewrite Hc, Ek.
      replace (2 * 2 ^ k) with (2 ^ (k + 1))
        by (rewrite Z.pow_add_r by lia; change (2 ^ 1) with 2; lia).
      apply Z.pow_lt_mono_r; lia.
Qed.

(** C7: every run of inserts, of whatever length, leaves the container
    well-formed when it comes back, so that runs chain: the live entries
    keep pairwise inequivalent keys, and inserting an entry whose key is
    present leaves the container (and so the size) unchanged and returns
    the position of the entry that holds the key, with the flag "not
    inserted".  The run comes back whenever the entries it can add fit
    under the load limit of [2^62] buckets, and a single insert comes
    back on every table of fewer than [2^63] buckets; only the doubling
    of [2^63] buckets, which wraps to 0, does not. *)
Theorem insert_keeps_keys_unique fuel (t : table) values :
  wf t ->
  (forall t',
     insert_all (S (S fuel)) t values = Some t' ->
     wf t' /\ unique_keys t' /\
     forall v, present t' (extract_ v) ->
       exists pos w,
         insert hash_ equal_ extract_ (S (S fuel)) t' v
           = Some (t', pos, false) /\
         slot t' pos = Some w /\
         equal_ (extract_ v) (extract_ w) = true) /\
  (bucket_count_ t < 2 ^ 63 ->
   size_ t + Z.of_nat (length values) <= max_size_of (2 ^ 62) ->
   exists t', insert_all (S (S fuel)) t values = Some t') /\
  (bucket_count_ t < 2 ^ 63 ->
   forall v, exists t' pos flag,
     insert hash_ equal_ extract_ (S (S fuel)) t v = Some (t', pos, flag) /\
     wf t' /\ unique_keys t').
Proof.
  intros Hwf. split; [|split].
  - intros t' Hall.
    pose proof (insert_all_safe fuel values t t' Hwf Hall) as Hwf'.
    split; [exact Hwf'|]. split; [apply (wf_unique t' Hwf')|].
    intros v Hp.
    destruct (insert_present (S (S fuel)) t' v Hwf' Hp)
      as (pos & w & Hins & _ & Hw & Hm).
    now exists pos, w.
  - intros Hcap Hlen. now apply insert_all_total.
  - intros Hcap v.
    destruct (insert_wf fuel t v Hwf Hcap)
      as (t' & pos & flag & Hins & Hwf' & _).
    exists t', pos, flag. split; [exact Hins|].
    split; [exact Hwf' | apply (wf_unique t' Hwf')].
Qed.

(** ** operator[] *)

Section subscript.
Context {Mapped : Type}.
Variable mapped_extract_ : Value -> Mapped.

(** C10: [operator[]] leaves the container as it was, for a present
    and for an absent key alike.  On a well-formed table it reads the
    slot of the entry when the key is present; when the key is absent
    it inserts nothing and indexes the bucket vector at the bucket
    count, one past the last slot, where there is no bucket. *)
Theorem subscript_never_inserts (t : table) key :
  (forall a,
     subscript hash_ equal_ extract_ mapped_extract_ t key = Some a ->
     access_state a = t /\
     size_ (access_state a) = size_ t /\
     buckets_ (access_state a) = buckets_ t) /\
  (wf t ->
   exists a,
     subscript hash_ equal_ extract_ mapped_extract_ t key = Some a /\
     (present t key ->
        exists w, slot t (access_index a) = Some w /\
          equal_ key (extract_ w) = true /\
          access_mapped a = Some (mapped_extract_ w)) /\
     (~ present t key ->
        access_index a = bucket_count_ t /\
        access_index a = buckets_end t /\
        bucket_at t (access_index a) = None /\
        access_mapped a = None)).
Proof.
  split.
  - intros a. unfold subscript.
    destruct (find_impl equal_ extract_ t key _) as [i|]; [|discriminate].
    simpl. intros [= <-]. auto.
  - intros Hwf. pose proof (wf_shape t Hwf) as Hs.
    unfold subscript.
    change (find_impl equal_ extract_ t key (index_from_key hash_ t key))
      with (find hash_ equal_ extract_ t key).
    destruct (find_spec t key Hs (wf_has_free t Hwf) (wf_probe t Hwf))
      as [(i & w & Hfind & Hw & Hm) | [Hfind Habs]].
    + rewrite Hfind. simpl. eexists. split; [reflexivity|]. simpl. split.
      * intros _. exists w. split; [assumption|]. split; [assumption|].
        unfold slot in Hw.
        destruct (bucket_at t i) as [b|]; [|discriminate]. simpl in *.
        unfold live in Hw. destruct (has_value b); [|discriminate].
        now rewrite Hw.
      * intros Habs. exfalso. apply Habs. now exists i, w.
    + rewrite Hfind. simpl. eexists. split; [reflexivity|]. simpl. split.
      * intros Hp. contradiction.
      * intros _.
        assert (Hnone : bucket_at t (bucket_count_ t) = None).
        { destruct (bucket_at t (bucket_count_ t)) as [b|] eqn:Hb;
            [|reflexivity].
          apply bucket_at_Some in Hb. rewrite (shape_len t Hs) in Hb.
          lia. }
        split; [reflexivity|].
        split; [now rewrite buckets_end_count|].
        split; [assumption|]. now rewrite Hnone.
Qed.

End subscript.

(** ** clear *)

Lemma clear_loop_trace (t : table) :
  forall (m : nat) index,
    0 <= index ->
    (Z.to_nat index + m <= length (buckets_ t))%nat ->
    exists trace,
      clear_loop m t index = Some trace /\
      length trace = m /\
      forall (k : nat) b,
        (k < m)%nat -> buckets_ t !! (Z.to_nat index + k)%nat = Some b ->
        trace !! k = Some (Destroy (index + Z.of_nat k) (has_value b)).
Proof.
  induction m as [|m IH]; intros index Hi Hlen.
  - exists []. split; [reflexivity|]. split; [reflexivity|]. intros k b Hk. lia.
  - destruct (bucket_at_in_range t index) as [b Hb]; [lia|].
    destruct (IH (index + 1)) as (trace & Hloop & Hl & Htrace); [lia | lia |].
    exists (Destroy index (has_value b) :: trace). split.
    + simpl. rewrite Hb. simpl. now rewrite Hloop.
    + split; [simpl; now rewrite Hl|].
      intros [|k] b' Hk Hb'.
      * rewrite Nat.add_0_r in Hb'. rewrite bucket_at_lookup in Hb by lia.
        assert (b' = b) by congruence. subst b'.
        simpl. now rewrite Z.add_0_r.
      * simpl. rewrite (Htrace k b').
        -- do 2 f_equal. lia.
        -- lia.
        -- rewrite <- Hb'. f_equal. lia.
Qed.

(** [clear] runs the destructor on every bucket, whatever its flag, and
    leaves no bucket behind while the bucket count stays. *)
Lemma clear_spec (t : table) :
  Z.of_nat (length (buckets_ t)) = bucket_count_ t ->
  bucket_count_ t <= INT_MAX ->
  exists t' trace,
    clear t = Some (t', trace) /\
    buckets_ t' = [] /\ bucket_count_ t' = bucket_count_ t /\
    size_ t' = 0 /\
    length trace = length (buckets_ t) /\
    forall (i : nat) b,
      buckets_ t !! i = Some b ->
      trace !! i = Some (Destroy (Z.of_nat i) (has_value b)).
Proof.
  intros Hlen Hmax.
  destruct (clear_loop_trace t (Z.to_nat (bucket_count_ t)) 0)
    as (trace & Hloop & Hl & Htrace); [lia | simpl; lia |].
  unfold clear. destruct (Z.ltb_spec INT_MAX (bucket_count_ t)); [lia|].
  rewrite Hloop. simpl. eexists. exists trace. split; [reflexivity|].
  simpl. split; [reflexivity|]. split; [reflexivity|].
  split; [reflexivity|]. split; [lia|].
  intros i b Hb. pose proof (lookup_lt_Some _ _ _ Hb).
  rewrite (Htrace i b); [reflexivity | lia | assumption].
Qed.

Lemma find_end_absent (t : table) key :
  wf t -> find hash_ equal_ extract_ t key = Some (bucket_count_ t) ->
  ~ present t key.
Proof.
  intros Hwf Hfind. pose proof (wf_shape t Hwf) as Hs.
  destruct (find_spec t key Hs (wf_has_free t Hwf) (wf_probe t Hwf))
    as [(i & w & Hfind' & Hw & _) | [_ Habs]]; [|assumption].
  rewrite Hfind in Hfind'. injection Hfind' as <-.
  apply (slot_range t Hs) in Hw. lia.
Qed.

(** ** Iteration *)

Lemma entries_cons (b : bucket) (l : list bucket) :
  entries (b :: l) =
  match live b with Some v => v :: entries l | None => entries l end.
Proof. reflexivity. Qed.

Lemma entries_length (l : list bucket) :
  Forall flag_ok l -> length (entries l) = live_count l.
Proof.
  induction 1 as [|b l Hb _ IH]; [reflexivity|].
  rewrite entries_cons. unfold live. simpl.
  destruct (has_value b) eqn:E.
  - destruct (Hb E) as [v Hv]. rewrite Hv. simpl. now rewrite IH.
  - exact IH.
Qed.

Lemma entries_holds (t : table) w :
  holds t w <-> w ∈ entries (buckets_ t).
Proof.
  rewrite holds_elem. unfold entries. now rewrite list_elem_of_omap.
Qed.

Lemma entries_drop_live (l : list bucket) (i : nat) b v :
  l !! i = Some b -> live b = Some v ->
  entries (drop i l) = v :: entries (drop (S i) l).
Proof.
  intros Hb Hv. rewrite (drop_S l b i Hb), entries_cons. now rewrite Hv.
Qed.

Lemma entries_drop_dead (l : list bucket) (i : nat) b :
  l !! i = Some b -> live b = None ->
  entries (drop i l) = entries (drop (S i) l).
Proof.
  intros Hb Hv. rewrite (drop_S l b i Hb), entries_cons. now rewrite Hv.
Qed.

Lemma slot_lookup (t : table) (i : nat) b :
  buckets_ t !! i = Some b -> slot t (Z.of_nat i) = live b.
Proof.
  intros Hb. unfold slot. rewrite bucket_at_lookup by lia.
  rewrite Nat2Z.id, Hb. reflexivity.
Qed.

Lemma advance_unfold fuel (t : table) i :
  advance (S fuel) t i =
  if wrap64 (i + 1) =? buckets_end t then Some (wrap64 (i + 1))
  else
    match bucket_at t (wrap64 (i + 1)) with
    | Some b =>
        if has_value b then Some (wrap64 (i + 1))
        else advance fuel t (wrap64 (i + 1))
    | None => None
    end.
Proof. reflexivity. Qed.

Lemma advance_spec (t : table) :
  shape t ->
  forall (m : nat) i fuel,
    0 <= i < bucket_count_ t ->
    Z.of_nat m = bucket_count_ t - (i + 1) -> (m < fuel)%nat ->
    exists j,
      advance fuel t i = Some j /\ i < j <= bucket_count_ t /\
      (forall k, i < k < j -> slot t k = None) /\
      (j = bucket_count_ t \/ exists v, slot t j = Some v) /\
      entries (drop (Z.to_nat j) (buckets_ t))
        = entries (drop (Z.to_nat (i + 1)) (buckets_ t)).
Proof.
  intros Hs. pose proof (shape_le t Hs) as Hle.
  pose proof (shape_len t Hs) as Hlen.
  induction m as [|m IH]; intros i fuel Hi Hm Hf;
    (destruct fuel as [|fuel]; [lia|]);
    rewrite advance_unfold, (wrap64_small (i + 1)) by lia;
    unfold buckets_end; rewrite Hlen.
  - replace (i + 1) with (bucket_count_ t) by lia. rewrite Z.eqb_refl.
    exists (bucket_count_ t). split; [reflexivity|]. split; [lia|].
    split; [intros k Hk; lia|]. split; [now left | reflexivity].
  - destruct (Z.eqb_spec (i + 1) (bucket_count_ t)) as [E|_]; [lia|].
    destruct (bucket_view t (i + 1) Hs) as (b & Hb & Hv); [lia|].
    rewrite Hb.
    destruct (slot t (i + 1)) as [v|] eqn:Hslot.
    + destruct Hv as [Hflag _]. rewrite Hflag.
      exists (i + 1). split; [reflexivity|]. split; [lia|].
      split; [intros k Hk; lia|]. split; [right; now exists v | reflexivity].
    + rewrite Hv.
      destruct (IH (i + 1) fuel) as (j & Hj & Hr & Hgap & Hstop & Hd);
        [lia | lia | lia |].
      exists j. split; [exact Hj|]. split; [lia|].
      split.
      * intros k Hk. destruct (Z.eq_dec k (i + 1)) as [->|]; [exact Hslot|].
        apply Hgap. lia.
      * split; [exact Hstop|]. rewrite Hd.
        rewrite bucket_at_lookup in Hb by lia.
        rewrite (entries_drop_dead _ _ b Hb).
        -- f_equal. f_equal. lia.
        -- unfold live. now rewrite Hv.
Qed.

Lemma traverse_from_unfold fuel (t : table) i :
  traverse_from (S fuel) t i =
  if i =? buckets_end t then Some []
  else
    match iterator_deref t i with
    | Some value =>
        match iterator_next t i with
        | Some next =>
            match traverse_from fuel t next with
            | Some rest => Some (value :: rest)
            | None => None
            end
        | None => None
        end
    | None => None
    end.
Proof. reflexivity. Qed.

Lemma iterator_next_spec (t : table) i :
  shape t -> 0 <= i < bucket_count_ t ->
  exists j,
    iterator_next t i = Some j /\ i < j <= bucket_count_ t /\
    (forall k, i < k < j -> slot t k = None) /\
    (j = bucket_count_ t \/ exists v, slot t j = Some v) /\
    entries (drop (Z.to_nat j) (buckets_ t))
      = entries (drop (Z.to_nat (i + 1)) (buckets_ t)).
Proof.
  intros Hs Hi. pose proof (shape_len t Hs) as Hlen.
  apply (advance_spec t Hs (Z.to_nat (bucket_count_ t - (i + 1))));
    [exact Hi | lia | unfold probe_fuel; lia].
Qed.

Lemma traverse_from_spec (t : table) :
  shape t ->
  forall (m : nat) i fuel,
    0 <= i <= bucket_count_ t ->
    bucket_count_ t - i <= Z.of_nat m -> (m < fuel)%nat ->
    i = bucket_count_ t \/ (exists v, slot t i = Some v) ->
    traverse_from fuel t i
      = Some (entries (drop (Z.to_nat i) (buckets_ t))).
Proof.
  intros Hs. pose proof (shape_len t Hs) as Hlen.
  assert (Hend : forall fuel,
    traverse_from (S fuel) t (bucket_count_ t)
      = Some (entries (drop (Z.to_nat (bucket_count_ t)) (buckets_ t)))).
  { intros fuel. rewrite traverse_from_unfold. unfold buckets_end.
    rewrite Hlen, Z.eqb_refl, drop_ge by lia. reflexivity. }
  induction m as [|m IH]; intros i fuel Hi Hm Hf Hstop;
    (destruct fuel as [|fuel]; [lia|]).
  - replace i with (bucket_count_ t) by lia. apply Hend.
  - destruct Hstop as [->|[v Hv]]; [apply Hend|].
    pose proof (slot_range t Hs _ _ Hv) as Hr.
    rewrite traverse_from_unfold. unfold buckets_end. rewrite Hlen.
    destruct (Z.eqb_spec i (bucket_count_ t)) as [E|_]; [lia|].
    destruct (bucket_view t i Hs Hr) as (b & Hb & Hview).
    rewrite Hv in Hview. destruct Hview as [Hflag Hmem].
    unfold iterator_deref. rewrite Hb. simpl. rewrite Hmem.
    destruct (iterator_next_spec t i Hs Hr) as (j & Hj & Hjr & _ & Hjs & Hd).
    rewrite Hj, (IH j fuel) by (first [lia | exact Hjs]).
    rewrite Hd. rewrite bucket_at_lookup in Hb by lia.
    rewrite (entries_drop_live _ _ b v Hb).
    + replace (Z.to_nat (i + 1)) with (S (Z.to_nat i)) by lia. reflexivity.
    + unfold live. now rewrite Hflag.
Qed.

Lemma first_value_spec :
  forall (l : list bucket) index,
    (0 < live_count l)%nat ->
    exists (k : nat) b,
      first_value l index = Some (index + Z.of_nat k) /\
      l !! k = Some b /\ has_value b = true /\
      (forall (k' : nat) b', (k' < k)%nat -> l !! k' = Some b' ->
         has_value b' = false) /\
      entries (drop k l) = entries l.
Proof.
  induction l as [|b l IH]; intros index Hc; simpl in Hc; [lia|].
  cbn [first_value]. destruct (has_value b) eqn:E.
  - exists O, b. split; [f_equal; lia|]. split; [reflexivity|].
    split; [exact E|]. split; [intros k' b' Hk'; lia | reflexivity].
  - destruct (IH (index + 1)) as (k & b1 & Hf & Hb1 & Hflag & Hbefore & Hd);
      [lia|].
    exists (S k), b1. split; [rewrite Hf; f_equal; lia|].
    split; [exact Hb1|]. split; [exact Hflag|]. split.
    + intros [|k'] b' Hk' Hb'.
      * simpl in Hb'. now injection Hb' as <-.
      * apply (Hbefore k' b'); [lia | exact Hb'].
    + change (drop (S k) (b :: l)) with (drop k l).
      rewrite Hd, entries_cons. unfold live. now rewrite E.
Qed.

Lemma entries_empty (l : list bucket) :
  live_count l = O -> entries l = [].
Proof.
  induction l as [|b l IH]; [reflexivity|]. intros Hc. simpl in Hc.
  rewrite entries_cons. unfold live.
  destruct (has_value b); [lia|]. apply IH. lia.
Qed.

Lemma buckets_begin_spec (t : table) :
  shape t -> size_ t = Z.of_nat (live_count (buckets_ t)) ->
  exists i,
    buckets_begin t = Some i /\ 0 <= i <= bucket_count_ t /\
    (forall k, 0 <= k < i -> slot t k = None) /\
    (i = bucket_count_ t \/ exists v, slot t i = Some v) /\
    (i = bucket_count_ t <-> size_ t = 0) /\
    entries (drop (Z.to_nat i) (buckets_ t)) = entries (buckets_ t).
Proof.
  intros Hs Hsize. pose proof (shape_len t Hs) as Hlen.
  pose proof (shape_pos t Hs) as Hpos.
  unfold buckets_begin, empty.
  destruct (Z.eqb_spec (size_ t) 0) as [E|E].
  - exists (bucket_count_ t). unfold buckets_end. rewrite Hlen.
    split; [reflexivity|]. split; [lia|].
    assert (Hc : live_count (buckets_ t) = O) by lia.
    split.
    + intros k Hk. destruct (bucket_view t k Hs Hk) as (b & Hb & Hview).
      rewrite bucket_at_lookup in Hb by lia.
      pose proof (live_count_none _ Hc _ _ Hb) as Hflag.
      destruct (slot t k); [|reflexivity].
      destruct Hview as [Hview _]. congruence.
    + split; [now left|]. split; [tauto|].
      rewrite drop_ge by lia. now rewrite (entries_empty _ Hc).
  - destruct (first_value_spec (buckets_ t) 0)
      as (k & b & Hf & Hb & Hflag & Hbefore & Hd); [lia|].
    pose proof (lookup_lt_Some _ _ _ Hb) as Hk.
    exists (Z.of_nat k). rewrite Hf. split; [f_equal; lia|].
    split; [lia|]. split.
    + intros k' Hk'.
      destruct (bucket_view t k' Hs) as (b' & Hb' & Hview); [lia|].
      rewrite bucket_at_lookup in Hb' by lia.
      rewrite (Hbefore (Z.to_nat k') b') in Hview; [|lia|exact Hb'].
      destruct (slot t k'); [|reflexivity]. destruct Hview. congruence.
    + split.
      * right. rewrite (slot_lookup t k b Hb). unfold live. rewrite Hflag.
        destruct (proj1 (Forall_lookup _ _) (shape_flags t Hs) k b Hb Hflag)
          as [v Hv].
        now exists v.
      * split; [lia|]. now rewrite Nat2Z.id.
Qed.

Lemma traverse_unfold (t : table) :
  traverse t =
  match buckets_begin t with
  | Some first => traverse_from (probe_fuel t) t first
  | None => None
  end.
Proof. reflexivity. Qed.

Lemma iterator_deref_slot (t : table) i v :
  shape t -> slot t i = Some v -> iterator_deref t i = Some v.
Proof.
  intros Hs Hv.
  destruct (bucket_view t i Hs (slot_range t Hs _ _ Hv)) as (b & Hb & Hview).
  rewrite Hv in Hview. unfold iterator_deref. rewrite Hb. simpl. tauto.
Qed.

Lemma entries_distinct (l : list bucket) :
  distinct_buckets l ->
  forall (i j : nat) v w,
    entries l !! i = Some v -> entries l !! j = Some w ->
    equal_ (extract_ v) (extract_ w) = true -> i = j.
Proof.
  assert (Hin : forall (l : list bucket) (k : nat) w,
    entries l !! k = Some w -> exists b, b ∈ l /\ live b = Some w).
  { intros l0 k w Hw. apply list_elem_of_lookup_2 in Hw.
    now apply list_elem_of_omap in Hw. }
  induction l as [|b l IH]; intros Hd i j v w Hv Hw Heq;
    [discriminate|].
  destruct Hd as [Hhead Htail]. rewrite entries_cons in Hv, Hw.
  destruct (live b) as [u|] eqn:Hu; [|exact (IH Htail i j v w Hv Hw Heq)].
  destruct i as [|i], j as [|j]; simpl in Hv, Hw.
  - reflexivity.
  - injection Hv as ->. destruct (Hin l j w Hw) as (b' & Hb' & Hlive).
    rewrite (Hhead v b' w eq_refl Hb' Hlive) in Heq. discriminate.
  - injection Hw as ->. destruct (Hin l i v Hv) as (b' & Hb' & Hlive).
    apply (equal_sym Hkeys) in Heq.
    rewrite (Hhead w b' v eq_refl Hb' Hlive) in Heq. discriminate.
  - f_equal. exact (IH Htail i j v w Hv Hw Heq).
Qed.

Lemma traverse_entries (t : table) :
  wf t -> traverse t = Some (entries (buckets_ t)).
Proof.
  intros Hwf. pose proof (wf_shape t Hwf) as Hs.
  pose proof (shape_len t Hs) as Hlen.
  destruct (buckets_begin_spec t Hs (wf_size t Hwf))
    as (i & Hbegin & Hi & _ & Hstop & _ & Hd).
  rewrite traverse_unfold, Hbegin, <- Hd.
  apply (traverse_from_spec t Hs (length (buckets_ t)));
    [exact Hi | lia | unfold probe_fuel; lia | exact Hstop].
Qed.

Lemma entries_NoDup (t : table) : wf t -> NoDup (entries (buckets_ t)).
Proof.
  intros Hwf. apply NoDup_alt. intros i j w Hi Hj.
  apply (entries_distinct (buckets_ t)
           (unique_keys_distinct t (wf_unique t Hwf)) i j w w Hi Hj).
  apply (equal_refl Hkeys).
Qed.

(** X2: the loop [for (it = begin(); it != end(); ++it)] over a
    well-formed container terminates and visits the live entries, each
    once and in slot order: it yields as many values as [size()]
    reports, a value is visited exactly when it lives in a slot, and no
    two visited values have equivalent keys. *)
Theorem traverse_visits_entries (t : table) :
  wf t ->
  exists values,
    traverse t = Some values /\
    values = entries (buckets_ t) /\
    Z.of_nat (length values) = size_ t /\
    (forall w, w ∈ values <-> holds t w) /\
    forall (i j : nat) v w,
      values !! i = Some v -> values !! j = Some w ->
      equal_ (extract_ v) (extract_ w) = true -> i = j.
Proof.
  intros Hwf. pose proof (wf_shape t Hwf) as Hs.
  exists (entries (buckets_ t)). split; [now apply traverse_entries|].
  split; [reflexivity|]. split.
  - rewrite (entries_length _ (shape_flags t Hs)).
    symmetry. apply (wf_size t Hwf).
  - split.
    + intros w. symmetry. apply entries_holds.
    + apply entries_distinct, unique_keys_distinct, (wf_unique t Hwf).
Qed.

(** X3: on a well-formed container [begin()] stands on the first
    occupied slot, [operator++] moves to the next occupied slot, and
    each is the terminal position when there is no such slot; the
    value read through the iterator is the entry of the slot.
    Incrementing the terminal position indexes the bucket vector out
    of range. *)
Theorem iterator_steps_to_next_entry (t : table) :
  wf t ->
  (exists i,
     buckets_begin t = Some i /\ 0 <= i <= buckets_end t /\
     (forall k, 0 <= k < i -> slot t k = None) /\
     (i = buckets_end t \/
      exists v, slot t i = Some v /\ iterator_deref t i = Some v)) /\
  (forall i, 0 <= i < buckets_end t ->
     exists j,
       iterator_next t i = Some j /\ i < j <= buckets_end t /\
       (forall k, i < k < j -> slot t k = None) /\
       (j = buckets_end t \/
        exists v, slot t j = Some v /\ iterator_deref t j = Some v)) /\
  iterator_next t (buckets_end t) = None.
Proof.
  intros Hwf. pose proof (wf_shape t Hwf) as Hs.
  pose proof (shape_len t Hs) as Hlen. pose proof (shape_le t Hs) as Hle.
  unfold buckets_end. rewrite Hlen. split.
  - destruct (buckets_begin_spec t Hs (wf_size t Hwf))
      as (i & Hbegin & Hi & Hgap & Hstop & _).
    exists i. split; [exact Hbegin|]. split; [exact Hi|].
    split; [exact Hgap|]. destruct Hstop as [->|[v Hv]]; [now left|].
    right. exists v. split; [exact Hv|]. now apply iterator_deref_slot.
  - split.
    + intros i Hi.
      destruct (iterator_next_spec t i Hs Hi)
        as (j & Hj & Hr & Hgap & Hstop & _).
      exists j. split; [exact Hj|]. split; [exact Hr|].
      split; [exact Hgap|]. destruct Hstop as [->|[v Hv]]; [now left|].
      right. exists v. split; [exact Hv|]. now apply iterator_deref_slot.
    + unfold iterator_next, probe_fuel. rewrite advance_unfold.
      rewrite wrap64_small by lia. unfold buckets_end. rewrite Hlen.
      destruct (Z.eqb_spec (bucket_count_ t + 1) (bucket_count_ t)); [lia|].
      destruct (bucket_at t (bucket_count_ t + 1)) as [b|] eqn:Hb;
        [|reflexivity].
      apply bucket_at_Some in Hb. lia.
Qed.

(** X4: on a well-formed container [empty()] is true exactly when no
    slot holds an entry, that is when no key is present; [begin()] is
    then [end()], and every lookup returns the terminal position. *)
Theorem empty_iff_no_entry (t : table) :
  wf t ->
  (empty t = true <-> forall w, ~ holds t w) /\
  (empty t = true <-> forall key, ~ present t key) /\
  (empty t = true <-> buckets_begin t = Some (buckets_end t)) /\
  (empty t = true ->
   forall key, find hash_ equal_ extract_ t key = Some (buckets_end t)).
Proof.
  intros Hwf. pose proof (wf_shape t Hwf) as Hs.
  pose proof (shape_len t Hs) as Hlen.
  destruct (buckets_begin_spec t Hs (wf_size t Hwf))
    as (i & Hbegin & Hi & _ & Hstop & Hiff & _).
  assert (Hempty : empty t = true <-> size_ t = 0).
  { unfold empty. apply Z.eqb_eq. }
  assert (Hholds : empty t = true <-> forall w, ~ holds t w).
  { split.
    - intros He w Hw. apply entries_holds in Hw.
      rewrite entries_empty in Hw; [now apply elem_of_nil in Hw|].
      apply Hempty in He. pose proof (wf_size t Hwf). lia.
    - intros Hnone. apply Hempty, Hiff.
      destruct Hstop as [->|[v Hv]]; [reflexivity|].
      exfalso. apply (Hnone v). now exists i. }
  assert (Hpresent : (forall w, ~ holds t w) <-> forall key, ~ present t key).
  { split.
    - intros Hnone key (j & v & Hv & _). apply (Hnone v). now exists j.
    - intros Hnone w [j Hw]. apply (Hnone (extract_ w)).
      exists j, w. split; [exact Hw | apply (equal_refl Hkeys)]. }
  split; [exact Hholds|]. split; [now rewrite Hholds|].
  split.
  - rewrite Hbegin, Hempty, <- Hiff. unfold buckets_end. rewrite Hlen.
    split; [now intros -> | now intros [= ->]].
  - intros He key. unfold buckets_end. rewrite Hlen.
    apply (find_absent t key Hs (wf_has_free t Hwf) (wf_probe t Hwf)).
    now apply Hpresent, Hholds.
Qed.

(** ** The index helpers, construction and lookup *)

(** X5: on a container whose bucket count is a power of two the index
    helpers compute modulo the bucket count: [index_from_key] is the
    hash modulo it, [index_add] and [index_sub] are addition and
    subtraction modulo it (the wrapped [size_t] difference included),
    and each undoes the other on an index of the table. *)
Theorem index_helpers_modulo (t : table) key i x :
  shape t ->
  index_from_key hash_ t key = hash_ key mod bucket_count_ t /\
  index_add t i x = (i + x) mod bucket_count_ t /\
  index_sub t i x = (i - x) mod bucket_count_ t /\
  (0 <= i < bucket_count_ t ->
     index_sub t (index_add t i x) x = i /\
     index_add t (index_sub t i x) x = i).
Proof.
  intros Hs. destruct (shape_cap t Hs) as (k & Hk & Ek).
  assert (Hn : 0 < 2 ^ k) by (apply Z.pow_pos_nonneg; lia).
  unfold index_from_key, index_add, index_sub.
  rewrite Ek, !mask_mod by lia.
  split; [reflexivity|]. split; [reflexivity|]. split; [reflexivity|].
  intros Hi. split.
  - rewrite Zminus_mod_idemp_l. replace (i + x - x) with i by lia.
    now apply Z.mod_small.
  - rewrite Zplus_mod_idemp_l. replace (i - x + x) with i by lia.
    now apply Z.mod_small.
Qed.

(** X6: the constructor with a requested bucket count from 1 to [2^63],
    where the environment builds a vector of the request rounded up to
    a power of two, makes a well-formed empty container: the bucket
    count is the least power of two that is not below the request,
    every slot is empty, every lookup returns the terminal position,
    and a traversal visits nothing.  Where the environment does not
    build the vector the constructor throws. *)
Theorem kernel_new_is_empty allocates n :
  (1 <= n <= 2 ^ 63 ->
   allocates (upper_power_of_two n) = true ->
   exists t : table,
     kernel_new_alloc allocates n = Returned t /\
     wf t /\ size_ t = 0 /\
     n <= bucket_count_ t /\
     (forall k, 0 <= k -> n <= 2 ^ k -> bucket_count_ t <= 2 ^ k) /\
     buckets_end t = bucket_count_ t /\
     (forall i, slot t i = None) /\
     (forall key,
        find hash_ equal_ extract_ t key = Some (buckets_end t)) /\
     traverse t = Some []) /\
  (allocates (upper_power_of_two n) = false ->
   kernel_new_alloc (Value := Value) allocates n = Thrown tt).
Proof.
  unfold kernel_new_alloc. split; intros Hn; [intros Ha|]; rewrite ?Ha, ?Hn;
    [|reflexivity].
  exists (kernel_new n). split; [reflexivity|].
  pose proof (wf_kernel_new n Hn) as Hwf.
  pose proof (wf_shape _ Hwf) as Hs.
  destruct (upper_power_of_two_least n Hn) as [Hge Hleast].
  assert (Hslot : forall i, slot (kernel_new (Value := Value) n) i = None).
  { intros i. apply (slot_fresh (upper_power_of_two n) i). }
  split; [exact Hwf|]. split; [reflexivity|]. split; [exact Hge|].
  split; [exact Hleast|]. split; [now apply buckets_end_count|].
  split; [exact Hslot|]. split.
  - intros key. rewrite buckets_end_count by exact Hs.
    apply (find_absent _ key Hs (wf_has_free _ Hwf) (wf_probe _ Hwf)).
    intros (i & w & Hw & _). now rewrite Hslot in Hw.
  - rewrite traverse_unfold.
    change (buckets_begin (kernel_new (Value := Value) n))
      with (Some (buckets_end (kernel_new (Value := Value) n))).
    unfold probe_fuel. now rewrite traverse_from_unfold, Z.eqb_refl.
Qed.

(** X7: [find] on a well-formed container always returns.  When the
    key is present it returns the one slot whose entry has an
    equivalent key, which is not the terminal position; it returns the
    terminal position exactly when the key is absent. *)
Theorem find_locates_key (t : table) key :
  wf t ->
  exists pos,
    find hash_ equal_ extract_ t key = Some pos /\
    (present t key ->
       0 <= pos < buckets_end t /\
       (exists v, slot t pos = Some v /\
          equal_ key (extract_ v) = true) /\
       forall j w, slot t j = Some w ->
         equal_ key (extract_ w) = true -> j = pos) /\
    (pos = buckets_end t <-> ~ present t key).
Proof.
  intros Hwf. pose proof (wf_shape t Hwf) as Hs.
  rewrite (buckets_end_count t Hs).
  destruct (find_spec t key Hs (wf_has_free t Hwf) (wf_probe t Hwf))
    as [(i & v & Hfind & Hv & Hm) | [Hfind Habs]].
  - pose proof (slot_range t Hs i v Hv) as Hi.
    exists i. split; [exact Hfind|]. split.
    + intros _. split; [exact Hi|]. split; [now exists v|].
      intros j w Hw Hmw. apply (wf_unique t Hwf j i w v Hw Hv).
      apply (equal_trans Hkeys _ key); [|exact Hm].
      now apply (equal_sym Hkeys).
    + split; [lia|]. intros Habs. exfalso. apply Habs. now exists i, v.
  - exists (bucket_count_ t). split; [exact Hfind|]. split.
    + intros Hp. contradiction.
    + split; [now intros _ | reflexivity].
Qed.

(** ** What insert and erase do to the other entries *)

Lemma present_add (t t' : table) v :
  (forall w, holds t' w <-> w = v \/ holds t w) ->
  forall key,
    present t' key <-> equal_ key (extract_ v) = true \/ present t key.
Proof.
  intros Hh key. rewrite !present_holds. split.
  - intros (w & Hw & Hm). apply Hh in Hw as [-> | Hw]; [now left|].
    right. now exists w.
  - intros [Hm | (w & Hw & Hm)].
    + exists v. split; [apply Hh; now left | exact Hm].
    + exists w. split; [apply Hh; now right | exact Hm].
Qed.

(** X8: inserting an entry whose key is absent adds that entry and
    nothing else, also when the insert doubles the capacity: the live
    entries afterwards are the new one and the old ones, the keys
    present are the new key and the old keys, and a lookup of an old
    key finds an old entry.  Below the load limit the insert writes one
    slot only. *)
Theorem insert_keeps_entries fuel (t : table) v :
  wf t -> bucket_count_ t < 2 ^ 63 -> ~ present t (extract_ v) ->
  exists t' pos,
    insert hash_ equal_ extract_ (S (S fuel)) t v = Some (t', pos, true) /\
    wf t' /\ slot t' pos = Some v /\
    (forall w, holds t' w <-> w = v \/ holds t w) /\
    (forall key,
       present t' key <->
       equal_ key (extract_ v) = true \/ present t key) /\
    (forall key, present t key ->
       exists i w,
         find hash_ equal_ extract_ t' key = Some i /\
         slot t' i = Some w /\ holds t w /\
         equal_ key (extract_ w) = true) /\
    (size_ t < max_size_ t ->
       forall j, j <> pos -> slot t' j = slot t j).
Proof.
  intros Hwf Hcap Habs. pose proof (wf_shape t Hwf) as Hs.
  destruct (insert_absent fuel t v Hwf Hcap Habs)
    as (t' & pos & Hins & Hwf' & Hpos & _ & Hh & _).
  pose proof (present_add t t' v Hh) as Hp.
  exists t', pos. split; [exact Hins|]. split; [exact Hwf'|].
  split; [exact Hpos|]. split; [exact Hh|]. split; [exact Hp|]. split.
  - intros key Hkey.
    destruct (find_present t' key (wf_shape t' Hwf') (wf_has_free t' Hwf')
                (wf_probe t' Hwf')) as (i & w & Hfind & Hw & Hm).
    { apply Hp. now right. }
    exists i, w. split; [exact Hfind|]. split; [exact Hw|].
    split; [|exact Hm].
    assert (Hw' : holds t' w) by now exists i.
    apply Hh in Hw' as [-> | Hw']; [|exact Hw'].
    exfalso. apply Habs. destruct Hkey as (j & u & Hu & Hmu).
    exists j, u. split; [exact Hu|].
    apply (equal_trans Hkeys _ key); [|exact Hmu].
    now apply (equal_sym Hkeys).
  - intros Hlt j Hj.
    destruct (insert_impl_place t v (S fuel) Hwf Hlt Habs)
      as (f & Himpl & Hf & _ & _).
    rewrite insert_unfold in Hins.
    rewrite (find_absent t (extract_ v) Hs (wf_has_free t Hwf)
               (wf_probe t Hwf) Habs) in Hins.
    rewrite buckets_end_count, Z.eqb_refl, Himpl in Hins by exact Hs.
    injection Hins as <- <-.
    rewrite slot_place by (rewrite (shape_len t Hs); lia).
    now destruct (decide (j = f)).
Qed.

(** X9: erasing a present key removes the one entry with that key and
    nothing else, also when the erase halves the capacity: the size
    drops by one, the key is absent afterwards, every other key stays
    present, and the live entries afterwards are the old ones whose key
    is not equivalent to the erased key. *)
Theorem erase_removes_only fuel (t : table) key :
  wf t -> present t key ->
  exists t',
    erase hash_ equal_ extract_ (S fuel) t key = Some (t', 1) /\
    wf t' /\ size_ t' = size_ t - 1 /\
    (forall w,
       holds t' w <-> holds t w /\ equal_ key (extract_ w) = false) /\
    (forall k,
       present t' k <-> present t k /\ equal_ key k = false) /\
    find hash_ equal_ extract_ t' key = Some (buckets_end t').
Proof.
  intros Hwf Hp.
  destruct (erase_spec fuel t key Hwf)
    as (t' & c & Herase & Hwf' &
        [(Habs & _) | (_ & -> & Hsz & g & vg & Hg & Hmg & Hh)]);
    [contradiction|].
  unfold matches in Hmg.
  assert (Hholds : forall w,
    holds t' w <-> holds t w /\ equal_ key (extract_ w) = false).
  { intros w. rewrite Hh. split.
    - intros (j & Hj & Hw). split; [now exists j|].
      destruct (equal_ key (extract_ w)) eqn:E; [|reflexivity].
      exfalso. apply Hj. apply (wf_unique t Hwf j g w vg Hw Hg).
      apply (equal_trans Hkeys _ key); [|exact Hmg].
      now apply (equal_sym Hkeys).
    - intros [[j Hw] Hne]. exists j. split; [|exact Hw].
      intros ->. congruence. }
  exists t'. split; [exact Herase|]. split; [exact Hwf'|].
  split; [exact Hsz|]. split; [exact Hholds|]. split.
  - intros k. rewrite !present_holds. split.
    + intros (w & Hw & Hm). apply Hholds in Hw as [Hw Hne].
      split; [now exists w|].
      destruct (equal_ key k) eqn:E; [|reflexivity].
      rewrite (equal_trans Hkeys _ _ _ E Hm) in Hne. discriminate.
    + intros [(w & Hw & Hm) Hne]. exists w. split; [|exact Hm].
      apply Hholds. split; [exact Hw|].
      destruct (equal_ key (extract_ w)) eqn:E; [|reflexivity].
      apply (equal_sym Hkeys) in Hm.
      rewrite (equal_trans Hkeys _ _ _ E Hm) in Hne. discriminate.
  - rewrite buckets_end_count by apply (wf_shape t' Hwf').
    apply (find_absent t' key (wf_shape t' Hwf') (wf_has_free t' Hwf')
             (wf_probe t' Hwf')).
    rewrite present_holds. intros (w & Hw & Hm).
    apply Hholds in Hw as [_ Hne]. unfold matches in Hm. congruence.
Qed.

(** X10: inserting an entry with a new key and then erasing that key
    gives back the entries and the size the container had, whatever
    rehashing the two calls did. *)
Theorem insert_erase_restores fuel (t : table) v :
  wf t -> bucket_count_ t < 2 ^ 63 -> ~ present t (extract_ v) ->
  exists t1 pos t2,
    insert hash_ equal_ extract_ (S (S fuel)) t v = Some (t1, pos, true) /\
    erase hash_ equal_ extract_ (S fuel) t1 (extract_ v) = Some (t2, 1) /\
    wf t2 /\ size_ t2 = size_ t /\
    (forall w, holds t2 w <-> holds t w) /\
    (forall key, present t2 key <-> present t key).
Proof.
  intros Hwf Hcap Habs.
  destruct (insert_absent fuel t v Hwf Hcap Habs)
    as (t1 & pos & Hins & Hwf1 & Hpos & Hsz1 & Hh1 & _).
  destruct (erase_spec fuel t1 (extract_ v) Hwf1)
    as (t2 & c & Herase & Hwf2 &
        [(Habs1 & _) | (_ & -> & Hsz2 & g & vg & Hg & Hmg & Hh2)]).
  { exfalso. apply Habs1. exists pos, v.
    split; [exact Hpos | apply (equal_refl Hkeys)]. }
  assert (Eg : g = pos).
  { apply (wf_unique t1 Hwf1 g pos vg v Hg Hpos).
    now apply (equal_sym Hkeys). }
  subst g.
  assert (Hholds : forall w, holds t2 w <-> holds t w).
  { intros w. rewrite Hh2. split.
    - intros (j & Hj & Hw).
      assert (Hw1 : holds t1 w) by now exists j.
      apply Hh1 in Hw1 as [-> | Hw1]; [|exact Hw1].
      exfalso. apply Hj. apply (wf_unique t1 Hwf1 j pos v v Hw Hpos).
      apply (equal_refl Hkeys).
    - intros Hw. assert (Hw1 : holds t1 w) by (apply Hh1; now right).
      destruct Hw1 as [j Hj]. exists j. split; [|exact Hj].
      intros ->. rewrite Hpos in Hj. injection Hj as <-.
      apply Habs. destruct Hw as [i Hi]. exists i, v.
      split; [exact Hi | apply (equal_refl Hkeys)]. }
  exists t1, pos, t2. split; [exact Hins|]. split; [exact Herase|].
  split; [exact Hwf2|]. split; [lia|]. split; [exact Hholds|].
  now apply present_iff_holds.
Qed.

(** ** The capacity under erase *)

Lemma shrinks_large (t : table) :
  wf t -> shrinks t = true ->
  16 < size_ t < min_size_ t /\ 64 <= bucket_count_ t.
Proof.
  intros Hwf Hsh. unfold shrinks in Hsh.
  apply andb_true_iff in Hsh as [H1 H2]. apply Z.ltb_lt in H1, H2.
  split; [lia|].
  destruct (shape_cap t (wf_shape t Hwf)) as (k & Hk & Ek).
  rewrite (wf_min t Hwf), Ek in H1. rewrite Ek.
  destruct (Z_le_gt_dec 6 k) as [H6|H6].
  - change 64 with (2 ^ 6). apply Z.pow_le_mono_r; lia.
  - exfalso. assert (Hle : 2 ^ k <= 2 ^ 5) by (apply Z.pow_le_mono_r; lia).
    change (2 ^ 5) with 32 in Hle.
    assert (min_size_of (2 ^ k) < 17); [|lia].
    unfold min_size_of, min_load_num, min_load_den.
    apply Z.div_lt_upper_bound; lia.
Qed.

(** X11: [erase] on a well-formed container either keeps the bucket
    count or halves it, and it halves it exactly when more than 16
    entries remain and they are fewer than [min_size]; that needs at
    least 64 buckets, so a smaller table never shrinks and a table that
    shrinks keeps at least 32 buckets. *)
Theorem erase_halves_capacity fuel (t : table) key :
  wf t ->
  exists t' c,
    erase hash_ equal_ extract_ (S fuel) t key = Some (t', c) /\
    size_ t' = size_ t - c /\
    ((bucket_count_ t' = bucket_count_ t /\
      ~ 16 < size_ t' < min_size_ t) \/
     (2 * bucket_count_ t' = bucket_count_ t /\
      16 < size_ t' < min_size_ t /\
      32 <= bucket_count_ t')).
Proof.
  intros Hwf.
  assert (Hstep : forall (t2 : table) c,
    wf t2 -> bucket_count_ t2 = bucket_count_ t ->
    size_ t2 = size_ t - c ->
    erase hash_ equal_ extract_ (S fuel) t key =
      match (if shrinks t2
             then rehash hash_ extract_ (S fuel) t2 (bucket_count_ t2 / 2)
             else Some t2) with
      | Some t' => Some (t', c)
      | None => None
      end ->
    exists t' c,
      erase hash_ equal_ extract_ (S fuel) t key = Some (t', c) /\
      size_ t' = size_ t - c /\
      ((bucket_count_ t' = bucket_count_ t /\
        ~ 16 < size_ t' < min_size_ t) \/
       (2 * bucket_count_ t' = bucket_count_ t /\
        16 < size_ t' < min_size_ t /\
        32 <= bucket_count_ t'))).
  { intros t2 c Hwf2 Hc2 Hsz2 Herase.
    destruct (shrink_ok fuel t2 Hwf2) as (t' & Hsh & _ & Hsz & _ & Hc & _).
    rewrite Hsh in Herase. exists t', c. split; [exact Herase|].
    split; [lia|].
    assert (Hmin : min_size_ t2 = min_size_ t)
      by (rewrite (wf_min t2 Hwf2), (wf_min t Hwf); now rewrite Hc2).
    destruct (shrinks t2) eqn:Hshrinks.
    - right. destruct (shrinks_large t2 Hwf2 Hshrinks) as [Hr H64].
      destruct (shape_cap t2 (wf_shape t2 Hwf2)) as (k & Hk & Ek).
      assert (Hk1 : 1 <= k).
      { destruct (Z.eq_dec k 0) as [-> | Hne]; [|lia].
        change (2 ^ 0) with 1 in Ek. lia. }
      assert (Ehalf : bucket_count_ t2 = 2 * 2 ^ (k - 1)).
      { rewrite Ek. replace k with (k - 1 + 1) at 1 by lia.
        rewrite Z.pow_add_r by lia. change (2 ^ 1) with 2. lia. }
      assert (Hdiv : bucket_count_ t2 / 2 = 2 ^ (k - 1)).
      { rewrite Ehalf, Z.mul_comm. apply Z.div_mul. lia. }
      rewrite Hc, Hdiv. lia.
    - left. split; [lia|]. unfold shrinks in Hshrinks.
      apply andb_false_iff in Hshrinks.
      rewrite Z.ltb_ge, Z.ltb_ge in Hshrinks. lia. }
  destruct (present_dec t key Hwf) as [Hp | Habs].
  - destruct (erase_present (S fuel) t key Hwf Hp)
      as (g & vg & t2 & _ & _ & Hwf2 & Hsz2 & Hc2 & _ & Herase).
    exact (Hstep t2 1 Hwf2 Hc2 Hsz2 Herase).
  - apply (Hstep t 0 Hwf eq_refl); [lia|].
    apply (erase_absent (S fuel) t key Hwf Habs).
Qed.

(** X22: [erase] returns 1 when the key is present and 0 when it is
    absent.  When the key is absent the size, the live entries and the
    keys are unchanged; the container is left exactly as it was unless
    the shrink test [size < min_size] and [size > 16] holds, and then
    the bucket count is halved all the same. *)
Theorem erase_count_and_frame fuel (t : table) key :
  wf t ->
  exists t' c,
    erase hash_ equal_ extract_ (S fuel) t key = Some (t', c) /\
    ((present t key /\ c = 1) \/
     (~ present t key /\ c = 0 /\
      size_ t' = size_ t /\
      (forall k, present t' k <-> present t k) /\
      (forall w, holds t' w <-> holds t w) /\
      (~ (size_ t < min_size_ t /\ 16 < size_ t) -> t' = t) /\
      (size_ t < min_size_ t /\ 16 < size_ t ->
       2 * bucket_count_ t' = bucket_count_ t))).
Proof.
  intros Hwf.
  destruct (erase_spec fuel t key Hwf) as (t' & c & Herase & Hwf' & Hcase).
  exists t', c. split; [assumption|].
  destruct Hcase as [(Habs & Hc & Hsz & Hh & Hcap & Hid) | (Hp & Hc & _)].
  - right. split; [assumption|]. split; [assumption|].
    split; [assumption|]. split; [now apply present_iff_holds|].
    split; [assumption|]. split.
    + intros Hno. apply Hid. unfold shrinks.
      destruct (Z.ltb_spec (size_ t) (min_size_ t)); [|reflexivity].
      destruct (Z.ltb_spec 16 (size_ t)); [|reflexivity]. tauto.
    + intros [Hlow Hmany].
      assert (Hsh : shrinks t = true).
      { unfold shrinks. apply andb_true_iff. now rewrite !Z.ltb_lt. }
      rewrite Hsh in Hcap.
      destruct (shrinks_large t Hwf Hsh) as [_ H64].
      destruct (shape_cap t (wf_shape t Hwf)) as (k & Hk & Ek).
      assert (Hk1 : 1 <= k).
      { destruct (Z.eq_dec k 0) as [-> | Hne]; [|lia].
        change (2 ^ 0) with 1 in Ek. lia. }
      assert (Ehalf : bucket_count_ t = 2 * 2 ^ (k - 1)).
      { rewrite Ek. replace k with (k - 1 + 1) at 1 by lia.
        rewrite Z.pow_add_r by lia. change (2 ^ 1) with 2. lia. }
      assert (Hdiv : bucket_count_ t / 2 = 2 ^ (k - 1)).
      { rewrite Ehalf, Z.mul_comm. apply Z.div_mul. lia. }
      rewrite Hcap, Hdiv. lia.
  - left. now split.
Qed.

(** ** rehash on any request *)

(** The sweep of [rehash] when the inserts it makes may grow the new
    table: every insert succeeds, and the sweep stops after the first
    one that leaves a bucket count different from the request. *)
Lemma rehash_sweep_any fuel count :
  forall (rest : list bucket) (new : table),
    wf new -> count <= bucket_count_ new < 2 ^ 63 ->
    Forall flag_ok rest ->
    distinct_buckets rest ->
    (forall b w, b ∈ rest -> live b = Some w ->
       ~ present new (extract_ w)) ->
    exists new',
      rehash_sweep hash_ extract_ (ins (S (S fuel))) count rest new
        = Some new' /\
      wf new' /\
      size_ new' <= size_ new + Z.of_nat (live_count rest) /\
      (forall w, holds new' w ->
         holds new w \/ exists b, b ∈ rest /\ live b = Some w) /\
      (bucket_count_ new' = bucket_count_ new \/
       bucket_count_ new' = 2 * bucket_count_ new).
Proof.
  induction rest as [|b rest IH]; intros new Hwf Hcap Hflags Hdist Hfresh.
  - exists new. split; [reflexivity|]. split; [exact Hwf|].
    split; [simpl; lia|]. split; [now left | now left].
  - apply Forall_cons in Hflags as [Hb Hflags].
    destruct Hdist as [Hb_rest Hdist].
    pose proof (shape_pos new (wf_shape new Hwf)) as Hpos.
    destruct (has_value b) eqn:Hflag.
    + destruct (Hb Hflag) as [v Hv].
      assert (Hlive : live b = Some v) by (unfold live; now rewrite Hflag).
      destruct (insert_impl_ok new v fuel Hwf) as
        (t1 & pos & Hins & Hwf1 & _ & Hsz1 & Hh1 & Hc1).
      { lia. }
      { apply (Hfresh b v); [apply elem_of_cons; now left | exact Hlive]. }
      rewrite (rehash_sweep_live _ _ b rest new t1 v Hflag Hv)
        by (unfold ins; now rewrite Hins).
      assert (Hc1' : bucket_count_ t1 = bucket_count_ new \/
                     bucket_count_ t1 = 2 * bucket_count_ new).
      { rewrite Hc1.
        destruct (size_ new =? max_size_ new); [now right | now left]. }
      assert (Hsub : forall w, holds t1 w ->
        holds new w \/ exists b', b' ∈ b :: rest /\ live b' = Some w).
      { intros w Hw. apply Hh1 in Hw as [-> | Hw]; [|now left].
        right. exists b. split; [apply elem_of_cons; now left | exact Hlive]. }
      destruct (Z.eqb_spec (bucket_count_ t1) count) as [Ec | Ec].
      * destruct (IH t1) as (new' & Hsweep & Hwf2 & Hsz2 & Hh2 & Hc2).
        -- exact Hwf1.
        -- lia.
        -- exact Hflags.
        -- exact Hdist.
        -- intros b' w Hb' Hw Hp.
           apply (present_add new t1 v Hh1) in Hp as [Hm | Hp].
           ++ pose proof (Hb_rest v b' w Hlive Hb' Hw) as Hne.
              apply (equal_sym Hkeys) in Hm. congruence.
           ++ apply (Hfresh b' w);
                [apply elem_of_cons; now right | exact Hw | exact Hp].
        -- exists new'. split; [exact Hsweep|]. split; [exact Hwf2|].
           split; [simpl; rewrite Hflag; lia|]. split.
           ++ intros w Hw. apply Hh2 in Hw as [Hw | (b' & Hb' & Hw)].
              ** now apply Hsub.
              ** right. exists b'.
                 split; [apply elem_of_cons; now right | exact Hw].
           ++ assert (bucket_count_ t1 = bucket_count_ new) by lia. lia.
      * exists t1. split; [reflexivity|]. split; [exact Hwf1|].
        split; [simpl; rewrite Hflag; lia|]. split; [exact Hsub | exact Hc1'].
    + rewrite rehash_sweep_dead by exact Hflag.
      destruct (IH new) as (new' & Hsweep & Hwf2 & Hsz2 & Hh2 & Hc2);
        try assumption.
      * intros b' w Hb' Hw.
        apply (Hfresh b' w); [apply elem_of_cons; now right | exact Hw].
      * exists new'. split; [exact Hsweep|]. split; [exact Hwf2|].
        split; [simpl; rewrite Hflag; lia|]. split; [|exact Hc2].
        intros w Hw. apply Hh2 in Hw as [Hw | (b' & Hb' & Hw)]; [now left|].
        right. exists b'. split; [apply elem_of_cons; now right | exact Hw].
Qed.

Lemma rehash_sweep_fresh fuel count c (rest : list bucket) :
  wf (fresh c) -> count <= c < 2 ^ 63 ->
  Forall flag_ok rest -> distinct_buckets rest ->
  exists t',
    rehash_sweep hash_ extract_ (ins (S (S fuel))) count rest (fresh c)
      = Some t' /\
    wf t' /\
    size_ t' <= Z.of_nat (live_count rest) /\
    (forall w, holds t' w -> exists b, b ∈ rest /\ live b = Some w) /\
    (bucket_count_ t' = c \/ bucket_count_ t' = 2 * c).
Proof.
  intros Hwf Hc Hflags Hdist.
  destruct (rehash_sweep_any fuel count rest (fresh c) Hwf Hc Hflags Hdist)
    as (t' & Hsweep & Hwf' & Hsz & Hh & Hcap).
  { intros b w _ _ (i & u & Hu & _). now rewrite slot_fresh in Hu. }
  exists t'. split; [exact Hsweep|]. split; [exact Hwf'|].
  split; [exact Hsz|]. split; [|exact Hcap].
  intros w Hw. apply Hh in Hw as [[i Hi] | Hw]; [|exact Hw].
  now rewrite slot_fresh in Hi.
Qed.

Lemma rehash_any fuel (t : table) count :
  wf t -> 1 <= count <= 2 ^ 62 ->
  exists t',
    rehash hash_ extract_ (S (S fuel)) t count = Some t' /\
    wf t' /\ size_ t' <= size_ t /\
    (forall w, holds t' w -> holds t w) /\
    (forall key, present t' key -> present t key) /\
    count <= bucket_count_ t' /\
    (bucket_count_ t' = upper_power_of_two count \/
     bucket_count_ t' = 2 * upper_power_of_two count).
Proof.
  intros Hwf Hcount. rewrite rehash_unfold.
  assert (Hr : 1 <= count <= 2 ^ 63) by lia.
  destruct (upper_power_of_two_least count Hr) as [Hge Hleast].
  assert (Hle : upper_power_of_two count <= 2 ^ 62)
    by (apply Hleast; lia).
  destruct (rehash_sweep_fresh fuel count (upper_power_of_two count)
              (buckets_ t))
    as (t' & Hsweep & Hwf' & Hsz & Hh & Hc).
  - apply (wf_kernel_new count Hr).
  - lia.
  - apply (shape_flags t (wf_shape t Hwf)).
  - apply unique_keys_distinct, (wf_unique t Hwf).
  - assert (Hholds : forall w, holds t' w -> holds t w).
    { intros w Hw. apply holds_elem. now apply Hh. }
    exists t'. split; [exact Hsweep|]. split; [exact Hwf'|]. split.
    + rewrite (wf_size t Hwf). exact Hsz.
    + split; [exact Hholds|]. split.
      * intros key (i & w & Hw & Hm).
        destruct (Hholds w (ex_intro _ i Hw)) as [j Hj].
        exists j, w. split; [exact Hj | exact Hm].
      * split; [lia | exact Hc].
Qed.

(** ** rehash when the allocation can fail

    Where the environment builds the vectors a call asks for, the
    operations that can throw return what the operations above
    return. *)

Lemma insert_impl_alloc_unfold allocates fuel (t : table) v i :
  insert_impl_alloc hash_ extract_ allocates (S fuel) t v i =
  if size_ t =? max_size_ t then
    match rehash_alloc hash_ extract_ allocates fuel t
            (wrap64 (bucket_count_ t * 2)) with
    | Some (Returned t') =>
        insert_impl_alloc hash_ extract_ allocates fuel t' v (ideal t' v)
    | Some (Thrown s) => Some (Thrown s)
    | None => None
    end
  else
    match free_loop (probe_fuel t) t i with
    | Some free_index => Some (Returned (place t free_index v, free_index))
    | None => None
    end.
Proof. reflexivity. Qed.

Lemma insert_impl_unfold_match fuel (t : table) v i :
  insert_impl hash_ extract_ (S fuel) t v i =
  if size_ t =? max_size_ t then
    match rehash hash_ extract_ fuel t (wrap64 (bucket_count_ t * 2)) with
    | Some t' => insert_impl hash_ extract_ fuel t' v (ideal t' v)
    | None => None
    end
  else
    match free_loop (probe_fuel t) t i with
    | Some free_index => Some (place t free_index v, free_index)
    | None => None
    end.
Proof. reflexivity. Qed.

Lemma rehash_alloc_unfold allocates fuel (t : table) count :
  rehash_alloc hash_ extract_ allocates fuel t count =
  if allocates (upper_power_of_two count) then
    rehash_sweep_alloc hash_ extract_ (ins_alloc allocates fuel) count
      (buckets_ t) (fresh (upper_power_of_two count))
  else Some (Thrown (set_bucket_count t (upper_power_of_two count))).
Proof. reflexivity. Qed.

Lemma rehash_sweep_alloc_live g count (b : bucket) rest (t t' : table) v :
  has_value b = true -> memory b = Some v ->
  g t v (ideal t v) = Some (Returned t') ->
  rehash_sweep_alloc hash_ extract_ g count (b :: rest) t =
  if bucket_count_ t' =? count
  then rehash_sweep_alloc hash_ extract_ g count rest t'
  else Some (Returned t').
Proof. intros Hb Hv Hg. simpl. rewrite Hb, Hv. simpl. now rewrite Hg. Qed.

Lemma rehash_sweep_alloc_dead g count (b : bucket) rest (t : table) :
  has_value b = false ->
  rehash_sweep_alloc hash_ extract_ g count (b :: rest) t =
  rehash_sweep_alloc hash_ extract_ g count rest t.
Proof. intros Hb. simpl. now rewrite Hb. Qed.

(** Below the load limit the private [insert] allocates nothing. *)
Lemma insert_impl_alloc_below allocates f f' (t : table) v i :
  size_ t <> max_size_ t ->
  insert_impl_alloc hash_ extract_ allocates (S f) t v i =
  Returned <$> insert_impl hash_ extract_ (S f') t v i.
Proof.
  intros Hne. rewrite insert_impl_alloc_unfold, insert_impl_unfold_match.
  destruct (Z.eqb_spec (size_ t) (max_size_ t)) as [E|_]; [contradiction|].
  now destruct (free_loop (probe_fuel t) t i).
Qed.

(** The two sweeps agree along an invariant of the tables they pass
    through on which the two inserts agree. *)
Lemma rehash_sweep_alloc_agree
    (f : table -> Value -> Z -> option table)
    (g : table -> Value -> Z -> option (outcome table table))
    count (Inv : list bucket -> table -> Prop) :
  (forall b rest new,
     Inv (b :: rest) new -> has_value b = false -> Inv rest new) ->
  (forall b rest new v,
     Inv (b :: rest) new -> has_value b = true -> memory b = Some v ->
     exists new1,
       f new v (ideal new v) = Some new1 /\
       g new v (ideal new v) = Some (Returned new1) /\
       (bucket_count_ new1 = count -> Inv rest new1)) ->
  forall rest new,
    Inv rest new ->
    rehash_sweep_alloc hash_ extract_ g count rest new =
    Returned <$> rehash_sweep hash_ extract_ f count rest new.
Proof.
  intros Hdead Hlive. induction rest as [|b rest IH]; intros new HI.
  - reflexivity.
  - destruct (has_value b) eqn:Hflag.
    + destruct (memory b) as [v|] eqn:Hv.
      * destruct (Hlive b rest new v HI Hflag Hv) as (new1 & Hf & Hg & Hnext).
        rewrite (rehash_sweep_alloc_live g count b rest new new1 v
                   Hflag Hv Hg).
        rewrite (rehash_sweep_live f count b rest new new1 v Hflag Hv Hf).
        destruct (Z.eqb_spec (bucket_count_ new1) count) as [E|_];
          [|reflexivity].
        apply IH, Hnext, E.
      * simpl. rewrite Hflag, Hv. reflexivity.
    + rewrite rehash_sweep_alloc_dead, rehash_sweep_dead by exact Hflag.
      apply IH, (Hdead b rest new HI Hflag).
Qed.

Lemma rehash_alloc_good allocates fuel (t : table) k :
  wf t -> 0 <= k <= 63 -> size_ t <= max_size_of (2 ^ k) ->
  allocates (2 ^ k) = true ->
  rehash_alloc hash_ extract_ allocates (S fuel) t (2 ^ k) =
  Returned <$> rehash hash_ extract_ (S fuel) t (2 ^ k).
Proof.
  intros Hwf Hk Hroom Ha.
  rewrite rehash_alloc_unfold, rehash_unfold.
  rewrite upper_power_of_two_pow2, Ha by exact Hk.
  apply (rehash_sweep_alloc_agree _ _ _
    (fun rest new =>
       wf new /\ bucket_count_ new = 2 ^ k /\
       size_ new + Z.of_nat (live_count rest) <= max_size_ new /\
       Forall flag_ok rest /\ distinct_buckets rest /\
       forall b w, b ∈ rest -> live b = Some w ->
         ~ present new (extract_ w))).
  - intros b rest new (Hwfn & Hc & Hsz & Hflags & Hdist & Hfresh) Hflag.
    apply Forall_cons in Hflags as [_ Hflags]. destruct Hdist as [_ Hdist].
    simpl in Hsz. rewrite Hflag in Hsz.
    split; [exact Hwfn|]. split; [exact Hc|]. split; [lia|].
    split; [exact Hflags|]. split; [exact Hdist|].
    intros b' w Hb' Hw.
    apply (Hfresh b' w); [apply elem_of_cons; now right | exact Hw].
  - intros b rest new v (Hwfn & Hc & Hsz & Hflags & Hdist & Hfresh) Hflag Hv.
    apply Forall_cons in Hflags as [_ Hflags].
    destruct Hdist as [Hb_rest Hdist].
    assert (Hlive : live b = Some v) by (unfold live; now rewrite Hflag).
    simpl in Hsz. rewrite Hflag in Hsz.
    destruct (insert_impl_place new v fuel Hwfn) as
      (f0 & Hins & Hf0 & Hfree & Hwf1).
    { lia. }
    { apply (Hfresh b v); [apply elem_of_cons; now left | exact Hlive]. }
    exists (place new f0 v). split; [unfold ins; now rewrite Hins|].
    split.
    { unfold ins_alloc.
      rewrite (insert_impl_alloc_below allocates fuel fuel) by lia.
      now rewrite Hins. }
    intros _. split; [exact Hwf1|]. split; [exact Hc|]. split.
    { rewrite size_place by exact Hwfn.
      change (max_size_ (place new f0 v)) with (max_size_ new). lia. }
    split; [exact Hflags|]. split; [exact Hdist|].
    intros b' w Hb' Hw Hp.
    apply (present_place new f0 v _ (wf_shape _ Hwfn) Hf0 Hfree)
      in Hp as [Hm | Hp].
    + unfold matches in Hm.
      pose proof (Hb_rest v b' w Hlive Hb' Hw) as Hne.
      apply (equal_sym Hkeys) in Hm. congruence.
    + apply (Hfresh b' w);
        [apply elem_of_cons; now right | exact Hw | exact Hp].
  - split; [now apply wf_fresh|]. split; [reflexivity|]. split.
    { simpl. rewrite <- (wf_size t Hwf). lia. }
    split; [apply (shape_flags t (wf_shape t Hwf))|].
    split; [apply unique_keys_distinct, (wf_unique t Hwf)|].
    intros b w _ _ (i & u & Hu & _). now rewrite slot_fresh in Hu.
Qed.

(** The private [insert] of a new key allocates only when the table is
    at its load limit, and then a vector of twice the bucket count. *)
Lemma insert_impl_alloc_ok allocates (t : table) v fuel :
  wf t -> bucket_count_ t < 2 ^ 63 -> ~ present t (extract_ v) ->
  (size_ t = max_size_ t -> allocates (2 * bucket_count_ t) = true) ->
  insert_impl_alloc hash_ extract_ allocates (S (S fuel)) t v (ideal t v) =
  Returned <$> insert_impl hash_ extract_ (S (S fuel)) t v (ideal t v).
Proof.
  intros Hwf Hcap Habs Ha. pose proof (wf_shape t Hwf) as Hs.
  pose proof (shape_pos t Hs) as Hn.
  destruct (Z.eq_dec (size_ t) (max_size_ t)) as [Hfull | Hroom];
    [|now apply insert_impl_alloc_below].
  rewrite insert_impl_alloc_unfold, insert_impl_unfold_match.
  destruct (Z.eqb_spec (size_ t) (max_size_ t)) as [_|Hne];
    [|contradiction].
  destruct (shape_cap_lt t Hs Hcap) as (k & Hk & Ek).
  assert (E2 : 2 * bucket_count_ t = 2 ^ (k + 1)).
  { rewrite Z.pow_add_r, <- Ek by lia. change (2 ^ 1) with 2. lia. }
  assert (Ew : wrap64 (bucket_count_ t * 2) = 2 ^ (k + 1)).
  { rewrite <- E2, Z.mul_comm. apply wrap64_small. lia. }
  assert (Hroom : size_ t <= max_size_of (2 ^ (k + 1))).
  { rewrite Hfull, (wf_max t Hwf), <- E2.
    pose proof (max_size_of_double (bucket_count_ t)).
    replace (2 * bucket_count_ t) with (bucket_count_ t * 2) by lia. lia. }
  rewrite Ew.
  rewrite (rehash_alloc_good allocates fuel t (k + 1) Hwf)
    by (first [lia | exact Hroom | rewrite <- E2; now apply Ha]).
  destruct (rehash_good fuel t (k + 1) Hwf) as
    (t1 & Hre & Hwf1 & Hc1 & Hsz1 & _); [lia | exact Hroom |].
  rewrite Hre.
  change (Returned (S := table) <$> Some t1)
    with (Some (Returned (S := table) t1)).
  cbv iota.
  apply insert_impl_alloc_below.
  rewrite Hsz1, Hfull, (wf_max t Hwf), (wf_max t1 Hwf1), Hc1, <- E2.
  pose proof (max_size_of_double (bucket_count_ t)).
  replace (2 * bucket_count_ t) with (bucket_count_ t * 2) by lia. lia.
Qed.

Lemma rehash_sweep_alloc_any allocates fuel count c (rest : list bucket) :
  wf (fresh c) -> count <= c < 2 ^ 63 -> allocates (2 * c) = true ->
  Forall flag_ok rest -> distinct_buckets rest ->
  rehash_sweep_alloc hash_ extract_ (ins_alloc allocates (S (S fuel))) count
    rest (fresh c) =
  Returned <$>
    rehash_sweep hash_ extract_ (ins (S (S fuel))) count rest (fresh c).
Proof.
  intros Hwf0 Hc Ha Hflags0 Hdist0.
  apply (rehash_sweep_alloc_agree _ _ _
    (fun rest new =>
       wf new /\ count <= bucket_count_ new < 2 ^ 63 /\
       allocates (2 * bucket_count_ new) = true /\
       Forall flag_ok rest /\ distinct_buckets rest /\
       forall b w, b ∈ rest -> live b = Some w ->
         ~ present new (extract_ w))).
  - intros b rest' new (Hwfn & Hcn & Han & Hflags & Hdist & Hfresh) Hflag.
    apply Forall_cons in Hflags as [_ Hflags]. destruct Hdist as [_ Hdist].
    split; [exact Hwfn|]. split; [exact Hcn|]. split; [exact Han|].
    split; [exact Hflags|]. split; [exact Hdist|].
    intros b' w Hb' Hw.
    apply (Hfresh b' w); [apply elem_of_cons; now right | exact Hw].
  - intros b rest' new v (Hwfn & Hcn & Han & Hflags & Hdist & Hfresh)
      Hflag Hv.
    apply Forall_cons in Hflags as [_ Hflags].
    destruct Hdist as [Hb_rest Hdist].
    pose proof (shape_pos new (wf_shape new Hwfn)) as Hpos.
    assert (Hlive : live b = Some v) by (unfold live; now rewrite Hflag).
    assert (Habs : ~ present new (extract_ v))
      by (apply (Hfresh b v); [apply elem_of_cons; now left | exact Hlive]).
    destruct (insert_impl_ok new v fuel Hwfn) as
      (t1 & pos & Hins & Hwf1 & _ & _ & Hh1 & Hc1); [lia | exact Habs |].
    exists t1. split; [unfold ins; now rewrite Hins|]. split.
    { unfold ins_alloc.
      rewrite (insert_impl_alloc_ok allocates new v fuel Hwfn)
        by (first [lia | exact Habs | intros _; exact Han]).
      now rewrite Hins. }
    intros Ec.
    assert (Hsame : bucket_count_ t1 = bucket_count_ new).
    { rewrite Hc1 in *.
      destruct (size_ new =? max_size_ new); [lia | reflexivity]. }
    split; [exact Hwf1|]. split; [lia|].
    split; [now rewrite Hsame|].
    split; [exact Hflags|]. split; [exact Hdist|].
    intros b' w Hb' Hw Hp.
    apply (present_add new t1 v Hh1) in Hp as [Hm | Hp].
    + pose proof (Hb_rest v b' w Hlive Hb' Hw) as Hne.
      apply (equal_sym Hkeys) in Hm. congruence.
    + apply (Hfresh b' w);
        [apply elem_of_cons; now right | exact Hw | exact Hp].
  - split; [exact Hwf0|]. split; [exact Hc|]. split; [exact Ha|].
    split; [exact Hflags0|]. split; [exact Hdist0|].
    intros b w _ _ (i & u & Hu & _). now rewrite slot_fresh in Hu.
Qed.

Lemma rehash_alloc_any allocates fuel (t : table) count :
  wf t -> 1 <= count <= 2 ^ 62 ->
  allocates (upper_power_of_two count) = true ->
  allocates (2 * upper_power_of_two count) = true ->
  rehash_alloc hash_ extract_ allocates (S (S fuel)) t count =
  Returned <$> rehash hash_ extract_ (S (S fuel)) t count.
Proof.
  intros Hwf Hcount Ha Ha2.
  rewrite rehash_alloc_unfold, rehash_unfold, Ha.
  assert (Hr : 1 <= count <= 2 ^ 63) by lia.
  destruct (upper_power_of_two_least count Hr) as [Hge Hleast].
  assert (Hle : upper_power_of_two count <= 2 ^ 62)
    by (apply Hleast; lia).
  apply rehash_sweep_alloc_any.
  - apply (wf_kernel_new count Hr).
  - lia.
  - exact Ha2.
  - apply (shape_flags t (wf_shape t Hwf)).
  - apply unique_keys_distinct, (wf_unique t Hwf).
Qed.

Lemma rehash_sweep_alloc_none g count :
  forall (rest : list bucket) (new : table),
    live_count rest = O ->
    rehash_sweep_alloc hash_ extract_ g count rest new
      = Some (Returned new).
Proof.
  induction rest as [|b rest IH]; intros new Hc; [reflexivity|].
  simpl in Hc. destruct (has_value b) eqn:Hflag; [lia|].
  rewrite rehash_sweep_alloc_dead by exact Hflag. apply IH. lia.
Qed.

(** X12: [rehash] with any request from 1 to [2^62], where the
    environment builds a vector of the request rounded up to a power of
    two and one of twice that, returns a well-formed container whose
    bucket count is the rounded request, or twice that when the sweep
    grew the table.  It never adds an entry: every entry afterwards was
    there before, and the size does not go up.  Where the environment
    does not build the vector of the rounded request, [rehash] throws
    and leaves the old buckets under the new bucket count. *)
Theorem rehash_never_adds allocates fuel (t : table) count :
  wf t ->
  (1 <= count <= 2 ^ 62 ->
   allocates (upper_power_of_two count) = true ->
   allocates (2 * upper_power_of_two count) = true ->
   exists t',
     rehash_alloc hash_ extract_ allocates (S (S fuel)) t count
       = Some (Returned t') /\
     wf t' /\ size_ t' <= size_ t /\
     (forall w, holds t' w -> holds t w) /\
     (forall key, present t' key -> present t key) /\
     count <= bucket_count_ t' /\
     (bucket_count_ t' = upper_power_of_two count \/
      bucket_count_ t' = 2 * upper_power_of_two count)) /\
  (allocates (upper_power_of_two count) = false ->
   rehash_alloc hash_ extract_ allocates fuel t count =
   Some (Thrown (set_bucket_count t (upper_power_of_two count)))).
Proof.
  intros Hwf. split.
  - intros Hcount Ha Ha2.
    destruct (rehash_any fuel t count Hwf Hcount) as (t' & Hre & Hrest).
    exists t'. split; [|exact Hrest].
    rewrite (rehash_alloc_any allocates fuel t count Hwf Hcount Ha Ha2).
    now rewrite Hre.
  - intros Ha. now rewrite rehash_alloc_unfold, Ha.
Qed.

(** X13: on a well-formed container without entries [rehash(count)]
    does what the constructor does with the same request, whatever the
    request is: where the environment builds the vector both give the
    same container, and where it does not both throw, [rehash] leaving
    the old buckets under the new bucket count.  [reserve(count)] does
    the same with the converted bucket count. *)
Theorem rehash_empty_is_new allocates fuel (t : table) count :
  wf t -> empty t = true ->
  (allocates (upper_power_of_two count) = true ->
   rehash_alloc hash_ extract_ allocates fuel t count
     = Some (Returned (kernel_new count)) /\
   kernel_new_alloc (Value := Value) allocates count
     = Returned (kernel_new count)) /\
  (allocates (upper_power_of_two count) = false ->
   rehash_alloc hash_ extract_ allocates fuel t count
     = Some (Thrown (set_bucket_count t (upper_power_of_two count))) /\
   kernel_new_alloc (Value := Value) allocates count = Thrown tt) /\
  reserve_alloc hash_ extract_ allocates fuel t count =
    match reserve_count count with
    | Some n =>
        Some (if allocates (upper_power_of_two n)
              then Returned (kernel_new n)
              else Thrown (set_bucket_count t (upper_power_of_two n)))
    | None => None
    end.
Proof.
  intros Hwf He. apply Z.eqb_eq in He.
  assert (Hc : live_count (buckets_ t) = O)
    by (pose proof (wf_size t Hwf); lia).
  assert (Hre : forall n,
    rehash_alloc hash_ extract_ allocates fuel t n =
    Some (if allocates (upper_power_of_two n)
          then Returned (kernel_new n)
          else Thrown (set_bucket_count t (upper_power_of_two n)))).
  { intros n. rewrite rehash_alloc_unfold.
    destruct (allocates (upper_power_of_two n)); [|reflexivity].
    now apply rehash_sweep_alloc_none. }
  unfold kernel_new_alloc. rewrite Hre.
  split; [|split].
  - intros Ha. now rewrite Ha.
  - intros Ha. now rewrite Ha.
  - unfold reserve_alloc.
    destruct (reserve_count count) as [n|]; [|reflexivity]. apply Hre.
Qed.

(** X14: [rehash] to a power of two [2^k] whose load limit has room for
    the entries, where the environment builds a vector of [2^k]
    buckets, keeps every entry: the result is well-formed with the
    requested bucket count, the same size, the same entries and the
    same keys. *)
Theorem rehash_keeps_entries allocates fuel (t : table) k :
  wf t -> 0 <= k <= 63 -> size_ t <= max_size_of (2 ^ k) ->
  allocates (2 ^ k) = true ->
  exists t',
    rehash_alloc hash_ extract_ allocates (S fuel) t (2 ^ k)
      = Some (Returned t') /\
    wf t' /\ bucket_count_ t' = 2 ^ k /\ size_ t' = size_ t /\
    (forall w, holds t' w <-> holds t w) /\
    (forall key, present t' key <-> present t key).
Proof.
  intros Hwf Hk Hroom Ha.
  destruct (rehash_good fuel t k Hwf Hk Hroom)
    as (t' & Hre & Hwf' & Hc & Hsz & Hh).
  exists t'. split.
  - rewrite (rehash_alloc_good allocates fuel t k Hwf Hk Hroom Ha).
    now rewrite Hre.
  - split; [exact Hwf'|]. split; [exact Hc|]. split; [exact Hsz|].
    split; [exact Hh|]. now apply present_iff_holds.
Qed.

(** ** Where insert puts an entry *)

(** X15: the probe of the private [insert] from any index of a
    well-formed container stops at the first empty slot at or after
    that index, going round the end of the table; below the load limit
    the public [insert] of an entry with a new key constructs the entry
    in the first empty slot from its ideal index. *)
Theorem insert_places_in_first_free fuel (t : table) v :
  wf t ->
  (forall start, 0 <= start < bucket_count_ t ->
     exists d,
       0 <= d < bucket_count_ t /\
       free_loop (probe_fuel t) t start = Some (index_add t start d) /\
       slot t (index_add t start d) = None /\
       forall d', 0 <= d' < d -> slot t (index_add t start d') <> None) /\
  (size_ t < max_size_ t -> ~ present t (extract_ v) ->
   exists f,
     free_loop (probe_fuel t) t (ideal t v) = Some f /\
     insert hash_ equal_ extract_ (S fuel) t v
       = Some (place t f v, f, true)).
Proof.
  intros Hwf. pose proof (wf_shape t Hwf) as Hs.
  assert (Hprobe : forall start, 0 <= start < bucket_count_ t ->
    exists d,
      0 <= d < bucket_count_ t /\
      free_loop (probe_fuel t) t start = Some (index_add t start d) /\
      slot t (index_add t start d) = None /\
      forall d', 0 <= d' < d -> slot t (index_add t start d') <> None).
  { intros start Hstart. rewrite free_loop_scan by assumption.
    pose proof (scan_total t (fun _ => false) start Hs
                  (wf_has_free t Hwf) Hstart) as Hscan.
    remember (scan (probe_fuel t) t (fun _ => false) start) as r eqn:Hr.
    destruct Hscan as [d Hd Hpath Hfree | d w Hd Hpath Hw Hp];
      [|discriminate].
    exists d. rewrite index_add_cadd by exact Hs.
    split; [exact Hd|]. split; [reflexivity|]. split; [exact Hfree|].
    intros d' Hd'. rewrite index_add_cadd by exact Hs.
    destruct (Hpath d' Hd') as (u & Hu & _). congruence. }
  split; [exact Hprobe|].
  intros Hlt Habs.
  destruct (insert_impl_place t v fuel Hwf Hlt Habs)
    as (f & Himpl & Hf & _ & _).
  exists f. split.
  - rewrite insert_impl_unfold in Himpl.
    destruct (Z.eqb_spec (size_ t) (max_size_ t)) as [E | _]; [lia|].
    destruct (free_loop (probe_fuel t) t (ideal t v)) as [f'|];
      [|discriminate].
    simpl in Himpl. now injection Himpl as _ ->.
  - rewrite insert_unfold.
    rewrite (find_absent t (extract_ v) Hs (wf_has_free t Hwf)
               (wf_probe t Hwf) Habs).
    rewrite buckets_end_count, Z.eqb_refl by exact Hs.
    now rewrite Himpl.
Qed.

(** ** clear *)

Lemma bucket_at_nil (t : table) i :
  buckets_ t = [] -> bucket_at t i = None.
Proof.
  intros Hnil. unfold bucket_at. rewrite Hnil.
  now destruct (i <? 0).
Qed.

(** X16: [clear] on a container of at most [INT_MAX] buckets runs the
    destructor once on the storage of every bucket, occupied or not,
    and leaves no bucket while the bucket count stays; afterwards
    [begin()] is [end()] and a traversal visits nothing, but [find],
    [insert] and [erase] index the empty bucket vector. *)
Theorem clear_leaves_no_bucket (t : table) :
  shape t -> bucket_count_ t <= INT_MAX ->
  exists t' trace,
    clear t = Some (t', trace) /\
    Z.of_nat (length trace) = bucket_count_ t /\
    (forall i b, bucket_at t i = Some b ->
       trace !! Z.to_nat i = Some (Destroy i (has_value b))) /\
    size_ t' = 0 /\ bucket_count_ t' = bucket_count_ t /\
    buckets_end t' = 0 /\
    buckets_begin t' = Some (buckets_end t') /\
    traverse t' = Some [] /\
    (forall key, find hash_ equal_ extract_ t' key = None) /\
    (forall fuel v, insert hash_ equal_ extract_ fuel t' v = None) /\
    (forall fuel key, erase hash_ equal_ extract_ fuel t' key = None).
Proof.
  intros Hs Hmax. pose proof (shape_len t Hs) as Hlen.
  destruct (clear_spec t Hlen Hmax)
    as (t' & trace & Hclear & Hnil & Hc & Hsz & Hl & Htrace).
  assert (Hend : buckets_end t' = 0) by (unfold buckets_end; now rewrite Hnil).
  assert (Hbegin : buckets_begin t' = Some (buckets_end t')).
  { unfold buckets_begin, empty. now rewrite Hsz. }
  assert (Hfind : forall key, find hash_ equal_ extract_ t' key = None).
  { intros key. unfold find, find_impl, probe_fuel. rewrite Hnil.
    cbn [length find_loop]. now rewrite bucket_at_nil. }
  exists t', trace. split; [exact Hclear|]. split; [lia|]. split.
  - intros i b Hb. pose proof (bucket_at_Some t i b Hb) as Hi.
    rewrite bucket_at_lookup in Hb by lia.
    rewrite (Htrace _ b Hb). do 2 f_equal. lia.
  - split; [exact Hsz|]. split; [exact Hc|]. split; [exact Hend|].
    split; [exact Hbegin|]. split.
    + rewrite traverse_unfold, Hbegin. unfold probe_fuel.
      now rewrite traverse_from_unfold, Z.eqb_refl.
    + split; [exact Hfind|]. split.
      * intros fuel v. now rewrite insert_unfold, Hfind.
      * intros fuel key. rewrite erase_unfold. unfold probe_fuel.
        rewrite Hnil. cbn [length erase_probe].
        now rewrite bucket_at_nil.
Qed.

(** ** The keys after a run of inserts *)

Lemma insert_all_cons fuel (t : table) v values :
  insert_all fuel t (v :: values) =
  match insert hash_ equal_ extract_ fuel t v with
  | Some (t', _, _) => insert_all fuel t' values
  | None => None
  end.
Proof. reflexivity. Qed.

(** X17: a run of inserts into a well-formed container keeps every
    entry that was there, adds only entries of the run, and makes
    present exactly the old keys and the keys of the run; where a key
    of the run was already present, or comes twice, the first entry
    stays.  The size grows by at most the length of the run. *)
Theorem insert_all_keys fuel values :
  forall t : table,
    wf t ->
    bucket_count_ t * 2 ^ Z.of_nat (length values) <= 2 ^ 63 ->
    exists t',
      insert_all (S (S fuel)) t values = Some t' /\ wf t' /\
      (forall w, holds t w -> holds t' w) /\
      (forall w, holds t' w -> holds t w \/ w ∈ values) /\
      (forall key,
         present t' key <->
         present t key \/
         exists v, v ∈ values /\ equal_ key (extract_ v) = true) /\
      size_ t <= size_ t' <= size_ t + Z.of_nat (length values).
Proof.
  induction values as [|v values IH]; intros t Hwf Hcap.
  - exists t. split; [reflexivity|]. split; [exact Hwf|].
    split; [auto|]. split; [auto|]. split; [|simpl; lia].
    intros key. split; [now left|].
    intros [Hp | (v & Hv & _)]; [exact Hp|]. now apply elem_of_nil in Hv.
  - pose proof (shape_pos t (wf_shape t Hwf)) as Hn.
    assert (Hpow : 0 < 2 ^ Z.of_nat (length values))
      by (apply Z.pow_pos_nonneg; lia).
    replace (Z.of_nat (length (v :: values)))
      with (Z.of_nat (length values) + 1) in * by (simpl; lia).
    rewrite Z.pow_add_r in Hcap by lia. change (2 ^ 1) with 2 in Hcap.
    assert (Hcap' : bucket_count_ t < 2 ^ 63) by nia.
    rewrite insert_all_cons.
    assert (Hstep : exists t1 pos flag,
      insert hash_ equal_ extract_ (S (S fuel)) t v = Some (t1, pos, flag) /\
      wf t1 /\ bucket_count_ t1 <= 2 * bucket_count_ t /\
      size_ t <= size_ t1 <= size_ t + 1 /\
      (forall w, holds t w -> holds t1 w) /\
      (forall w, holds t1 w -> holds t w \/ w = v) /\
      (forall key,
         present t1 key <->
         present t key \/ equal_ key (extract_ v) = true)).
    { destruct (present_dec t (extract_ v) Hwf) as [Hp | Habs].
      - destruct (insert_present (S (S fuel)) t v Hwf Hp)
          as (pos & w & Hins & _ & _ & _).
        exists t, pos, false. split; [exact Hins|]. split; [exact Hwf|].
        split; [lia|]. split; [lia|]. split; [auto|]. split; [auto|].
        intros key. split; [now left|]. intros [Hk | Hm]; [exact Hk|].
        destruct Hp as (i & u & Hu & Hmu). exists i, u.
        split; [exact Hu|]. exact (equal_trans Hkeys _ _ _ Hm Hmu).
      - destruct (insert_absent fuel t v Hwf Hcap' Habs)
          as (t1 & pos & Hins & Hwf1 & _ & Hsz & Hh & Hc).
        exists t1, pos, true. split; [exact Hins|]. split; [exact Hwf1|].
        split.
        { rewrite Hc. destruct (size_ t =? max_size_ t); lia. }
        split; [lia|]. split.
        { intros w Hw. apply Hh. now right. }
        split.
        { intros w Hw. apply Hh in Hw as [-> | Hw]; [now right | now left]. }
        intros key. rewrite (present_add t t1 v Hh key). tauto. }
    destruct Hstep as (t1 & pos & flag & Hins & Hwf1 & Hc1 & Hsz1 & Hkeep1 &
                       Hnew1 & Hp1).
    rewrite Hins.
    destruct (IH t1 Hwf1) as (t' & Hall & Hwf' & Hkeep & Hnew & Hp & Hsz);
      [nia|].
    exists t'. split; [exact Hall|]. split; [exact Hwf'|]. split.
    + intros w Hw. now apply Hkeep, Hkeep1.
    + split.
      * intros w Hw. apply Hnew in Hw as [Hw | Hw].
        -- apply Hnew1 in Hw as [Hw | ->]; [now left|].
           right. apply elem_of_cons. now left.
        -- right. apply elem_of_cons. now right.
      * split; [|lia].
        intros key. rewrite Hp, Hp1. split.
        -- intros [[Hk | Hm] | (u & Hu & Hm)].
           ++ now left.
           ++ right. exists v. split; [apply elem_of_cons; now left | exact Hm].
           ++ right. exists u.
              split; [apply elem_of_cons; now right | exact Hm].
        -- intros [Hk | (u & Hu & Hm)]; [left; now left|].
           apply elem_of_cons in Hu as [-> | Hu].
           ++ left. now right.
           ++ right. now exists u.
Qed.

(** ** Traversal after an update *)

(** X18: a traversal follows the updates.  After the insert of an
    entry with a new key the traversal yields that entry and the
    entries it yielded before, in some order; after the erase of a
    present key it yields the entries it yielded before without the one
    that had the key. *)
Theorem traverse_after_update fuel (t : table) :
  wf t ->
  exists values,
    traverse t = Some values /\
    (forall v,
       bucket_count_ t < 2 ^ 63 -> ~ present t (extract_ v) ->
       exists t' pos values',
         insert hash_ equal_ extract_ (S (S fuel)) t v
           = Some (t', pos, true) /\
         traverse t' = Some values' /\
         values' ≡ₚ v :: values) /\
    (forall key,
       present t key ->
       exists t' w values',
         erase hash_ equal_ extract_ (S fuel) t key = Some (t', 1) /\
         traverse t' = Some values' /\
         equal_ key (extract_ w) = true /\
         values ≡ₚ w :: values').
Proof.
  intros Hwf. exists (entries (buckets_ t)).
  split; [now apply traverse_entries|]. split.
  - intros v Hcap Habs.
    destruct (insert_absent fuel t v Hwf Hcap Habs)
      as (t' & pos & Hins & Hwf' & _ & _ & Hh & _).
    exists t', pos, (entries (buckets_ t')). split; [exact Hins|].
    split; [now apply traverse_entries|].
    apply NoDup_Permutation.
    + now apply entries_NoDup.
    + apply NoDup_cons. split; [|now apply entries_NoDup].
      intros Hv. apply entries_holds in Hv as [i Hi]. apply Habs.
      exists i, v. split; [exact Hi | apply (equal_refl Hkeys)].
    + intros w. rewrite elem_of_cons, <- !entries_holds. apply Hh.
  - intros key Hp.
    destruct (erase_spec fuel t key Hwf)
      as (t' & c & Herase & Hwf' &
          [(Habs & _) | (_ & -> & _ & g & vg & Hg & Hmg & Hh)]);
      [contradiction|].
    exists t', vg, (entries (buckets_ t')). split; [exact Herase|].
    split; [now apply traverse_entries|]. split; [exact Hmg|].
    apply NoDup_Permutation.
    + now apply entries_NoDup.
    + apply NoDup_cons. split; [|now apply entries_NoDup].
      intros Hv. apply entries_holds, Hh in Hv as (j & Hj & Hw).
      apply Hj. apply (wf_unique t Hwf j g vg vg Hw Hg).
      apply (equal_refl Hkeys).
    + intros w. rewrite elem_of_cons, <- !entries_holds, Hh. split.
      * intros [j Hw]. destruct (Z.eq_dec j g) as [-> | Hne].
        -- left. congruence.
        -- right. now exists j.
      * intros [-> | (j & _ & Hw)]; [now exists g | now exists j].
Qed.

(** ** Growing and shrinking do not undo each other *)


(** X20: erasing the same key a second time finds nothing: the second
    call returns 0 and leaves the size, the entries and the keys as the
    first call left them. *)
Theorem erase_twice fuel (t : table) key :
  wf t ->
  exists t1 c t2,
    erase hash_ equal_ extract_ (S fuel) t key = Some (t1, c) /\
    erase hash_ equal_ extract_ (S fuel) t1 key = Some (t2, 0) /\
    size_ t2 = size_ t1 /\
    (forall w, holds t2 w <-> holds t1 w) /\
    (forall k, present t2 k <-> present t1 k).
Proof.
  intros Hwf.
  destruct (erase_spec fuel t key Hwf) as (t1 & c & Herase & Hwf1 & _).
  pose proof (erase_removes_key fuel t t1 key c Hwf Herase) as Habs.
  destruct (erase_spec fuel t1 key Hwf1)
    as (t2 & c2 & Herase2 & _ &
        [(_ & -> & Hsz & Hh & _) | (Hp & _)]); [|contradiction].
  exists t1, c, t2. split; [exact Herase|]. split; [exact Herase2|].
  split; [exact Hsz|]. split; [exact Hh|]. now apply present_iff_holds.
Qed.

(** ** operator[] after insert *)

Section map_view.
Context {Mapped : Type}.
Variable mapped_extract_ : Value -> Mapped.

Lemma subscript_at (t : table) key pos w :
  wf t -> find hash_ equal_ extract_ t key = Some pos ->
  slot t pos = Some w ->
  subscript hash_ equal_ extract_ mapped_extract_ t key =
  Some {| access_state := t;
          access_index := pos;
          access_mapped := Some (mapped_extract_ w) |}.
Proof.
  intros Hwf Hfind Hw. pose proof (wf_shape t Hwf) as Hs.
  unfold subscript.
  change (find_impl equal_ extract_ t key (index_from_key hash_ t key))
    with (find hash_ equal_ extract_ t key).
  rewrite Hfind. simpl.
  destruct (bucket_view t pos Hs (slot_range t Hs _ _ Hw)) as (b & Hb & Hview).
  rewrite Hw in Hview. destruct Hview as [_ Hmem].
  rewrite Hb. simpl. rewrite Hmem. reflexivity.
Qed.

(** X21: [operator[]] after [insert].  After the insert of an entry the
    subscript by its key reads the slot [insert] returned and leaves
    the container as it is.  If the key was new the mapped view is that
    of the inserted entry; if the key was present the container is
    unchanged and the mapped view is that of the entry that was there:
    [insert] does not overwrite. *)
Theorem subscript_after_insert fuel (t : table) v :
  wf t -> bucket_count_ t < 2 ^ 63 ->
  exists t' pos flag w,
    insert hash_ equal_ extract_ (S (S fuel)) t v = Some (t', pos, flag) /\
    slot t' pos = Some w /\
    subscript hash_ equal_ extract_ mapped_extract_ t' (extract_ v) =
      Some {| access_state := t';
              access_index := pos;
              access_mapped := Some (mapped_extract_ w) |} /\
    (flag = true -> w = v /\ ~ present t (extract_ v)) /\
    (flag = false -> t' = t /\ present t (extract_ v)).
Proof.
  intros Hwf Hcap.
  destruct (present_dec t (extract_ v) Hwf) as [Hp | Habs].
  - destruct (insert_present (S (S fuel)) t v Hwf Hp)
      as (pos & w & Hins & Hfind & Hw & _).
    exists t, pos, false, w. split; [exact Hins|]. split; [exact Hw|].
    split; [now apply subscript_at|]. split; [discriminate | auto].
  - destruct (insert_absent fuel t v Hwf Hcap Habs)
      as (t' & pos & Hins & Hwf' & Hv & _).
    exists t', pos, true, v. split; [exact Hins|]. split; [exact Hv|].
    split; [|split; [auto | discriminate]].
    apply subscript_at; [exact Hwf'| |exact Hv].
    destruct (find_present t' (extract_ v) (wf_shape t' Hwf')
                (wf_has_free t' Hwf') (wf_probe t' Hwf'))
      as (i & w & Hfind & Hw & Hm).
    { exists pos, v. split; [exact Hv | apply (equal_refl Hkeys)]. }
    rewrite Hfind. f_equal.
    apply (wf_unique t' Hwf' i pos w v Hw Hv).
    now apply (equal_sym Hkeys).
Qed.

End map_view.

End table.

(** * The theorems at the set of integers *)

Lemma int_keys : key_equivalence int_hash Z.eqb.
Proof.
  split.
  - apply Z.eqb_refl.
  - intros a b H. now rewrite Z.eqb_sym.
  - intros a b c Hab Hbc. apply Z.eqb_eq in Hab, Hbc. apply Z.eqb_eq. lia.
  - intros a b Hab. apply Z.eqb_eq in Hab. now subst.
Qed.

Lemma table_of_wf bucket_count values t :
  1 <= bucket_count <= 2 ^ 32 -> (length values <= 30)%nat ->
  insert_all int_hash Z.eqb int_key 2 (kernel_new bucket_count) values
    = Some t ->
  wf int_hash Z.eqb int_key t.
Proof.
  intros Hc Hl Hall.
  destruct (insert_all_wf int_hash Z.eqb int_key int_keys 0 values
              (kernel_new bucket_count)) as (t' & Hall' & Hwf).
  - apply wf_kernel_new. lia.
  - assert (bucket_count_ (kernel_new (Value := Z) bucket_count) <= 2 ^ 32).
    { change (bucket_count_ (kernel_new bucket_count))
        with (upper_power_of_two bucket_count).
      apply upper_power_of_two_least; lia. }
    assert (0 < bucket_count_ (kernel_new (Value := Z) bucket_count)).
    { change (bucket_count_ (kernel_new bucket_count))
        with (upper_power_of_two bucket_count).
      pose proof (upper_power_of_two_least bucket_count). lia. }
    assert (2 ^ Z.of_nat (length values) <= 2 ^ 30)
      by (apply Z.pow_le_mono_r; lia).
    assert (0 < 2 ^ Z.of_nat (length values))
      by (apply Z.pow_pos_nonneg; lia).
    change (2 ^ 63) with (2 ^ 32 * 2 ^ 31). nia.
  - rewrite Hall in Hall'. now injection Hall' as <-.
Qed.

Lemma sample_wf : wf int_hash Z.eqb int_key sample.
Proof.
  apply (table_of_wf 16 [1; 17; 2; 33]); [lia | simpl; lia |].
  vm_compute. reflexivity.
Qed.

Lemma loaded_wf : wf int_hash Z.eqb int_key loaded.
Proof.
  apply (table_of_wf 16 [1; 2; 3; 4; 5; 6; 7; 8; 9; 10; 11]);
    [lia | simpl; lia |].
  vm_compute. reflexivity.
Qed.

Lemma sparse_wf : wf int_hash Z.eqb int_key sparse.
Proof.
  apply (table_of_wf 64
           [0; 1; 2; 3; 4; 5; 6; 7; 8; 9; 10; 11; 12; 13; 14; 15; 16]);
    [lia | simpl; lia |].
  vm_compute. reflexivity.
Qed.

(** ** The theorems at concrete tables *)

Lemma erase_keeps_probe_runs_witness :
  key_equivalence int_hash Z.eqb /\
  wf int_hash Z.eqb int_key sample /\
  exists t' c,
    erase int_hash Z.eqb int_key 1 sample 17 = Some (t', c) /\
    wf int_hash Z.eqb int_key t' /\ probe_run int_hash int_key t'.
Proof.
  split; [exact int_keys|]. split; [exact sample_wf|].
  exact (proj1 (erase_keeps_probe_runs int_hash Z.eqb int_key int_keys
                  0 sample 17 sample_wf)).
Defined.

Lemma insert_find_erase_roundtrip_witness :
  key_equivalence int_hash Z.eqb /\
  wf int_hash Z.eqb int_key sample /\
  bucket_count_ sample < 2 ^ 63 /\
  exists t1 pos flag,
    insert int_hash Z.eqb int_key 2 sample 49 = Some (t1, pos, flag) /\
    (exists v,
       find int_hash Z.eqb int_key t1 (int_key 49) = Some pos /\
       pos <> buckets_end t1 /\
       slot t1 pos = Some v /\
       Z.eqb (int_key 49) (int_key v) = true) /\
    exists t2 c,
      erase int_hash Z.eqb int_key 1 t1 (int_key 49) = Some (t2, c) /\
      find int_hash Z.eqb int_key t2 (int_key 49) = Some (buckets_end t2).
Proof.
  split; [exact int_keys|]. split; [exact sample_wf|].
  assert (Hcap : bucket_count_ sample < 2 ^ 63) by (vm_compute; reflexivity).
  split; [exact Hcap|].
  exact (insert_find_erase_roundtrip int_hash Z.eqb int_key int_keys
           0 sample 49 sample_wf Hcap).
Defined.

Lemma erase_count_and_frame_witness :
  key_equivalence int_hash Z.eqb /\
  wf int_hash Z.eqb int_key sample /\
  exists t' c,
    erase int_hash Z.eqb int_key 1 sample 100 = Some (t', c) /\
    ((present Z.eqb int_key sample 100 /\ c = 1) \/
     (~ present Z.eqb int_key sample 100 /\ c = 0 /\
      size_ t' = size_ sample /\
      (forall k, present Z.eqb int_key t' k <-> present Z.eqb int_key sample k) /\
      (forall w, holds t' w <-> holds sample w) /\
      (~ (size_ sample < min_size_ sample /\ 16 < size_ sample) ->
       t' = sample) /\
      (size_ sample < min_size_ sample /\ 16 < size_ sample ->
       2 * bucket_count_ t' = bucket_count_ sample))).
Proof.
  split; [exact int_keys|]. split; [exact sample_wf|].
  exact (erase_count_and_frame int_hash Z.eqb int_key int_keys
           0 sample 100 sample_wf).
Defined.

Lemma insert_size_bound_witness :
  key_equivalence int_hash Z.eqb /\
  wf int_hash Z.eqb int_key loaded /\
  bucket_count_ loaded < 2 ^ 63 /\
  exists t' pos flag,
    insert int_hash Z.eqb int_key 2 loaded 12 = Some (t', pos, flag) /\
    size_ t' <= max_size_ t' /\
    (flag = false -> t' = loaded) /\
    (flag = true ->
       size_ t' = size_ loaded + 1 /\
       ((size_ loaded < max_size_ loaded /\
         bucket_count_ t' = bucket_count_ loaded) \/
        (size_ loaded = max_size_ loaded /\
         bucket_count_ t' = 2 * bucket_count_ loaded))).
Proof.
  split; [exact int_keys|]. split; [exact loaded_wf|].
  assert (Hcap : bucket_count_ loaded < 2 ^ 63) by (vm_compute; reflexivity).
  split; [exact Hcap|].
  exact (proj1 (insert_size_bound int_hash Z.eqb int_key int_keys
                  0 loaded 12 loaded_wf Hcap)).
Defined.

Lemma insert_keeps_keys_unique_witness :
  key_equivalence int_hash Z.eqb /\
  wf int_hash Z.eqb int_key (kernel_new 16) /\
  bucket_count_ (kernel_new (Value := Z) 16) < 2 ^ 63 /\
  size_ (kernel_new (Value := Z) 16) + Z.of_nat (length (seqZ 0 100))
    <= max_size_of (2 ^ 62) /\
  exists t',
    insert_all int_hash Z.eqb int_key 2 (kernel_new 16) (seqZ 0 100)
      = Some t' /\
    wf int_hash Z.eqb int_key t' /\
    unique_keys Z.eqb int_key t' /\
    forall v, present Z.eqb int_key t' (int_key v) ->
      exists pos w,
        insert int_hash Z.eqb int_key 2 t' v = Some (t', pos, false) /\
        slot t' pos = Some w /\
        Z.eqb (int_key v) (int_key w) = true.
Proof.
  assert (Hwf : wf int_hash Z.eqb int_key (kernel_new 16))
    by (apply wf_kernel_new; lia).
  assert (Hcap : bucket_count_ (kernel_new (Value := Z) 16) < 2 ^ 63)
    by reflexivity.
  assert (Hlen :
    size_ (kernel_new (Value := Z) 16) + Z.of_nat (length (seqZ 0 100))
      <= max_size_of (2 ^ 62))
    by (vm_compute; intros H; discriminate H).
  split; [exact int_keys|]. split; [exact Hwf|]. split; [exact Hcap|].
  split; [exact Hlen|].
  destruct (insert_keeps_keys_unique int_hash Z.eqb int_key int_keys
              0 (kernel_new 16) (seqZ 0 100) Hwf)
    as (Hsafe & Htotal & _).
  destruct (Htotal Hcap Hlen) as [t' Hall].
  destruct (Hsafe t' Hall) as (Hwf' & Hunique & Hagain).
  exists t'. split; [exact Hall|]. split; [exact Hwf'|].
  split; [exact Hunique | exact Hagain].
Defined.

Lemma subscript_never_inserts_witness :
  key_equivalence int_hash Z.eqb /\
  wf int_hash Z.eqb int_key sample /\
  exists a,
    subscript int_hash Z.eqb int_key (fun v : Z => v) sample 3 = Some a /\
    access_state a = sample /\
    (~ present Z.eqb int_key sample 3 ->
       access_index a = bucket_count_ sample /\
       access_index a = buckets_end sample /\
       bucket_at sample (access_index a) = None /\
       access_mapped a = None).
Proof.
  split; [exact int_keys|]. split; [exact sample_wf|].
  destruct (subscript_never_inserts int_hash Z.eqb int_key int_keys
              (fun v : Z => v) sample 3) as [Hframe Hwf].
  destruct (Hwf sample_wf) as (a & Ha & _ & Habs).
  exists a. split; [exact Ha|]. split; [|exact Habs].
  exact (proj1 (Hframe a Ha)).
Defined.

(** ** Where the code leaves the specification *)

Lemma pair_table_wf : wf int_hash Z.eqb int_key pair_table.
Proof.
  apply (table_of_wf 16 [1; 2]); [lia | simpl; lia |].
  vm_compute. reflexivity.
Qed.

Lemma quad_table_wf : wf int_hash Z.eqb int_key quad_table.
Proof.
  apply (table_of_wf 8 [0; 1; 2; 3]); [lia | simpl; lia |].
  vm_compute. reflexivity.
Qed.

(** C1: [rehash] does not re-place every live entry.  [rehash(10)] on a
    table that holds the keys 1 and 2 makes 16 buckets, re-places the
    key 1 and leaves the sweep, because the guard compares the bucket
    count with the requested 10: the size is 1 and the key 2 is gone.
    [reserve(7)] is that very call.  [rehash(4)] on a table of four keys
    grows while it sweeps and then leaves the sweep: the key 3 is gone. *)
Theorem rehash_drops_entries :
  (size_ pair_table = 2 /\
   find int_hash Z.eqb int_key pair_table 1 = Some 1 /\
   find int_hash Z.eqb int_key pair_table 2 = Some 2) /\
  (exists t',
     rehash int_hash int_key 1 pair_table 10 = Some t' /\
     bucket_count_ t' = 16 /\ size_ t' = 1 /\
     find int_hash Z.eqb int_key t' 1 = Some 1 /\
     find int_hash Z.eqb int_key t' 2 = Some (buckets_end t')) /\
  reserve int_hash int_key 1 pair_table 7
    = rehash int_hash int_key 1 pair_table 10 /\
  (size_ quad_table = 4 /\
   find int_hash Z.eqb int_key quad_table 3 = Some 3) /\
  (exists t',
     rehash int_hash int_key 2 quad_table 4 = Some t' /\
     bucket_count_ t' = 8 /\ size_ t' = 3 /\
     find int_hash Z.eqb int_key t' 3 = Some (buckets_end t')).
Proof.
  split; [vm_compute; auto|].
  split; [eexists; split; [vm_compute; reflexivity | vm_compute; auto]|].
  split; [vm_compute; reflexivity|].
  split; [vm_compute; auto|].
  eexists; split; [vm_compute; reflexivity | vm_compute; auto].
Qed.

(** C4: [erase] of an absent key does not always leave the container
    unchanged.  The key 100 is absent from [sparse], a well-formed
    table of 17 keys in 64 buckets; [erase(100)] returns 0 and still
    runs the shrink test, meant for the case that a removal brought the
    size below the minimum load: the 64 buckets have become 32 and the
    slot contents are not what they were. *)
Lemma erase_absent_rehashes :
  wf int_hash Z.eqb int_key sparse /\
  ~ present Z.eqb int_key sparse 100 /\
  exists t',
    erase int_hash Z.eqb int_key 1 sparse 100 = Some (t', 0) /\
    bucket_count_ sparse = 64 /\ bucket_count_ t' = 32 /\
    buckets_ t' <> buckets_ sparse.
Proof.
  split; [exact sparse_wf|]. split.
  - apply (find_end_absent int_hash Z.eqb int_key int_keys sparse 100
             sparse_wf).
    vm_compute. reflexivity.
  - eexists. split; [vm_compute; reflexivity|].
    split; [reflexivity|]. split; [reflexivity|].
    intros H. apply (f_equal length) in H. vm_compute in H. discriminate H.
Qed.

(** C8: [clear] on a default-constructed container runs the destructor
    on the storage of all 16 buckets although the flag of each is false,
    and leaves an empty bucket vector under an unchanged bucket count of
    16: no slot can be addressed any more and a lookup indexes out of
    range. *)
Theorem clear_destroys_every_slot :
  exists t' trace,
    clear (kernel_new (Value := Z) 16) = Some (t', trace) /\
    trace = map (fun i => Destroy i false) (seqZ 0 16) /\
    buckets_ t' = [] /\ bucket_count_ t' = 16 /\ size_ t' = 0 /\
    bucket_at t' 0 = None /\
    find int_hash Z.eqb int_key t' 5 = None.
Proof.
  eexists. eexists. split; [vm_compute; reflexivity|].
  vm_compute. auto 10.
Qed.

(** C9: a requested bucket count of 0 gives a capacity of 0, which is
    neither a power of two nor at least 1, at construction and at
    [rehash]; so does a request above [2^63]. *)
Theorem upper_power_of_two_zero :
  upper_power_of_two 0 = 0 /\
  upper_power_of_two (2 ^ 63 + 1) = 0 /\
  bucket_count_ (kernel_new (Value := Z) 0) = 0 /\
  buckets_ (kernel_new (Value := Z) 0) = [] /\
  (exists t',
     rehash int_hash int_key 1 (kernel_new 16) 0 = Some t' /\
     bucket_count_ t' = 0 /\ buckets_ t' = []) /\
  reserve int_hash int_key 1 (kernel_new 16) 0
    = rehash int_hash int_key 1 (kernel_new 16) 0 /\
  find int_hash Z.eqb int_key (kernel_new 0) 5 = None.
Proof.
  split; [reflexivity|]. split; [reflexivity|]. split; [reflexivity|].
  split; [reflexivity|]. split; [|split; reflexivity].
  eexists. split; [vm_compute; reflexivity|]. split; reflexivity.
Qed.

(** ** Further theorems at concrete tables *)

Lemma thin_wf : wf int_hash Z.eqb int_key thin.
Proof.
  apply (table_of_wf 64
           [0; 1; 2; 3; 4; 5; 6; 7; 8; 9; 10; 11; 12; 13; 14; 15; 16; 17]);
    [lia | simpl; lia |].
  vm_compute. reflexivity.
Qed.

Lemma map_sample_wf : wf int_hash Z.eqb extract_first map_sample.
Proof.
  destruct (insert_all_wf int_hash Z.eqb extract_first int_keys 0
              [(1, 10); (17, 20); (2, 30)] (kernel_new 16))
    as (t' & Hall & Hwf).
  - apply wf_kernel_new. lia.
  - vm_compute. discriminate.
  - assert (Hsample :
      insert_all int_hash Z.eqb extract_first 2 (kernel_new 16)
        [(1, 10); (17, 20); (2, 30)] = Some map_sample)
      by (vm_compute; reflexivity).
    rewrite Hsample in Hall. now injection Hall as <-.
Qed.

Lemma sample_absent_49 : ~ present Z.eqb int_key sample 49.
Proof.
  apply (find_end_absent int_hash Z.eqb int_key int_keys sample 49 sample_wf).
  vm_compute. reflexivity.
Qed.

Lemma sample_present_17 : present Z.eqb int_key sample 17.
Proof. exists 2, 17. split; reflexivity. Qed.



Lemma traverse_visits_entries_witness :
  key_equivalence int_hash Z.eqb /\
  wf int_hash Z.eqb int_key sample /\
  exists values,
    traverse sample = Some values /\
    values = entries (buckets_ sample) /\
    Z.of_nat (length values) = size_ sample.
Proof.
  split; [exact int_keys|]. split; [exact sample_wf|].
  destruct (traverse_visits_entries int_hash Z.eqb int_key int_keys
              sample sample_wf) as (values & Ht & Hv & Hl & _).
  exists values. split; [exact Ht|]. split; [exact Hv | exact Hl].
Defined.

Lemma iterator_steps_to_next_entry_witness :
  wf int_hash Z.eqb int_key sample /\
  (exists i,
     buckets_begin sample = Some i /\ 0 <= i <= buckets_end sample /\
     forall k, 0 <= k < i -> slot sample k = None) /\
  iterator_next sample (buckets_end sample) = None.
Proof.
  split; [exact sample_wf|].
  destruct (iterator_steps_to_next_entry int_hash Z.eqb int_key
              sample sample_wf) as [(i & Hb & Hi & Hgap & _) [_ Hend]].
  split; [|exact Hend].
  exists i. split; [exact Hb|]. split; [exact Hi | exact Hgap].
Defined.

Lemma empty_iff_no_entry_witness :
  key_equivalence int_hash Z.eqb /\
  wf int_hash Z.eqb int_key sample /\
  (empty sample = true <-> forall w, ~ holds sample w) /\
  (empty sample = true <->
   buckets_begin sample = Some (buckets_end sample)).
Proof.
  split; [exact int_keys|]. split; [exact sample_wf|].
  destruct (empty_iff_no_entry int_hash Z.eqb int_key int_keys
              sample sample_wf) as (Hh & _ & Hb & _).
  split; [exact Hh | exact Hb].
Defined.

Lemma upper_power_of_two_rounds_up_witness :
  0 <= 10 < 2 ^ 64 /\
  upper_power_of_two (upper_power_of_two 10) = upper_power_of_two 10 /\
  (1 <= 10 <= 2 ^ 63 ->
   10 <= upper_power_of_two 10 < 2 * 10).
Proof.
  split; [lia|].
  destruct (upper_power_of_two_rounds_up 10 ltac:(lia)) as (Hr & _ & Hi).
  split; [exact Hi|]. intros H. exact (proj1 (Hr H)).
Defined.

Lemma index_helpers_modulo_witness :
  shape sample /\
  index_from_key int_hash sample 17 = int_hash 17 mod bucket_count_ sample /\
  index_add sample 15 3 = (15 + 3) mod bucket_count_ sample /\
  index_sub sample 1 3 = (1 - 3) mod bucket_count_ sample.
Proof.
  split; [exact (wf_shape _ _ _ _ sample_wf)|].
  destruct (index_helpers_modulo int_hash sample 17 15 3
              (wf_shape _ _ _ _ sample_wf)) as (Hk & Ha & _).
  destruct (index_helpers_modulo int_hash sample 17 1 3
              (wf_shape _ _ _ _ sample_wf)) as (_ & _ & Hs & _).
  split; [exact Hk|]. split; [exact Ha | exact Hs].
Defined.

Lemma kernel_new_is_empty_witness :
  key_equivalence int_hash Z.eqb /\
  1 <= 10 <= 2 ^ 63 /\
  small_memory (upper_power_of_two 10) = true /\
  exists t : kernel Z,
    kernel_new_alloc small_memory 10 = Returned t /\
    wf int_hash Z.eqb int_key t /\
    size_ t = 0 /\
    10 <= bucket_count_ t /\
    traverse t = Some [].
Proof.
  split; [exact int_keys|]. split; [lia|]. split; [reflexivity|].
  destruct (proj1 (kernel_new_is_empty int_hash Z.eqb int_key int_keys
                     small_memory 10) ltac:(lia) eq_refl)
    as (t & Hnew & Hwf & Hsz & Hge & _ & _ & _ & _ & Ht).
  exists t. split; [exact Hnew|]. split; [exact Hwf|].
  split; [exact Hsz|]. split; [exact Hge | exact Ht].
Defined.

Lemma find_locates_key_witness :
  key_equivalence int_hash Z.eqb /\
  wf int_hash Z.eqb int_key sample /\
  exists pos,
    find int_hash Z.eqb int_key sample 17 = Some pos /\
    (pos = buckets_end sample <-> ~ present Z.eqb int_key sample 17).
Proof.
  split; [exact int_keys|]. split; [exact sample_wf|].
  destruct (find_locates_key int_hash Z.eqb int_key int_keys sample 17
              sample_wf) as (pos & Hf & _ & Hend).
  exists pos. split; [exact Hf | exact Hend].
Defined.

Lemma insert_keeps_entries_witness :
  key_equivalence int_hash Z.eqb /\
  wf int_hash Z.eqb int_key sample /\
  bucket_count_ sample < 2 ^ 63 /\
  ~ present Z.eqb int_key sample (int_key 49) /\
  exists t' pos,
    insert int_hash Z.eqb int_key 2 sample 49 = Some (t', pos, true) /\
    (forall w, holds t' w <-> w = 49 \/ holds sample w).
Proof.
  split; [exact int_keys|]. split; [exact sample_wf|].
  split; [reflexivity|]. split; [exact sample_absent_49|].
  destruct (insert_keeps_entries int_hash Z.eqb int_key int_keys 0 sample 49
              sample_wf eq_refl sample_absent_49)
    as (t' & pos & Hins & _ & _ & Hh & _).
  exists t', pos. split; [exact Hins | exact Hh].
Defined.

Lemma erase_removes_only_witness :
  key_equivalence int_hash Z.eqb /\
  wf int_hash Z.eqb int_key sample /\
  present Z.eqb int_key sample 17 /\
  exists t',
    erase int_hash Z.eqb int_key 1 sample 17 = Some (t', 1) /\
    size_ t' = size_ sample - 1 /\
    (forall w,
       holds t' w <-> holds sample w /\ Z.eqb 17 (int_key w) = false).
Proof.
  split; [exact int_keys|]. split; [exact sample_wf|].
  split; [exact sample_present_17|].
  destruct (erase_removes_only int_hash Z.eqb int_key int_keys 0 sample 17
              sample_wf sample_present_17)
    as (t' & He & _ & Hsz & Hh & _).
  exists t'. split; [exact He|]. split; [exact Hsz | exact Hh].
Defined.

Lemma insert_erase_restores_witness :
  key_equivalence int_hash Z.eqb /\
  wf int_hash Z.eqb int_key sample /\
  bucket_count_ sample < 2 ^ 63 /\
  ~ present Z.eqb int_key sample (int_key 49) /\
  exists t1 pos t2,
    insert int_hash Z.eqb int_key 2 sample 49 = Some (t1, pos, true) /\
    erase int_hash Z.eqb int_key 1 t1 (int_key 49) = Some (t2, 1) /\
    size_ t2 = size_ sample /\
    (forall w, holds t2 w <-> holds sample w).
Proof.
  split; [exact int_keys|]. split; [exact sample_wf|].
  split; [reflexivity|]. split; [exact sample_absent_49|].
  destruct (insert_erase_restores int_hash Z.eqb int_key int_keys 0 sample 49
              sample_wf eq_refl sample_absent_49)
    as (t1 & pos & t2 & Hi & He & _ & Hsz & Hh & _).
  exists t1, pos, t2. split; [exact Hi|]. split; [exact He|].
  split; [exact Hsz | exact Hh].
Defined.

Lemma erase_halves_capacity_witness :
  key_equivalence int_hash Z.eqb /\
  wf int_hash Z.eqb int_key thin /\
  exists t' c,
    erase int_hash Z.eqb int_key 1 thin 5 = Some (t', c) /\
    size_ t' = size_ thin - c /\
    ((bucket_count_ t' = bucket_count_ thin /\
      ~ 16 < size_ t' < min_size_ thin) \/
     (2 * bucket_count_ t' = bucket_count_ thin /\
      16 < size_ t' < min_size_ thin /\
      32 <= bucket_count_ t')).
Proof.
  split; [exact int_keys|]. split; [exact thin_wf|].
  exact (erase_halves_capacity int_hash Z.eqb int_key int_keys 0 thin 5
           thin_wf).
Defined.

Lemma rehash_never_adds_witness :
  key_equivalence int_hash Z.eqb /\
  wf int_hash Z.eqb int_key pair_table /\
  1 <= 10 <= 2 ^ 62 /\
  small_memory (upper_power_of_two 10) = true /\
  small_memory (2 * upper_power_of_two 10) = true /\
  exists t',
    rehash_alloc int_hash int_key small_memory 2 pair_table 10
      = Some (Returned t') /\
    wf int_hash Z.eqb int_key t' /\ size_ t' <= size_ pair_table /\
    (forall w, holds t' w -> holds pair_table w).
Proof.
  split; [exact int_keys|]. split; [exact pair_table_wf|]. split; [lia|].
  split; [reflexivity|]. split; [reflexivity|].
  destruct (proj1 (rehash_never_adds int_hash Z.eqb int_key int_keys
                     small_memory 0 pair_table 10 pair_table_wf)
              ltac:(lia) eq_refl eq_refl)
    as (t' & Hre & Hwf & Hsz & Hh & _).
  exists t'. split; [exact Hre|]. split; [exact Hwf|].
  split; [exact Hsz | exact Hh].
Defined.

Lemma rehash_empty_is_new_witness :
  wf int_hash Z.eqb int_key (kernel_new 16) /\
  empty (kernel_new (Value := Z) 16) = true /\
  (small_memory (upper_power_of_two 100) = true /\
   rehash_alloc int_hash int_key small_memory 1 (kernel_new 16) 100
     = Some (Returned (kernel_new 100)) /\
   kernel_new_alloc (Value := Z) small_memory 100
     = Returned (kernel_new 100)) /\
  (small_memory (upper_power_of_two (2 ^ 62)) = false /\
   rehash_alloc int_hash int_key small_memory 1 (kernel_new 16) (2 ^ 62)
     = Some (Thrown (set_bucket_count (kernel_new 16)
                       (upper_power_of_two (2 ^ 62)))) /\
   kernel_new_alloc (Value := Z) small_memory (2 ^ 62) = Thrown tt).
Proof.
  assert (Hwf : wf int_hash Z.eqb int_key (kernel_new 16))
    by (apply wf_kernel_new; lia).
  split; [exact Hwf|]. split; [reflexivity|]. split.
  - split; [reflexivity|].
    exact (proj1 (rehash_empty_is_new int_hash Z.eqb int_key
                    small_memory 1 (kernel_new 16) 100 Hwf eq_refl)
             eq_refl).
  - split; [reflexivity|].
    exact (proj1 (proj2 (rehash_empty_is_new int_hash Z.eqb int_key
                           small_memory 1 (kernel_new 16) (2 ^ 62)
                           Hwf eq_refl))
             eq_refl).
Defined.

Lemma rehash_keeps_entries_witness :
  key_equivalence int_hash Z.eqb /\
  wf int_hash Z.eqb int_key sample /\
  0 <= 5 <= 63 /\
  size_ sample <= max_size_of (2 ^ 5) /\
  small_memory (2 ^ 5) = true /\
  exists t',
    rehash_alloc int_hash int_key small_memory 1 sample (2 ^ 5)
      = Some (Returned t') /\
    bucket_count_ t' = 2 ^ 5 /\ size_ t' = size_ sample /\
    (forall w, holds t' w <-> holds sample w).
Proof.
  split; [exact int_keys|]. split; [exact sample_wf|]. split; [lia|].
  assert (Hroom : size_ sample <= max_size_of (2 ^ 5))
    by (vm_compute; discriminate).
  split; [exact Hroom|]. split; [reflexivity|].
  destruct (rehash_keeps_entries int_hash Z.eqb int_key int_keys
              small_memory 0 sample 5 sample_wf ltac:(lia) Hroom eq_refl)
    as (t' & Hre & _ & Hc & Hsz & Hh & _).
  exists t'. split; [exact Hre|]. split; [exact Hc|].
  split; [exact Hsz | exact Hh].
Defined.

Lemma insert_places_in_first_free_witness :
  key_equivalence int_hash Z.eqb /\
  wf int_hash Z.eqb int_key sample /\
  size_ sample < max_size_ sample /\
  ~ present Z.eqb int_key sample (int_key 49) /\
  exists f,
    free_loop (probe_fuel sample) sample
      (index_from_value int_hash int_key sample 49) = Some f /\
    insert int_hash Z.eqb int_key 1 sample 49
      = Some (place sample f 49, f, true).
Proof.
  split; [exact int_keys|]. split; [exact sample_wf|].
  split; [reflexivity|]. split; [exact sample_absent_49|].
  exact (proj2 (insert_places_in_first_free int_hash Z.eqb int_key int_keys
                  0 sample 49 sample_wf) eq_refl sample_absent_49).
Defined.

Lemma clear_leaves_no_bucket_witness :
  shape sample /\
  bucket_count_ sample <= INT_MAX /\
  exists t' trace,
    clear sample = Some (t', trace) /\
    Z.of_nat (length trace) = bucket_count_ sample /\
    bucket_count_ t' = bucket_count_ sample /\
    buckets_end t' = 0 /\
    (forall key, find int_hash Z.eqb int_key t' key = None).
Proof.
  split; [exact (wf_shape _ _ _ _ sample_wf)|].
  assert (Hmax : bucket_count_ sample <= INT_MAX) by (vm_compute; discriminate).
  split; [exact Hmax|].
  destruct (clear_leaves_no_bucket int_hash Z.eqb int_key sample
              (wf_shape _ _ _ _ sample_wf) Hmax)
    as (t' & trace & Hc & Hl & _ & _ & Hn & He & _ & _ & Hf & _).
  exists t', trace. split; [exact Hc|]. split; [exact Hl|].
  split; [exact Hn|]. split; [exact He | exact Hf].
Defined.

Lemma insert_all_keys_witness :
  key_equivalence int_hash Z.eqb /\
  wf int_hash Z.eqb int_key sample /\
  bucket_count_ sample * 2 ^ Z.of_nat (length [49; 17; 49]) <= 2 ^ 63 /\
  exists t',
    insert_all int_hash Z.eqb int_key 2 sample [49; 17; 49] = Some t' /\
    (forall w, holds sample w -> holds t' w) /\
    (forall key,
       present Z.eqb int_key t' key <->
       present Z.eqb int_key sample key \/
       exists v, v ∈ [49; 17; 49] /\ Z.eqb key (int_key v) = true).
Proof.
  split; [exact int_keys|]. split; [exact sample_wf|].
  assert (Hcap :
    bucket_count_ sample * 2 ^ Z.of_nat (length [49; 17; 49]) <= 2 ^ 63)
    by (vm_compute; discriminate).
  split; [exact Hcap|].
  destruct (insert_all_keys int_hash Z.eqb int_key int_keys 0 [49; 17; 49]
              sample sample_wf Hcap)
    as (t' & Hall & _ & Hkeep & _ & Hp & _).
  exists t'. split; [exact Hall|]. split; [exact Hkeep | exact Hp].
Defined.

Lemma traverse_after_update_witness :
  key_equivalence int_hash Z.eqb /\
  wf int_hash Z.eqb int_key sample /\
  exists values,
    traverse sample = Some values /\
    (exists t' pos values',
       insert int_hash Z.eqb int_key 2 sample 49 = Some (t', pos, true) /\
       traverse t' = Some values' /\ values' ≡ₚ 49 :: values) /\
    (exists t' w values',
       erase int_hash Z.eqb int_key 1 sample 17 = Some (t', 1) /\
       traverse t' = Some values' /\ values ≡ₚ w :: values').
Proof.
  split; [exact int_keys|]. split; [exact sample_wf|].
  destruct (traverse_after_update int_hash Z.eqb int_key int_keys 0 sample
              sample_wf) as (values & Ht & Hins & Hers).
  exists values. split; [exact Ht|]. split.
  - exact (Hins 49 eq_refl sample_absent_49).
  - destruct (Hers 17 sample_present_17)
      as (t' & w & values' & He & Ht' & _ & Hp).
    exists t', w, values'. split; [exact He|]. split; [exact Ht' | exact Hp].
Defined.


Lemma erase_twice_witness :
  key_equivalence int_hash Z.eqb /\
  wf int_hash Z.eqb int_key sample /\
  exists t1 c t2,
    erase int_hash Z.eqb int_key 1 sample 17 = Some (t1, c) /\
    erase int_hash Z.eqb int_key 1 t1 17 = Some (t2, 0) /\
    size_ t2 = size_ t1.
Proof.
  split; [exact int_keys|]. split; [exact sample_wf|].
  destruct (erase_twice int_hash Z.eqb int_key int_keys 0 sample 17 sample_wf)
    as (t1 & c & t2 & H1 & H2 & Hsz & _).
  exists t1, c, t2. split; [exact H1|]. split; [exact H2 | exact Hsz].
Defined.

Lemma subscript_after_insert_witness :
  key_equivalence int_hash Z.eqb /\
  wf int_hash Z.eqb extract_first map_sample /\
  bucket_count_ map_sample < 2 ^ 63 /\
  exists t' pos flag w,
    insert int_hash Z.eqb extract_first 2 map_sample (17, 99)
      = Some (t', pos, flag) /\
    slot t' pos = Some w /\
    subscript int_hash Z.eqb extract_first extract_second t'
      (extract_first (17, 99)) =
      Some {| access_state := t';
              access_index := pos;
              access_mapped := Some (extract_second w) |} /\
    (flag = false ->
     t' = map_sample /\
     present Z.eqb extract_first map_sample (extract_first (17, 99))).
Proof.
  split; [exact int_keys|]. split; [exact map_sample_wf|].
  split; [reflexivity|].
  destruct (subscript_after_insert int_hash Z.eqb extract_first int_keys
              extract_second 0 map_sample (17, 99) map_sample_wf eq_refl)
    as (t' & pos & flag & w & Hi & Hw & Hs & _ & Hf).
  exists t', pos, flag, w. split; [exact Hi|]. split; [exact Hw|].
  split; [exact Hs | exact Hf].
Defined.
